(** * Why never defer a mutex in Go: the three servers and the load harness

    The repository contrasts three HTTP handlers over one shared
    [Repository]: [BadHandler] (mutex held through a [defer] until the
    handler returns), [GoodHandler] (mutex held only around the two short
    critical sections) and [SyncMapHandler] (atomic counter and [sync.Map]),
    and drives them with [benchmarkServer] and [measureAverageLatency].

    The handlers are embedded as straight-line programs of Go statements,
    run by goroutines that interleave statement by statement over one shared
    store (the mutex, the counter, the map objects and the [DataStruct]
    objects behind pointers).  The load harness is embedded as functions of
    the outcomes of the requests it sends. *)

From Stdlib Require Import ZArith QArith Qabs Qpower Lia List.
From Stdlib Require Import Floats.SpecFloat.
From stdpp Require Import gmap strings list fin_maps pretty sorting.

(** ** Go integers *)

Module GoInt.

(** [int] and [int64] on a 64-bit platform; arithmetic wraps around. *)
Definition min_int : Z := (-9223372036854775808)%Z.
Definition max_int : Z := 9223372036854775807%Z.

Definition wrap (z : Z) : Z :=
  ((z + 9223372036854775808) mod 18446744073709551616 - 9223372036854775808)%Z.

Definition in_range (z : Z) : Prop := (min_int <= z <= max_int)%Z.

(** [a / b] on integers truncates toward zero; a zero divisor panics. *)
Definition div (a b : Z) : option Z :=
  if (b =? 0)%Z then None else Some (wrap (Z.quot a b)).

End GoInt.

(** ** The shared store *)

(** [DataStruct] of the good and sync.Map servers. [LastModified] is a
    [time.Time], kept as an instant in nanoseconds. *)
Record DataStruct := mkDataStruct {
  Identifier : string;
  Name : string;
  IsActive : bool;
  Counter : Z;
  LastModified : Z
}.

(** What a map holds: an [int] in the bad server ([map[string]int]), a
    pointer to a [DataStruct] in the two others. *)
Inductive value :=
  | VInt (n : Z)
  | VPtr (p : nat).

(** The statements of the handlers, one constructor per Go statement (a
    loop is its start and its body). *)
Inductive instr :=
  | ITimeNow              (* start := time.Now() *)
  | ILock                 (* r.mu.Lock() *)
  | IUnlock               (* r.mu.Unlock(), also the deferred one *)
  | IIncr                 (* r.counter++ *)
  | IReadCounter          (* currentCounter := r.counter *)
  | IAtomicAdd            (* currentCounter := atomic.AddInt64(&r.counter, 1) *)
  | IMakeCopy             (* dataCopy := make(map[string]...) *)
  | IRangeBegin           (* for k, v := range r.data / r.data.Range(...) *)
  | IRangeNext (deep : bool)
                          (* dataCopy[k] = v  /  dataCopy[k] = &DataStruct{...} *)
  | ISleep                (* time.Sleep(10 * time.Millisecond) *)
  | ICpuInit              (* result := 0; for i := 0; ... *)
  | ICpuNext              (* ...; i < 1000000; i++ { result += i } *)
  | ISprintfKey           (* key := fmt.Sprintf("request_%d", currentCounter) *)
  | IStoreInt             (* r.data[fmt.Sprintf("request_%d", currentCounter)] = result *)
  | IStoreStruct          (* r.data[key] = &DataStruct{...} / r.data.Store(key, ...) *)
  | IRespond (method : string)
                          (* w.Header().Set(...); json.NewEncoder(w).Encode(response) *)
  | IReadStats            (* stats := {"total_requests": r.counter, "data_size": len(r.data)} *)
  | IAtomicLoad           (* counter := atomic.LoadInt64(&r.counter) *)
  | ICountBegin           (* dataSize := 0; r.data.Range(...) *)
  | ICountNext            (* dataSize++ *)
  | IRespondStats.        (* json.NewEncoder(w).Encode(stats) *)

Global Instance instr_eq_dec : EqDecision instr.
Proof. solve_decision. Defined.

(** The two routes of each server. *)
Inductive route := Process | Stats.

Global Instance route_eq_dec : EqDecision route.
Proof. solve_decision. Defined.

(** The three servers. *)
Inductive strategy := HeldLock | MinimalLock | LockFree.

Global Instance strategy_eq_dec : EqDecision strategy.
Proof. solve_decision. Defined.

(** bad_server.go, [BadHandler]: the deferred [Unlock] runs when the
    function returns, after the response is encoded. *)
Definition BadHandler : list instr :=
  [ ITimeNow; ILock;
    IIncr; IReadCounter; IMakeCopy; IRangeBegin; IRangeNext false;
    ISleep; ICpuInit; ICpuNext;
    IStoreInt;
    IRespond "bad_defer";
    IUnlock ].

(** cmd/good_server/good_server.go, [GoodHandler]. *)
Definition GoodHandler : list instr :=
  [ ITimeNow;
    ILock; IIncr; IReadCounter; IMakeCopy; IRangeBegin; IRangeNext true; IUnlock;
    ISleep; ICpuInit; ICpuNext;
    ISprintfKey; ILock; IStoreStruct; IUnlock;
    IRespond "good_no_defer" ].

(** The sync.Map server, [SyncMapHandler]. *)
Definition SyncMapHandler : list instr :=
  [ ITimeNow;
    IAtomicAdd; IMakeCopy; IRangeBegin; IRangeNext true;
    ISleep; ICpuInit; ICpuNext;
    ISprintfKey; IStoreStruct;
    IRespond "sync_map" ].

(** [StatsHandler] of the bad and good servers (the same text). *)
Definition StatsHandler : list instr :=
  [ ILock; IReadStats; IUnlock; IRespondStats ].

(** [StatsHandler] of the sync.Map server. *)
Definition SyncMapStatsHandler : list instr :=
  [ IAtomicLoad; ICountBegin; ICountNext; IRespondStats ].

Definition handler (σ : strategy) (h : route) : list instr :=
  match σ, h with
  | HeldLock, Process => BadHandler
  | MinimalLock, Process => GoodHandler
  | LockFree, Process => SyncMapHandler
  | LockFree, Stats => SyncMapStatsHandler
  | _, Stats => StatsHandler
  end.

(** The JSON bodies written to the client. *)
Inductive response :=
  | ProcessResponse (method : string) (counter result duration : Z)
  | StatsResponse (total_requests data_size : Z).

(** A goroutine serving one request: its route, the index of its next
    statement and its local variables. *)
Record thread := mkThread {
  th_route : route;
  pc : nat;
  start : Z;
  currentCounter : Z;
  dataCopy : nat;
  pending : gset string;
  visited : gset string;
  result : Z;
  loop_i : Z;
  key : string;
  statsCounter : Z;
  dataSize : Z
}.

Definition new_thread (h : route) : thread :=
  mkThread h 0 0 0 0 ∅ ∅ 0 0 "" 0 0.

Definition advance (th : thread) : thread :=
  mkThread (th_route th) (S (pc th)) (start th) (currentCounter th) (dataCopy th)
    (pending th) (visited th) (result th) (loop_i th) (key th) (statsCounter th) (dataSize th).
Definition with_start (v : Z) (th : thread) : thread :=
  mkThread (th_route th) (pc th) v (currentCounter th) (dataCopy th)
    (pending th) (visited th) (result th) (loop_i th) (key th) (statsCounter th) (dataSize th).
Definition with_currentCounter (v : Z) (th : thread) : thread :=
  mkThread (th_route th) (pc th) (start th) v (dataCopy th)
    (pending th) (visited th) (result th) (loop_i th) (key th) (statsCounter th) (dataSize th).
Definition with_dataCopy (v : nat) (th : thread) : thread :=
  mkThread (th_route th) (pc th) (start th) (currentCounter th) v
    (pending th) (visited th) (result th) (loop_i th) (key th) (statsCounter th) (dataSize th).
Definition with_pending (v : gset string) (th : thread) : thread :=
  mkThread (th_route th) (pc th) (start th) (currentCounter th) (dataCopy th)
    v (visited th) (result th) (loop_i th) (key th) (statsCounter th) (dataSize th).
Definition with_visited (v : gset string) (th : thread) : thread :=
  mkThread (th_route th) (pc th) (start th) (currentCounter th) (dataCopy th)
    (pending th) v (result th) (loop_i th) (key th) (statsCounter th) (dataSize th).
Definition with_result (v : Z) (th : thread) : thread :=
  mkThread (th_route th) (pc th) (start th) (currentCounter th) (dataCopy th)
    (pending th) (visited th) v (loop_i th) (key th) (statsCounter th) (dataSize th).
Definition with_loop_i (v : Z) (th : thread) : thread :=
  mkThread (th_route th) (pc th) (start th) (currentCounter th) (dataCopy th)
    (pending th) (visited th) (result th) v (key th) (statsCounter th) (dataSize th).
Definition with_key (v : string) (th : thread) : thread :=
  mkThread (th_route th) (pc th) (start th) (currentCounter th) (dataCopy th)
    (pending th) (visited th) (result th) (loop_i th) v (statsCounter th) (dataSize th).
Definition with_statsCounter (v : Z) (th : thread) : thread :=
  mkThread (th_route th) (pc th) (start th) (currentCounter th) (dataCopy th)
    (pending th) (visited th) (result th) (loop_i th) (key th) v (dataSize th).
Definition with_dataSize (v : Z) (th : thread) : thread :=
  mkThread (th_route th) (pc th) (start th) (currentCounter th) (dataCopy th)
    (pending th) (visited th) (result th) (loop_i th) (key th) (statsCounter th) v.

(** The process: the [Repository] (mutex, counter, and the map object
    [r.data] at index [0] of [maps]), every other map object made by a
    handler, the [DataStruct] objects behind pointers, the goroutines, and
    the responses written so far. *)
Record state := mkState {
  mu : bool;
  counter : Z;
  maps : list (gmap string value);
  structs : list DataStruct;
  threads : list thread;
  responses : list (nat * response)
}.

(** [NewRepository()]. *)
Definition NewRepository : state :=
  mkState false 0 [∅] [] [] [].

(** The contents of [r.data]. *)
Definition rdata (s : state) : gmap string value := default ∅ (maps s !! 0%nat).

(** What the scheduler and the clock decide for one statement. *)
Record oracle := mkOracle {
  o_now : Z;        (* what time.Now() returns *)
  o_key : string    (* the key a range loop visits next *)
}.

(** [fmt.Sprintf("request_%d", n)] and [fmt.Sprintf("Request %d", n)]. *)
Definition request_key (n : Z) : string := "request_" +:+ pretty n.
Definition request_name (n : Z) : string := "Request " +:+ pretty n.

Definition put_thread (t : nat) (th : thread) (s : state) : state :=
  mkState (mu s) (counter s) (maps s) (structs s) (<[t := th]> (threads s)) (responses s).
Definition put_mu (b : bool) (s : state) : state :=
  mkState b (counter s) (maps s) (structs s) (threads s) (responses s).
Definition put_counter (c : Z) (s : state) : state :=
  mkState (mu s) c (maps s) (structs s) (threads s) (responses s).
Definition put_maps (m : list (gmap string value)) (s : state) : state :=
  mkState (mu s) (counter s) m (structs s) (threads s) (responses s).
Definition put_structs (d : list DataStruct) (s : state) : state :=
  mkState (mu s) (counter s) (maps s) d (threads s) (responses s).
Definition put_response (r : nat * response) (s : state) : state :=
  mkState (mu s) (counter s) (maps s) (structs s) (threads s) (responses s ++ [r]).

(** [m[k] = v] on the map object [l]. *)
Definition map_store (l : nat) (k : string) (v : value) (s : state) : state :=
  put_maps (alter (<[k := v]>) l (maps s)) s.

(** A range loop, over a Go map or with [sync.Map.Range]: it visits every
    key the map had when the loop started ([pending]) once, in an order that
    is not fixed ([o_key] picks the next one), and reads the value when it
    visits the key. A key stored while the loop runs may be visited too, or
    not; no key is visited twice. The loop may end once [pending] is
    empty. *)
Definition range_begin (s : state) (th : thread) : thread :=
  with_visited ∅ (with_pending (dom (rdata s)) th).

Definition may_visit (k : string) (th : thread) (s : state) : Prop :=
  k ∈ pending th ∨ (k ∈ dom (rdata s) ∧ k ∉ visited th).

Global Instance may_visit_dec k th s : Decision (may_visit k th s).
Proof. unfold may_visit. apply _. Defined.

Definition visit (k : string) (th : thread) : thread :=
  with_visited (visited th ∪ {[k]}) (with_pending (pending th ∖ {[k]}) th).

(** One statement of goroutine [t], whose locals are [th]. [None]: the
    statement cannot run now (a [Lock] on a locked mutex blocks) or the
    runtime stops the process (an [Unlock] of an unlocked mutex, a nil
    dereference). The deep copy skips a value that is not a
    [*DataStruct], as the type assertion of [SyncMapHandler] does. *)
Definition exec_instr (i : instr) (t : nat) (o : oracle) (th : thread) (s : state)
    : option state :=
  match i with
  | ITimeNow => Some (put_thread t (advance (with_start (o_now o) th)) s)
  | ILock =>
      if mu s then None
      else Some (put_thread t (advance th) (put_mu true s))
  | IUnlock =>
      if mu s then Some (put_thread t (advance th) (put_mu false s))
      else None
  | IIncr =>
      Some (put_thread t (advance th) (put_counter (GoInt.wrap (counter s + 1)) s))
  | IReadCounter =>
      Some (put_thread t (advance (with_currentCounter (counter s) th)) s)
  | IAtomicAdd =>
      let c := GoInt.wrap (counter s + 1) in
      Some (put_thread t (advance (with_currentCounter c th)) (put_counter c s))
  | IMakeCopy =>
      Some (put_thread t (advance (with_dataCopy (length (maps s)) th))
              (put_maps (maps s ++ [∅]) s))
  | IRangeBegin =>
      Some (put_thread t (advance (range_begin s th)) s)
  | IRangeNext deep =>
      if decide (may_visit (o_key o) th s) then
        let k := o_key o in
        let th' := visit k th in
        match rdata s !! k with
        | None => Some (put_thread t th' s)
        | Some v =>
            if deep then
              match v with
              | VPtr p =>
                  match structs s !! p with
                  | Some d =>
                      let d' := mkDataStruct (Identifier d) (Name d) (IsActive d)
                                  (Counter d) (LastModified d) in
                      Some (put_thread t th'
                              (map_store (dataCopy th) k (VPtr (length (structs s)))
                                 (put_structs (structs s ++ [d']) s)))
                  | None => None
                  end
              | VInt _ => Some (put_thread t th' s)
              end
            else Some (put_thread t th' (map_store (dataCopy th) k v s))
        end
      else if decide (pending th = ∅) then Some (put_thread t (advance th) s)
      else None
  | ISleep => Some (put_thread t (advance th) s)
  | ICpuInit => Some (put_thread t (advance (with_loop_i 0 (with_result 0 th))) s)
  | ICpuNext =>
      if (loop_i th <? 1000000)%Z then
        Some (put_thread t
                (with_loop_i (GoInt.wrap (loop_i th + 1))
                   (with_result (GoInt.wrap (result th + loop_i th)) th)) s)
      else Some (put_thread t (advance th) s)
  | ISprintfKey =>
      Some (put_thread t (advance (with_key (request_key (currentCounter th)) th)) s)
  | IStoreInt =>
      Some (put_thread t (advance th)
              (map_store 0 (request_key (currentCounter th)) (VInt (result th)) s))
  | IStoreStruct =>
      let d := mkDataStruct (key th) (request_name (currentCounter th)) true
                 (result th) (o_now o) in
      Some (put_thread t (advance th)
              (map_store 0 (key th) (VPtr (length (structs s)))
                 (put_structs (structs s ++ [d]) s)))
  | IRespond m =>
      let r := ProcessResponse m (currentCounter th) (result th)
                 (Z.quot (o_now o - start th) 1000) in
      Some (put_thread t (advance th) (put_response (t, r) s))
  | IReadStats =>
      Some (put_thread t
              (advance (with_dataSize (Z.of_nat (size (rdata s)))
                          (with_statsCounter (counter s) th))) s)
  | IAtomicLoad =>
      Some (put_thread t (advance (with_statsCounter (counter s) th)) s)
  | ICountBegin =>
      Some (put_thread t (advance (range_begin s (with_dataSize 0 th))) s)
  | ICountNext =>
      if decide (may_visit (o_key o) th s) then
        Some (put_thread t
                (with_dataSize (GoInt.wrap (dataSize th + 1))
                   (visit (o_key o) th)) s)
      else if decide (pending th = ∅) then Some (put_thread t (advance th) s)
      else None
  | IRespondStats =>
      Some (put_thread t (advance th)
              (put_response (t, StatsResponse (statsCounter th) (dataSize th)) s))
  end.

(** What happens to the process: a request arrives and gets its goroutine,
    or a goroutine runs its next statement. *)
Inductive event :=
  | Request (h : route)
  | Run (t : nat) (o : oracle).

(** The statement goroutine [th] runs next, if it has not returned. *)
Definition next_instr (σ : strategy) (th : thread) : option instr :=
  handler σ (th_route th) !! pc th.

Definition exec (σ : strategy) (e : event) (s : state) : option state :=
  match e with
  | Request h =>
      Some (mkState (mu s) (counter s) (maps s) (structs s)
              (threads s ++ [new_thread h]) (responses s))
  | Run t o =>
      match threads s !! t with
      | None => None
      | Some th =>
          match next_instr σ th with
          | None => None
          | Some i => exec_instr i t o th s
          end
      end
  end.

(** A schedule is a list of events; an event that cannot happen leaves the
    process as it is. *)
Definition exec_or_stay (σ : strategy) (s : state) (e : event) : state :=
  default s (exec σ e s).

Definition run (σ : strategy) (evs : list event) (s : state) : state :=
  foldl (exec_or_stay σ) s evs.

Inductive reachable (σ : strategy) : state → Prop :=
  | reachable_init : reachable σ NewRepository
  | reachable_step s e s' :
      reachable σ s → exec σ e s = Some s' → reachable σ s'.

(** ** Who holds the mutex

    A Go mutex has no owner: [mu] only says locked or not. A goroutine
    holds it when the last [Lock]/[Unlock] among the statements it has
    completed is a [Lock]. *)

Definition lock_step (b : bool) (i : instr) : bool :=
  match i with
  | ILock => true
  | IUnlock => false
  | _ => b
  end.

Definition locked_after (p : list instr) : bool := foldl lock_step false p.

(** The statements goroutine [th] has completed. *)
Definition executed (σ : strategy) (th : thread) : list instr :=
  take (pc th) (handler σ (th_route th)).

Definition holds_lock (σ : strategy) (th : thread) : bool :=
  locked_after (executed σ th).

(** The statements that write to the client. *)
Definition is_io (i : instr) : bool :=
  match i with
  | IRespond _ | IRespondStats => true
  | _ => false
  end.

(** The statements that stay at the same place until their loop is over. *)
Definition is_loop (i : instr) : bool :=
  match i with
  | IRangeNext _ | ICountNext | ICpuNext => true
  | _ => false
  end.

(** ** Generic facts about one step *)

Lemma lookup_put_thread (l : list thread) t th' t2 th2 :
  <[t := th']> l !! t2 = Some th2 →
  (t2 = t ∧ th2 = th') ∨ (t2 ≠ t ∧ l !! t2 = Some th2).
Proof.
  intros H. destruct (decide (t2 = t)) as [->|Hne].
  - left. split; [done|].
    assert (t < length l) as Hlt.
    { apply lookup_lt_Some in H. by rewrite length_insert in H. }
    rewrite list_lookup_insert_eq in H by done. congruence.
  - right. split; [done|]. by rewrite list_lookup_insert_ne in H.
Qed.

Lemma lookup_new_thread (l : list thread) th t2 th2 :
  (l ++ [th]) !! t2 = Some th2 →
  l !! t2 = Some th2 ∨ (t2 = length l ∧ th2 = th).
Proof.
  intros H. apply lookup_app_Some in H as [H|[Hge H]]; [by left|right].
  destruct (t2 - length l)%nat as [|n] eqn:E; simpl in H; [|done].
  split; [lia|congruence].
Qed.

(** Every statement updates the goroutine that runs it and leaves the
    others alone; it moves to the next statement, or stays inside a loop. *)
Lemma exec_instr_threads i t o th s s' :
  exec_instr i t o th s = Some s' →
  ∃ th', threads s' = <[t := th']> (threads s)
       ∧ th_route th' = th_route th
       ∧ (pc th' = S (pc th) ∨ (pc th' = pc th ∧ is_loop i = true)).
Proof.
  intros H. destruct i; simpl in H;
    repeat (case_match || case_decide); simplify_eq;
    eexists; (split; [reflexivity|]); simpl; auto.
Qed.

Lemma exec_instr_mu i t o th s s' :
  exec_instr i t o th s = Some s' →
  match i with
  | ILock => mu s = false ∧ mu s' = true
  | IUnlock => mu s = true ∧ mu s' = false
  | _ => mu s' = mu s
  end.
Proof.
  intros H. destruct i; simpl in H;
    repeat (case_match || case_decide); simplify_eq; simpl; auto.
Qed.

Lemma executed_advance σ th th' i :
  next_instr σ th = Some i →
  th_route th' = th_route th → pc th' = S (pc th) →
  executed σ th' = executed σ th ++ [i].
Proof.
  unfold next_instr, executed. intros Hi -> ->.
  by apply take_S_r.
Qed.

Lemma executed_stay σ th th' :
  th_route th' = th_route th → pc th' = pc th →
  executed σ th' = executed σ th.
Proof. unfold executed. by intros -> ->. Qed.

Lemma locked_after_snoc p i :
  locked_after (p ++ [i]) = lock_step (locked_after p) i.
Proof. unfold locked_after. by rewrite foldl_app. Qed.

(** In every handler an [Unlock] is reached with the mutex held, a [Lock]
    without it, and no loop statement is a [Lock] or an [Unlock]. *)
Lemma unlock_after_lock σ h n :
  handler σ h !! n = Some IUnlock →
  locked_after (take n (handler σ h)) = true.
Proof.
  destruct σ, h; simpl;
    do 18 (destruct n as [|n]; [by simpl|]); by simpl.
Qed.

Lemma lock_when_free σ h n :
  handler σ h !! n = Some ILock →
  locked_after (take n (handler σ h)) = false.
Proof.
  destruct σ, h; simpl;
    do 18 (destruct n as [|n]; [by simpl|]); by simpl.
Qed.

(** An induction principle over the reachable states that opens a step. *)
Lemma reachable_steps σ (P : state → Prop) :
  P NewRepository →
  (∀ s h, reachable σ s → P s →
     P (mkState (mu s) (counter s) (maps s) (structs s)
          (threads s ++ [new_thread h]) (responses s))) →
  (∀ s t o th i s', reachable σ s → P s →
     threads s !! t = Some th → next_instr σ th = Some i →
     exec_instr i t o th s = Some s' → P s') →
  ∀ s, reachable σ s → P s.
Proof.
  intros H0 Hreq Hrun s Hs. induction Hs as [|s e s' Hs IH He]; [done|].
  destruct e as [h|t o]; simpl in He.
  - simplify_eq. by apply Hreq.
  - destruct (threads s !! t) as [th|] eqn:Eth; [|done].
    destruct (next_instr σ th) as [i|] eqn:Ei; [|done].
    by eapply Hrun.
Qed.

(** ** Mutual exclusion *)

Record mutex_inv (σ : strategy) (s : state) : Prop := {
  mutex_locked : ∀ t th,
    threads s !! t = Some th → holds_lock σ th = true → mu s = true;
  mutex_unique : ∀ t1 t2 th1 th2,
    threads s !! t1 = Some th1 → threads s !! t2 = Some th2 →
    holds_lock σ th1 = true → holds_lock σ th2 = true → t1 = t2;
  mutex_held : mu s = true →
    ∃ t th, threads s !! t = Some th ∧ holds_lock σ th = true
}.

Lemma holds_lock_step σ th th' i :
  next_instr σ th = Some i →
  th_route th' = th_route th →
  (pc th' = S (pc th) ∨ (pc th' = pc th ∧ is_loop i = true)) →
  holds_lock σ th' = lock_step (holds_lock σ th) i.
Proof.
  intros Hi Hr [Hpc|[Hpc Hl]]; unfold holds_lock.
  - erewrite executed_advance by done. apply locked_after_snoc.
  - erewrite executed_stay by done. by destruct i.
Qed.

Lemma mutex_invariant σ s : reachable σ s → mutex_inv σ s.
Proof.
  revert s. apply reachable_steps.
  - split; simpl; intros; simplify_eq.
  - intros s h _ [H1 H2 H3]. split; simpl.
    + intros t th [?|[-> ->]]%lookup_new_thread; [eauto|done].
    + intros t1 t2 th1 th2 [?|[-> ->]]%lookup_new_thread
        [?|[-> ->]]%lookup_new_thread; try done. eauto.
    + intros (t & th & ? & ?)%H3. exists t, th. split; [|done].
      by apply lookup_app_l_Some.
  - intros s t o th i s' _ [H1 H2 H3] Hth Hi Hex.
    destruct (exec_instr_threads _ _ _ _ _ _ Hex) as (th' & Hths & Hr & Hpc).
    pose proof (exec_instr_mu _ _ _ _ _ _ Hex) as Hmu.
    pose proof (holds_lock_step σ th th' i Hi Hr Hpc) as Hh.
    assert (i = IUnlock → holds_lock σ th = true) as Hunl.
    { intros ->. apply unlock_after_lock. exact Hi. }
    split; rewrite Hths.
    + intros t2 th2 [[-> ->]|[Hne Ht2]]%lookup_put_thread Hl.
      * rewrite Hh in Hl. destruct i; simpl in Hl; try done;
          try (rewrite Hmu; eauto); by destruct Hmu.
      * pose proof (H1 _ _ Ht2 Hl) as Hm.
        destruct i; try (by rewrite Hmu); try (by destruct Hmu).
        exfalso. apply Hne. symmetry. eapply (H2 t t2); eauto.
    + assert (∀ t2 th2, t2 ≠ t → threads s !! t2 = Some th2 →
                holds_lock σ th2 = true → holds_lock σ th' = true → False) as Hx.
      { intros t2 th2 Hne Ht2 Hl2 Hl'. rewrite Hh in Hl'.
        pose proof (H1 _ _ Ht2 Hl2) as Hm.
        destruct i; simpl in Hl'; try done;
          try (apply Hne; eapply (H2 t2 t); by eauto).
        destruct Hmu; congruence. }
      intros t1 t2 th1 th2 [[-> ->]|[Hne1 Ht1]]%lookup_put_thread
        [[-> ->]|[Hne2 Ht2]]%lookup_put_thread Hl1 Hl2; try done.
      * exfalso; eauto.
      * exfalso; eauto.
      * eauto.
    + intros Hm. destruct (decide (holds_lock σ th' = true)) as [Hl|Hl].
      * exists t, th'. split; [|done].
        apply list_lookup_insert_eq. by eapply lookup_lt_Some.
      * rewrite Hh in Hl.
        assert (mu s = true ∧ holds_lock σ th = false) as [Hm0 Hl0].
        { destruct i; simpl in Hl; try done;
            try (rewrite Hmu in Hm; split; [done|by destruct (holds_lock σ th)]);
            destruct Hmu; congruence. }
        destruct (H3 Hm0) as (t2 & th2 & Ht2 & Hl2).
        assert (t2 ≠ t) by (intros ->; congruence).
        exists t2, th2. split; [|done]. by rewrite list_lookup_insert_ne.
Qed.

(** ** Schedules *)

Lemma run_snoc σ evs e s :
  run σ (evs ++ [e]) s = exec_or_stay σ (run σ evs s) e.
Proof. unfold run. by rewrite foldl_app. Qed.

Lemma run_app σ evs1 evs2 s :
  run σ (evs1 ++ evs2) s = run σ evs2 (run σ evs1 s).
Proof. unfold run. by rewrite foldl_app. Qed.

Lemma exec_or_stay_reachable σ s e :
  reachable σ s → reachable σ (exec_or_stay σ s e).
Proof.
  intros Hs. unfold exec_or_stay.
  destruct (exec σ e s) as [s'|] eqn:E; simpl; [|done].
  by eapply reachable_step.
Qed.

Lemma run_reachable σ evs s :
  reachable σ s → reachable σ (run σ evs s).
Proof.
  revert s. induction evs as [|e evs IH]; intros s Hs; simpl; [done|].
  apply IH. by apply exec_or_stay_reachable.
Qed.

Lemma run_reachable_init σ evs : reachable σ (run σ evs NewRepository).
Proof. apply run_reachable. constructor. Qed.

(** ** What one statement does to each part of the process *)

Ltac exec_cases H :=
  match type of H with
  | exec_instr ?i _ _ _ _ = Some _ =>
      destruct i; simpl in H;
      repeat (case_match || case_decide); simplify_eq
  end.

Lemma exec_instr_locals i t o th s s' th' :
  exec_instr i t o th s = Some s' →
  threads s !! t = Some th →
  threads s' !! t = Some th' →
  dataCopy th' = (if decide (i = IMakeCopy) then length (maps s) else dataCopy th)
  ∧ currentCounter th' =
      match i with
      | IReadCounter => counter s
      | IAtomicAdd => GoInt.wrap (counter s + 1)
      | _ => currentCounter th
      end
  ∧ key th' =
      match i with
      | ISprintfKey => request_key (currentCounter th)
      | _ => key th
      end.
Proof.
  intros H Hth Hth'. apply lookup_lt_Some in Hth as Hlt.
  exec_cases H; simpl in Hth';
    rewrite list_lookup_insert_eq in Hth' by done; simplify_eq; done.
Qed.

(** The CPU loop, one iteration at a time. *)
Lemma exec_instr_cpu i t o th s s' th' :
  exec_instr i t o th s = Some s' →
  threads s !! t = Some th →
  threads s' !! t = Some th' →
  match i with
  | ICpuInit => result th' = 0%Z ∧ loop_i th' = 0%Z
  | ICpuNext =>
      ((loop_i th < 1000000)%Z ∧ pc th' = pc th
       ∧ result th' = GoInt.wrap (result th + loop_i th)
       ∧ loop_i th' = GoInt.wrap (loop_i th + 1))
      ∨ ((1000000 ≤ loop_i th)%Z ∧ pc th' = S (pc th)
         ∧ result th' = result th ∧ loop_i th' = loop_i th)
  | _ => result th' = result th ∧ loop_i th' = loop_i th
  end.
Proof.
  intros H Hth Hth'. apply lookup_lt_Some in Hth as Hlt.
  exec_cases H; simpl in Hth';
    rewrite list_lookup_insert_eq in Hth' by done; simplify_eq; simpl; auto.
  - left. split; [lia|done].
  - right. split; [lia|done].
Qed.

Lemma exec_instr_counter i t o th s s' :
  exec_instr i t o th s = Some s' →
  counter s' =
    match i with
    | IIncr | IAtomicAdd => GoInt.wrap (counter s + 1)
    | _ => counter s
    end.
Proof. intros H. exec_cases H; done. Qed.

(** The statements that write to a map or make an object, and what they
    write. *)
Lemma exec_instr_store i t o th s s' :
  exec_instr i t o th s = Some s' →
  match i with
  | IMakeCopy => maps s' = maps s ++ [∅] ∧ structs s' = structs s
  | IRangeNext deep =>
      (maps s' = maps s ∧ structs s' = structs s)
      ∨ (∃ k v, rdata s !! k = Some v ∧
           if deep then
             ∃ p d, v = VPtr p ∧ structs s !! p = Some d
                    ∧ structs s' = structs s ++ [d]
                    ∧ maps s' = alter (<[k := VPtr (length (structs s))]>)
                                  (dataCopy th) (maps s)
           else
             structs s' = structs s
             ∧ maps s' = alter (<[k := v]>) (dataCopy th) (maps s))
  | IStoreInt =>
      structs s' = structs s
      ∧ maps s' = alter (<[request_key (currentCounter th) := VInt (result th)]>)
                    0%nat (maps s)
  | IStoreStruct =>
      structs s' = structs s ++
        [mkDataStruct (key th) (request_name (currentCounter th)) true
           (result th) (o_now o)]
      ∧ maps s' = alter (<[key th := VPtr (length (structs s))]>) 0%nat (maps s)
  | _ => maps s' = maps s ∧ structs s' = structs s
  end.
Proof.
  intros H. exec_cases H; simpl; auto.
  - right. eexists _, _. split; [done|]. destruct d. eexists _, _. eauto.
  - right. eexists _, _. split; [done|]. eauto.
Qed.

Lemma executed_step σ i t o th s s' th' :
  exec_instr i t o th s = Some s' →
  threads s !! t = Some th →
  next_instr σ th = Some i →
  threads s' !! t = Some th' →
  th_route th' = th_route th
  ∧ (executed σ th' = executed σ th ++ [i]
     ∨ (executed σ th' = executed σ th ∧ is_loop i = true)).
Proof.
  intros H Hth Hi Hth'.
  destruct (exec_instr_threads _ _ _ _ _ _ H) as (th'' & Hths & Hr & Hpc).
  rewrite Hths, list_lookup_insert_eq in Hth' by (by eapply lookup_lt_Some).
  simplify_eq. split; [done|]. destruct Hpc as [Hpc|[Hpc Hl]].
  - left. by apply executed_advance.
  - right. split; [|done]. by apply executed_stay.
Qed.

(** The other goroutines after a step of goroutine [t]. *)
Lemma exec_instr_others i t o th s s' t2 :
  exec_instr i t o th s = Some s' → t2 ≠ t →
  threads s' !! t2 = threads s !! t2.
Proof.
  intros H Hne.
  destruct (exec_instr_threads _ _ _ _ _ _ H) as (th' & -> & _).
  by rewrite list_lookup_insert_ne.
Qed.

Lemma exec_instr_self i t o th s s' :
  exec_instr i t o th s = Some s' → threads s !! t = Some th →
  is_Some (threads s' !! t).
Proof.
  intros H Hth.
  destruct (exec_instr_threads _ _ _ _ _ _ H) as (th' & -> & _).
  rewrite list_lookup_insert_eq by (by eapply lookup_lt_Some). eauto.
Qed.

(** Static facts about the five programs, checked position by position. *)
Ltac decide_now := apply (bool_decide_unpack _); vm_compute; exact I.

Tactic Notation "by_positions" ident(σ) ident(h) ident(n) tactic3(tac) :=
  destruct σ, h; simpl;
  do 18 (destruct n as [|n]; [simpl; try solve [tac]|]);
  simpl; try solve [tac].

Lemma range_after_make σ h n d :
  handler σ h !! n = Some (IRangeNext d) →
  IMakeCopy ∈ take n (handler σ h).
Proof. by_positions σ h n (intros; simplify_eq; set_solver). Qed.

Lemma shallow_range_is_bad σ h n :
  handler σ h !! n = Some (IRangeNext false) → σ = HeldLock.
Proof. by_positions σ h n done. Qed.

Lemma deep_range_is_not_bad σ h n :
  handler σ h !! n = Some (IRangeNext true) → σ ≠ HeldLock.
Proof. by_positions σ h n done. Qed.

Lemma store_int_is_bad σ h n :
  handler σ h !! n = Some IStoreInt → σ = HeldLock.
Proof. by_positions σ h n done. Qed.

Lemma store_struct_is_not_bad σ h n :
  handler σ h !! n = Some IStoreStruct → σ ≠ HeldLock.
Proof. by_positions σ h n done. Qed.

(** ** The heap: map objects and [DataStruct] objects

    [map[string]int] holds integers, the two other maps hold pointers. *)
Definition value_ok (σ : strategy) (v : value) : Prop :=
  match v with
  | VInt _ => σ = HeldLock
  | VPtr _ => σ ≠ HeldLock
  end.

(** No dangling pointer, and no [DataStruct] object reachable from two
    places: every pointer held by a map slot is held by that slot only. *)
Record ptrs_ok (σ : strategy) (M : list (gmap string value))
    (D : list DataStruct) : Prop := {
  ptrs_kind : ∀ l m k v, M !! l = Some m → m !! k = Some v → value_ok σ v;
  ptrs_valid : ∀ l m k p,
    M !! l = Some m → m !! k = Some (VPtr p) → p < length D;
  ptrs_inj : ∀ l1 l2 m1 m2 k1 k2 p,
    M !! l1 = Some m1 → M !! l2 = Some m2 →
    m1 !! k1 = Some (VPtr p) → m2 !! k2 = Some (VPtr p) →
    l1 = l2 ∧ k1 = k2
}.

Lemma lookup_alter_Some {A} (f : A → A) (L : list A) l l2 y :
  alter f l L !! l2 = Some y →
  (l2 = l ∧ ∃ x, L !! l = Some x ∧ y = f x) ∨ (l2 ≠ l ∧ L !! l2 = Some y).
Proof.
  rewrite list_lookup_alter. case_decide as E.
  - subst l2. intros (x & Hx & ->)%fmap_Some. left. eauto.
  - intros Hy. right. split; [congruence|done].
Qed.

(** A slot of the heap after [m[k] = v] on the map object [l]. *)
Lemma lookup_write_Some (M : list (gmap string value)) l k v l2 m2 k2 v2 :
  alter (<[k := v]>) l M !! l2 = Some m2 → m2 !! k2 = Some v2 →
  (l2 = l ∧ k2 = k ∧ v2 = v ∧ is_Some (M !! l))
  ∨ (∃ m, M !! l2 = Some m ∧ m !! k2 = Some v2).
Proof.
  intros [(-> & m & Hm & ->)|[Hne Hm]]%lookup_alter_Some Hk.
  - apply lookup_insert_Some in Hk as [[<- <-]|[Hne Hk]].
    + left. by rewrite Hm.
    + right. eauto.
  - right. eauto.
Qed.

Lemma ptrs_ok_new_map σ M D : ptrs_ok σ M D → ptrs_ok σ (M ++ [∅]) D.
Proof.
  intros [H1 H2 H3].
  assert (∀ l m (k : string) (v : value), (M ++ [∅]) !! l = Some m → m !! k = Some v →
            M !! l = Some m) as Hold.
  { intros l m k v [?|[Hge Hm]]%lookup_app_Some Hk; [done|].
    destruct (l - length M)%nat; simpl in Hm; simplify_eq. }
  split.
  - intros l m k v Hm Hk. eapply H1; [by eapply Hold|done].
  - intros l m k p Hm Hk. eapply H2; [by eapply Hold|done].
  - intros l1 l2 m1 m2 k1 k2 p Hm1 Hm2 Hk1 Hk2.
    eapply H3; [by eapply Hold|by eapply Hold|done|done].
Qed.

Lemma ptrs_ok_write_int σ M D l k n :
  σ = HeldLock → ptrs_ok σ M D → ptrs_ok σ (alter (<[k := VInt n]>) l M) D.
Proof.
  intros Hσ [H1 H2 H3]. split.
  - intros l2 m2 k2 v2 Hm Hk.
    destruct (lookup_write_Some _ _ _ _ _ _ _ _ Hm Hk)
      as [(-> & -> & -> & _)|(m & Hm' & Hk')]; [done|eauto].
  - intros l2 m2 k2 p Hm Hk.
    destruct (lookup_write_Some _ _ _ _ _ _ _ _ Hm Hk)
      as [(-> & -> & ? & _)|(m & Hm' & Hk')]; [done|eauto].
  - intros l1 l2 m1 m2 k1 k2 p Hm1 Hm2 Hk1 Hk2.
    destruct (lookup_write_Some _ _ _ _ _ _ _ _ Hm1 Hk1)
      as [(-> & -> & ? & _)|(m & Hm1' & Hk1')]; [done|].
    destruct (lookup_write_Some _ _ _ _ _ _ _ _ Hm2 Hk2)
      as [(-> & -> & ? & _)|(m' & Hm2' & Hk2')]; [done|eauto].
Qed.

Lemma ptrs_ok_write_ptr σ M D l k d :
  σ ≠ HeldLock → ptrs_ok σ M D →
  ptrs_ok σ (alter (<[k := VPtr (length D)]>) l M) (D ++ [d]).
Proof.
  intros Hσ [H1 H2 H3]. split.
  - intros l2 m2 k2 v2 Hm Hk.
    destruct (lookup_write_Some _ _ _ _ _ _ _ _ Hm Hk)
      as [(-> & -> & -> & _)|(m & Hm' & Hk')]; [done|eauto].
  - intros l2 m2 k2 p Hm Hk. rewrite length_app; simpl.
    destruct (lookup_write_Some _ _ _ _ _ _ _ _ Hm Hk)
      as [(-> & -> & ? & _)|(m & Hm' & Hk')]; [simplify_eq; lia|].
    pose proof (H2 _ _ _ _ Hm' Hk'). lia.
  - intros l1 l2 m1 m2 k1 k2 p Hm1 Hm2 Hk1 Hk2.
    destruct (lookup_write_Some _ _ _ _ _ _ _ _ Hm1 Hk1)
      as [(-> & -> & ? & _)|(m & Hm1' & Hk1')];
    destruct (lookup_write_Some _ _ _ _ _ _ _ _ Hm2 Hk2)
      as [(-> & -> & ? & _)|(m' & Hm2' & Hk2')]; simplify_eq.
    + done.
    + pose proof (H2 _ _ _ _ Hm2' Hk2'). lia.
    + pose proof (H2 _ _ _ _ Hm1' Hk1'). lia.
    + eauto.
Qed.

Record heap_inv (σ : strategy) (s : state) : Prop := {
  heap_data : 0 < length (maps s);
  heap_copy : ∀ t th,
    threads s !! t = Some th → IMakeCopy ∈ executed σ th →
    0 < dataCopy th < length (maps s);
  heap_copy_inj : ∀ t1 t2 th1 th2,
    threads s !! t1 = Some th1 → threads s !! t2 = Some th2 →
    IMakeCopy ∈ executed σ th1 → IMakeCopy ∈ executed σ th2 →
    dataCopy th1 = dataCopy th2 → t1 = t2;
  heap_ptrs : ptrs_ok σ (maps s) (structs s)
}.

(** A goroutine after a step of goroutine [t]: another one, unchanged, or
    [t] itself, one statement further. *)
Lemma step_thread σ i t o th s s' t2 th2 :
  exec_instr i t o th s = Some s' →
  threads s !! t = Some th →
  next_instr σ th = Some i →
  threads s' !! t2 = Some th2 →
  (t2 ≠ t ∧ threads s !! t2 = Some th2)
  ∨ (t2 = t ∧ th_route th2 = th_route th
     ∧ (executed σ th2 = executed σ th ++ [i]
        ∨ (executed σ th2 = executed σ th ∧ is_loop i = true))).
Proof.
  intros H Hth Hi Hth2. destruct (decide (t2 = t)) as [->|Hne].
  - right. split; [done|]. by eapply executed_step.
  - left. split; [done|]. by erewrite <- exec_instr_others.
Qed.

Lemma executed_mono σ i t o th s s' th' j :
  exec_instr i t o th s = Some s' →
  threads s !! t = Some th →
  next_instr σ th = Some i →
  threads s' !! t = Some th' →
  j ∈ executed σ th' → j ∈ executed σ th ∨ j = i.
Proof.
  intros H Hth Hi Hth' Hj.
  destruct (executed_step _ _ _ _ _ _ _ _ H Hth Hi Hth') as [_ [E|[E _]]];
    rewrite E in Hj; [|by left].
  apply elem_of_app in Hj as [?|Hj]; [by left|].
  apply list_elem_of_singleton in Hj. by right.
Qed.

Lemma rdata_lookup s k v :
  rdata s !! k = Some v → ∃ m, maps s !! 0%nat = Some m ∧ m !! k = Some v.
Proof.
  unfold rdata. destruct (maps s !! 0%nat) as [m|]; simpl; [eauto|].
  by rewrite lookup_empty.
Qed.

(** The four things a statement can do to the heap. *)
Lemma exec_instr_heap σ i t o th s s' :
  exec_instr i t o th s = Some s' →
  next_instr σ th = Some i →
  ptrs_ok σ (maps s) (structs s) →
  (maps s' = maps s ∧ structs s' = structs s)
  ∨ (i = IMakeCopy ∧ maps s' = maps s ++ [∅] ∧ structs s' = structs s)
  ∨ (∃ l k n, σ = HeldLock ∧ structs s' = structs s
              ∧ maps s' = alter (<[k := VInt n]>) l (maps s))
  ∨ (∃ l k d, σ ≠ HeldLock ∧ structs s' = structs s ++ [d]
              ∧ maps s' = alter (<[k := VPtr (length (structs s))]>) l (maps s)).
Proof.
  intros H Hi Hp. pose proof (exec_instr_store _ _ _ _ _ _ H) as Hst.
  destruct i; try (by left); simpl in Hst.
  - right; left. by destruct Hst.
  - destruct Hst as [?|(k & v & Hv & Hst)]; [by left|]. destruct deep.
    + destruct Hst as (p & d & -> & Hd & Hs & Hm).
      do 3 right. exists (dataCopy th), k, d.
      split; [|done]. by eapply deep_range_is_not_bad.
    + destruct Hst as [Hs Hm].
      assert (σ = HeldLock) as Hσ by (by eapply shallow_range_is_bad).
      apply rdata_lookup in Hv as (m & Hm0 & Hk).
      pose proof (ptrs_kind _ _ _ Hp _ _ _ _ Hm0 Hk) as Hv.
      destruct v as [n|p]; simpl in Hv; [|done].
      do 2 right; left. by exists (dataCopy th), k, n.
  - destruct Hst as [Hs Hm]. do 2 right; left.
    eexists _, _, _. split; [by eapply store_int_is_bad|done].
  - destruct Hst as [Hs Hm]. do 3 right.
    eexists _, _, _. split; [by eapply store_struct_is_not_bad|done].
Qed.

Lemma heap_invariant σ s : reachable σ s → heap_inv σ s.
Proof.
  revert s. apply reachable_steps.
  - split; simpl; [lia|intros; simplify_eq..|].
    assert (∀ l m (k : string) (v : value),
              [(∅ : gmap string value)] !! l = Some m → m !! k = Some v → False) as Hno.
    { intros [|l] m k v Hm Hk; simpl in Hm; simplify_eq. }
    split; intros; exfalso; eauto.
  - intros s h _ [H1 H2 H3 H4]. split; simpl; [done| | |done].
    + intros t th [?|[-> ->]]%lookup_new_thread; [eauto|].
      unfold executed; simpl. by intros ?%elem_of_nil.
    + intros t1 t2 th1 th2 [?|[-> ->]]%lookup_new_thread
        [?|[-> ->]]%lookup_new_thread; try done; eauto;
        unfold executed; simpl; intros; exfalso; by eapply elem_of_nil.
  - intros s t o th i s' _ [H1 H2 H3 H4] Hth Hi Hex.
    pose proof (exec_instr_heap _ _ _ _ _ _ _ Hex Hi H4) as Hheap.
    pose proof (exec_instr_store _ _ _ _ _ _ Hex) as Hst.
    assert (length (maps s) ≤ length (maps s')) as Hlen.
    { destruct Hheap as [[-> _]|[(_ & -> & _)|[(l & k & n & _ & _ & ->)
        |(l & k & d & _ & _ & ->)]]]; rewrite ?length_alter, ?length_app; lia. }
    assert (∀ th', threads s' !! t = Some th' → IMakeCopy ∈ executed σ th' →
              0 < dataCopy th' < length (maps s')
              ∧ (dataCopy th' = length (maps s)
                 ∨ (dataCopy th' = dataCopy th ∧ IMakeCopy ∈ executed σ th)))
      as Hself.
    { intros th' Hth' Hin.
      destruct (exec_instr_locals _ _ _ _ _ _ _ Hex Hth Hth') as (Hdc & _).
      destruct (decide (i = IMakeCopy)) as [->|Hne].
      - simpl in Hst. destruct Hst as [-> _]. rewrite Hdc, length_app; simpl.
        split; [lia|by left].
      - destruct (executed_mono _ _ _ _ _ _ _ _ _ Hex Hth Hi Hth' Hin)
          as [Hin'|?]; [|done].
        pose proof (H2 _ _ Hth Hin'). rewrite Hdc. split; [lia|by right]. }
    split.
    + lia.
    + intros t2 th2 Hth2 Hin.
      destruct (step_thread _ _ _ _ _ _ _ _ _ Hex Hth Hi Hth2)
        as [[Hne Hold]|[-> _]].
      * pose proof (H2 _ _ Hold Hin). lia.
      * by apply Hself.
    + intros t1 t2 th1 th2 Hth1 Hth2 Hin1 Hin2 Heq.
      destruct (step_thread _ _ _ _ _ _ _ _ _ Hex Hth Hi Hth1)
        as [[Hne1 Hold1]|[-> _]];
      destruct (step_thread _ _ _ _ _ _ _ _ _ Hex Hth Hi Hth2)
        as [[Hne2 Hold2]|[-> _]]; try done.
      * eauto.
      * destruct (Hself _ Hth2 Hin2) as [_ [Hn|[Hn Hin]]].
        -- pose proof (H2 _ _ Hold1 Hin1). lia.
        -- eapply (H3 t1 t); eauto. congruence.
      * destruct (Hself _ Hth1 Hin1) as [_ [Hn|[Hn Hin]]].
        -- pose proof (H2 _ _ Hold2 Hin2). lia.
        -- eapply (H3 t t2); eauto. congruence.
    + destruct Hheap as [[-> ->]|[(_ & -> & ->)|[(l & k & n & ? & -> & ->)
        |(l & k & d & ? & -> & ->)]]].
      * done.
      * by apply ptrs_ok_new_map.
      * by apply ptrs_ok_write_int.
      * by apply ptrs_ok_write_ptr.
Qed.

(** ** Snapshots *)

(** A map object other than [r.data] and other than the copy being filled
    by the running statement is left as it is. *)
Lemma exec_instr_frame i t o th s s' l :
  exec_instr i t o th s = Some s' →
  l ≠ 0%nat → (∀ d, i = IRangeNext d → l ≠ dataCopy th) →
  l < length (maps s) →
  maps s' !! l = maps s !! l.
Proof.
  intros H H0 Hr Hl. pose proof (exec_instr_store _ _ _ _ _ _ H) as Hst.
  destruct i; simpl in Hst; try (by destruct Hst as [-> _]).
  - destruct Hst as [-> _]. by rewrite lookup_app_l.
  - specialize (Hr deep eq_refl).
    destruct Hst as [[-> _]|(k & v & _ & Hst)]; [done|]. destruct deep.
    + destruct Hst as (p & d & _ & _ & _ & ->). by rewrite list_lookup_alter_ne.
    + destruct Hst as [_ ->]. by rewrite list_lookup_alter_ne.
  - destruct Hst as [_ ->]. by rewrite list_lookup_alter_ne.
  - destruct Hst as [_ ->]. by rewrite list_lookup_alter_ne.
Qed.

(** [DataStruct] objects are never written after they are made. *)
Lemma exec_instr_structs i t o th s s' :
  exec_instr i t o th s = Some s' → ∃ ds, structs s' = structs s ++ ds.
Proof.
  intros H. pose proof (exec_instr_store _ _ _ _ _ _ H) as Hst.
  destruct i; simpl in Hst;
    try (destruct Hst as [_ ->]; exists []; by rewrite app_nil_r).
  - destruct Hst as [[_ ->]|(k & v & _ & Hst)];
      [exists []; by rewrite app_nil_r|]. destruct deep.
    + destruct Hst as (p & d & _ & _ & -> & _). eauto.
    + destruct Hst as [-> _]. exists []. by rewrite app_nil_r.
  - destruct Hst as [-> _]. exists []. by rewrite app_nil_r.
  - destruct Hst as [-> _]. eauto.
Qed.

(** The goroutine has left its range loop: its snapshot is taken. *)
Definition snapshot_done (σ : strategy) (th : thread) : Prop :=
  ∃ d, IRangeNext d ∈ executed σ th.

(** What a map object holds once pointers are followed. *)
Inductive content :=
  | CInt (n : Z)
  | CStruct (d : DataStruct)
  | CNil.

Definition deref (D : list DataStruct) (v : value) : content :=
  match v with
  | VInt n => CInt n
  | VPtr p => match D !! p with Some d => CStruct d | None => CNil end
  end.

Definition map_contents (s : state) (l : nat) : gmap string content :=
  deref (structs s) <$> default ∅ (maps s !! l).

(** The snapshot [dataCopy] of goroutine [th], as the handler sees it. *)
Definition snapshot (s : state) (th : thread) : gmap string content :=
  map_contents s (dataCopy th).

Lemma range_once σ h n d d' :
  handler σ h !! n = Some (IRangeNext d) →
  IRangeNext d' ∉ take n (handler σ h).
Proof.
  by_positions σ h n
    (intros; simplify_eq; destruct d'; decide_now).
Qed.

Lemma make_before_range σ h n d :
  IRangeNext d ∈ take n (handler σ h) → IMakeCopy ∈ take n (handler σ h).
Proof.
  destruct d; by_positions σ h n
    decide_now.
Qed.

Lemma make_once σ h n :
  handler σ h !! n = Some IMakeCopy → IMakeCopy ∉ take n (handler σ h).
Proof.
  by_positions σ h n
    (intros; simplify_eq; decide_now).
Qed.

Lemma deref_app D d v : 
  (∀ p, v = VPtr p → p < length D) → deref (D ++ d) v = deref D v.
Proof.
  intros H. destruct v as [n|p]; simpl; [done|].
  by rewrite lookup_app_l by eauto.
Qed.

(** One event leaves a taken snapshot as it is. *)
Lemma snapshot_step σ s e s' t th :
  reachable σ s → exec σ e s = Some s' →
  threads s !! t = Some th → snapshot_done σ th →
  ∃ th', threads s' !! t = Some th' ∧ snapshot_done σ th'
         ∧ dataCopy th' = dataCopy th ∧ snapshot s' th' = snapshot s th.
Proof.
  intros Hs He Hth [d Hd]. pose proof (heap_invariant _ _ Hs) as [H1 H2 H3 H4].
  assert (IMakeCopy ∈ executed σ th) as Hmk by (by eapply make_before_range).
  pose proof (H2 _ _ Hth Hmk) as Hdc.
  destruct e as [h|t2 o]; simpl in He.
  - simplify_eq. exists th. split; [by apply lookup_app_l_Some|].
    split; [by exists d|done].
  - destruct (threads s !! t2) as [th2|] eqn:Eth2; [|done].
    destruct (next_instr σ th2) as [i|] eqn:Ei; [|done].
    assert (∃ th', threads s' !! t = Some th' ∧ snapshot_done σ th'
                   ∧ dataCopy th' = dataCopy th) as (th' & Hth' & Hd' & Hdc').
    { destruct (decide (t = t2)) as [->|Hne].
      - assert (th2 = th) as -> by congruence.
        destruct (exec_instr_self _ _ _ _ _ _ He Hth) as [th' Hth'].
        exists th'. split; [done|].
        destruct (executed_step _ _ _ _ _ _ _ _ He Hth Ei Hth') as [_ Hx].
        destruct (exec_instr_locals _ _ _ _ _ _ _ He Hth Hth') as (Hc & _).
        split.
        + exists d. destruct Hx as [->|[-> _]]; [|done].
          apply elem_of_app; by left.
        + rewrite Hc. case_decide as Hi; [|done]. subst i.
          exfalso. by eapply make_once.
      - exists th. rewrite (exec_instr_others _ _ _ _ _ _ t He Hne).
        split; [done|]. split; [by exists d|done]. }
    exists th'. split; [done|]. split; [done|]. split; [done|].
    assert (maps s' !! dataCopy th = maps s !! dataCopy th) as Hm.
    { eapply exec_instr_frame; [done|lia| |lia].
      intros d2 -> Heq. destruct (decide (t = t2)) as [->|Hne].
      - assert (th2 = th) as -> by congruence. by eapply range_once.
      - apply Hne. eapply (H3 t t2); eauto.
        eapply range_after_make. exact Ei. }
    unfold snapshot, map_contents. rewrite Hdc', Hm.
    destruct (exec_instr_structs _ _ _ _ _ _ He) as [ds ->].
    apply map_fmap_ext. intros k v Hk. apply deref_app. intros p ->.
    destruct (maps s !! dataCopy th) as [m|] eqn:Em; simpl in Hk;
      [|by rewrite lookup_empty in Hk].
    by eapply (ptrs_valid _ _ _ H4).
Qed.

Lemma snapshot_run σ evs s t th :
  reachable σ s → threads s !! t = Some th → snapshot_done σ th →
  ∃ th', threads (run σ evs s) !! t = Some th' ∧ snapshot_done σ th'
         ∧ dataCopy th' = dataCopy th ∧ snapshot (run σ evs s) th' = snapshot s th.
Proof.
  revert s th. induction evs as [|e evs IH]; intros s th Hs Hth Hd; simpl.
  - by exists th.
  - destruct (exec σ e s) as [s1|] eqn:E.
    + assert (exec_or_stay σ s e = s1) as ->
        by (unfold exec_or_stay; by rewrite E).
      destruct (snapshot_step _ _ _ _ _ _ Hs E Hth Hd) as (th1 & Hth1 & Hd1 & Hc1 & Hs1).
      destruct (IH s1 th1) as (th' & Hth' & Hd' & Hc' & Hs');
        [by eapply reachable_step|done|done|].
      exists th'. split; [done|]. split; [done|].
      split; [congruence|]. by rewrite <- Hs1.
    + assert (exec_or_stay σ s e = s) as ->
        by (unfold exec_or_stay; by rewrite E).
      by apply IH.
Qed.

(** ** Request ids *)

(** The goroutine has its id: it has read the counter it incremented, or
    got the result of the atomic add. *)
Definition has_id (σ : strategy) (th : thread) : Prop :=
  IReadCounter ∈ executed σ th ∨ IAtomicAdd ∈ executed σ th.

Definition is_alloc (i : instr) : bool :=
  match i with
  | IReadCounter | IAtomicAdd => true
  | _ => false
  end.

Lemma incr_locked σ h n :
  handler σ h !! n = Some IIncr → locked_after (take n (handler σ h)) = true.
Proof. by_positions σ h n done. Qed.

Lemma read_locked σ h n :
  handler σ h !! n = Some IReadCounter →
  locked_after (take n (handler σ h)) = true.
Proof. by_positions σ h n done. Qed.

Lemma read_after_incr σ h n :
  handler σ h !! S n = Some IReadCounter → handler σ h !! n = Some IIncr.
Proof. by_positions σ h n done. Qed.

Lemma read_not_lockfree σ h n :
  handler σ h !! n = Some IReadCounter → σ ≠ LockFree.
Proof. by_positions σ h n done. Qed.

Lemma atomic_is_lockfree σ h n :
  handler σ h !! n = Some IAtomicAdd → σ = LockFree.
Proof. by_positions σ h n done. Qed.

Lemma alloc_once σ h n i :
  handler σ h !! n = Some i → is_alloc i = true →
  (IReadCounter ∉ take n (handler σ h)) ∧ (IAtomicAdd ∉ take n (handler σ h)).
Proof.
  by_positions σ h n (intros; simplify_eq; split; decide_now).
Qed.

Record ids_inv (σ : strategy) (s : state) : Prop := {
  ids_counter : (0 ≤ counter s)%Z;
  ids_le : ∀ t th,
    threads s !! t = Some th → has_id σ th →
    (1 ≤ currentCounter th ≤ counter s)%Z;
  ids_pending : ∀ t th,
    threads s !! t = Some th → next_instr σ th = Some IReadCounter →
    (1 ≤ counter s)%Z
    ∧ ∀ t' th', threads s !! t' = Some th' → has_id σ th' →
        (currentCounter th' < counter s)%Z;
  ids_inj : ∀ t1 t2 th1 th2,
    threads s !! t1 = Some th1 → threads s !! t2 = Some th2 →
    has_id σ th1 → has_id σ th2 →
    currentCounter th1 = currentCounter th2 → t1 = t2
}.

Lemma wrap_in_range z : GoInt.in_range z → GoInt.wrap z = z.
Proof.
  unfold GoInt.in_range, GoInt.min_int, GoInt.max_int, GoInt.wrap. intros H.
  rewrite Z.mod_small; lia.
Qed.

Lemma wrap_succ c :
  (0 ≤ c < GoInt.max_int)%Z → GoInt.wrap (c + 1) = (c + 1)%Z.
Proof.
  intros H. apply wrap_in_range.
  unfold GoInt.in_range, GoInt.min_int, GoInt.max_int in *. lia.
Qed.

(** A goroutine that has its id after a step had it before, with the same
    id, or has just been given the new one. *)
Lemma has_id_step σ i t o th s s' t2 th2 :
  exec_instr i t o th s = Some s' →
  threads s !! t = Some th → next_instr σ th = Some i →
  threads s' !! t2 = Some th2 → has_id σ th2 →
  (∃ th0, threads s !! t2 = Some th0 ∧ has_id σ th0
          ∧ currentCounter th2 = currentCounter th0)
  ∨ (t2 = t ∧ ¬ has_id σ th ∧
     ((i = IReadCounter ∧ currentCounter th2 = counter s)
      ∨ (i = IAtomicAdd ∧ currentCounter th2 = GoInt.wrap (counter s + 1)))).
Proof.
  intros Hex Hth Hi Hth2 Hid.
  destruct (step_thread _ _ _ _ _ _ _ _ _ Hex Hth Hi Hth2) as [[Hne Hold]|[-> _]].
  { left. by exists th2. }
  destruct (exec_instr_locals _ _ _ _ _ _ _ Hex Hth Hth2) as (_ & Hcc & _).
  destruct (is_alloc i) eqn:Ea.
  - right. split; [done|].
    destruct (alloc_once _ _ _ _ Hi Ea) as [Hn1 Hn2].
    split; [by intros [?|?]|].
    destruct i; try done; [by left|by right].
  - left. exists th. split; [done|]. split.
    + destruct Hid as [Hid|Hid];
        destruct (executed_mono _ _ _ _ _ _ _ _ _ Hex Hth Hi Hth2 Hid)
          as [?|<-]; try done; [by left|by right].
    + rewrite Hcc. by destruct i.
Qed.

(** A goroutine about to read the counter after a step was about to read it
    before, or has just incremented it. *)
Lemma pending_step σ i t o th s s' t2 th2 :
  exec_instr i t o th s = Some s' →
  threads s !! t = Some th → next_instr σ th = Some i →
  threads s' !! t2 = Some th2 → next_instr σ th2 = Some IReadCounter →
  (t2 ≠ t ∧ threads s !! t2 = Some th2) ∨ (t2 = t ∧ i = IIncr).
Proof.
  intros Hex Hth Hi Hth2 Hn.
  destruct (decide (t2 = t)) as [->|Hne];
    [right; split; [done|]|left; split; [done|by erewrite <- exec_instr_others]].
  destruct (exec_instr_threads _ _ _ _ _ _ Hex) as (th' & Hths & Hr & Hpc).
  rewrite Hths, list_lookup_insert_eq in Hth2 by (by eapply lookup_lt_Some).
  simplify_eq. unfold next_instr in *. rewrite Hr in Hn.
  destruct Hpc as [Hpc|[Hpc Hl]]; rewrite Hpc in Hn.
  - apply read_after_incr in Hn. congruence.
  - rewrite Hn in Hi. by simplify_eq.
Qed.

Lemma ids_inv_step σ i t o th s s' :
  reachable σ s → ids_inv σ s → (counter s < GoInt.max_int)%Z →
  threads s !! t = Some th → next_instr σ th = Some i →
  exec_instr i t o th s = Some s' →
  ids_inv σ s' ∧ (counter s ≤ counter s' ≤ counter s + 1)%Z.
Proof.
  intros Hs [Hc Hle Hpend Hinj] Hb Hth Hi Hex.
  pose proof (mutex_invariant _ _ Hs) as [M1 M2 M3].
  pose proof (exec_instr_counter _ _ _ _ _ _ Hex) as Hcnt.
  pose proof (wrap_succ (counter s) (conj Hc Hb)) as Hw.
  assert (counter s ≤ counter s' ≤ counter s + 1)%Z as Hmono.
  { rewrite Hcnt. destruct i; lia. }
  split; [|done].
  assert (∀ t2 th2, threads s !! t2 = Some th2 →
            next_instr σ th2 = Some IReadCounter →
            next_instr σ th = Some IIncr ∨ next_instr σ th = Some IReadCounter →
            t2 = t) as Hexcl.
  { intros t2 th2 Ht2 Hn2 Hn. eapply (M2 t2 t); eauto.
    - by apply read_locked.
    - destruct Hn; [by apply incr_locked|by apply read_locked]. }
  assert (∀ t2 th2, threads s' !! t2 = Some th2 → has_id σ th2 →
            (1 ≤ currentCounter th2 ≤ counter s')%Z
            ∧ (i = IIncr → currentCounter th2 < counter s')%Z) as Hle'.
  { intros t2 th2 Ht2 Hid2.
    destruct (has_id_step _ _ _ _ _ _ _ _ _ Hex Hth Hi Ht2 Hid2)
      as [(th0 & Ht0 & Hid0 & ->)|(-> & _ & [[-> ->]|[-> ->]])].
    - pose proof (Hle _ _ Ht0 Hid0). split; [lia|].
      intros ->. rewrite Hcnt. lia.
    - destruct (Hpend _ _ Hth Hi) as [? _]. split; [lia|done].
    - rewrite Hcnt. split; [lia|done]. }
  split.
  - lia.
  - intros t2 th2 Ht2 Hid2. by destruct (Hle' _ _ Ht2 Hid2).
  - intros t2 th2 Ht2 Hn2.
    destruct (pending_step _ _ _ _ _ _ _ _ _ Hex Hth Hi Ht2 Hn2)
      as [[Hne Hold]|[-> ->]].
    + destruct (Hpend _ _ Hold Hn2) as [H1 Hlt]. split; [lia|].
      intros t3 th3 Ht3 Hid3.
      destruct (has_id_step _ _ _ _ _ _ _ _ _ Hex Hth Hi Ht3 Hid3)
        as [(th0 & Ht0 & Hid0 & ->)|(-> & _ & [[-> ->]|[-> ->]])].
      * pose proof (Hlt _ _ Ht0 Hid0). lia.
      * exfalso. apply Hne. eapply Hexcl; eauto.
      * exfalso. by eapply read_not_lockfree, atomic_is_lockfree.
    + split; [rewrite Hcnt; lia|].
      intros t3 th3 Ht3 Hid3. destruct (Hle' _ _ Ht3 Hid3) as [_ Hx]. by apply Hx.
  - intros t1 t2 th1 th2 Ht1 Ht2 Hid1 Hid2 Heq.
    destruct (has_id_step _ _ _ _ _ _ _ _ _ Hex Hth Hi Ht1 Hid1)
      as [(th01 & Ht01 & Hid01 & E1)|(-> & _ & Hnew1)];
    destruct (has_id_step _ _ _ _ _ _ _ _ _ Hex Hth Hi Ht2 Hid2)
      as [(th02 & Ht02 & Hid02 & E2)|(-> & _ & Hnew2)]; try done.
    + eapply Hinj; eauto. congruence.
    + exfalso. pose proof (Hle _ _ Ht01 Hid01).
      destruct Hnew2 as [[-> E2]|[-> E2]].
      * destruct (Hpend _ _ Hth Hi) as [_ Hlt].
        pose proof (Hlt _ _ Ht01 Hid01). lia.
      * lia.
    + exfalso. pose proof (Hle _ _ Ht02 Hid02).
      destruct Hnew1 as [[-> E1]|[-> E1]].
      * destruct (Hpend _ _ Hth Hi) as [_ Hlt].
        pose proof (Hlt _ _ Ht02 Hid02). lia.
      * lia.
Qed.

Lemma ids_inv_request σ s h :
  ids_inv σ s →
  ids_inv σ (mkState (mu s) (counter s) (maps s) (structs s)
               (threads s ++ [new_thread h]) (responses s)).
Proof.
  intros [Hc Hle Hpend Hinj].
  assert (¬ has_id σ (new_thread h)) as Hnew.
  { unfold has_id, executed; simpl. intros [?%elem_of_nil|?%elem_of_nil]; done. }
  assert (next_instr σ (new_thread h) ≠ Some IReadCounter) as Hnext.
  { by destruct σ, h. }
  split; simpl.
  - done.
  - intros t th [?|[-> ->]]%lookup_new_thread ?; [eauto|done].
  - intros t th [Ht|[-> ->]]%lookup_new_thread Hn; [|done].
    destruct (Hpend _ _ Ht Hn) as [? Hlt]. split; [done|].
    intros t' th' [?|[-> ->]]%lookup_new_thread ?; [eauto|done].
  - intros t1 t2 th1 th2 [?|[-> ->]]%lookup_new_thread
      [?|[-> ->]]%lookup_new_thread; try done. eauto.
Qed.

Lemma ids_inv_init σ : ids_inv σ NewRepository.
Proof. split; simpl; intros; simplify_eq; done. Qed.

(** As long as fewer than [2^63] events have happened the counter has not
    wrapped around, and the ids are as they should. *)
Lemma ids_run σ evs :
  (Z.of_nat (length evs) ≤ GoInt.max_int)%Z →
  ids_inv σ (run σ evs NewRepository)
  ∧ (0 ≤ counter (run σ evs NewRepository) ≤ Z.of_nat (length evs))%Z.
Proof.
  induction evs as [|e evs IH] using rev_ind; intros Hb.
  - split; [apply ids_inv_init|simpl; lia].
  - rewrite length_app in *; simpl in *. rewrite run_snoc.
    destruct IH as [IH Hc]; [lia|].
    pose proof (run_reachable_init σ evs) as Hs.
    set (s := run σ evs NewRepository) in *.
    unfold exec_or_stay. destruct (exec σ e s) as [s'|] eqn:E; simpl; [|split; [done|lia]].
    destruct e as [h|t o]; simpl in E.
    + simplify_eq. split; [by apply ids_inv_request|simpl; lia].
    + destruct (threads s !! t) as [th|] eqn:Eth; [|done].
      destruct (next_instr σ th) as [i|] eqn:Ei; [|done].
      destruct (ids_inv_step σ i t o th s s') as [? ?]; try done; [lia|].
      split; [done|lia].
Qed.

(** The id a step hands out, if it is the statement that gives the
    goroutine its id: the value of [currentCounter] after it. *)
Definition allocated (σ : strategy) (s : state) (e : event) : option Z :=
  match e with
  | Run t o =>
      th ← threads s !! t;
      i ← next_instr σ th;
      if is_alloc i
      then currentCounter <$> threads (exec_or_stay σ s e) !! t
      else None
  | Request _ => None
  end.

(** The ids handed out along a schedule, in the order they are handed out. *)
Fixpoint handed_out (σ : strategy) (evs : list event) (s : state) : list Z :=
  match evs with
  | [] => []
  | e :: evs' =>
      option_list (allocated σ s e) ++ handed_out σ evs' (exec_or_stay σ s e)
  end.

Lemma handed_out_snoc σ evs e s :
  handed_out σ (evs ++ [e]) s
  = handed_out σ evs s ++ option_list (allocated σ (run σ evs s) e).
Proof.
  revert s. induction evs as [|e' evs IH]; intros s; simpl.
  - by rewrite app_nil_r.
  - by rewrite IH, app_assoc.
Qed.

(** A goroutine keeps its id. *)
Lemma has_id_kept σ s e t th :
  threads s !! t = Some th → has_id σ th →
  ∃ th', threads (exec_or_stay σ s e) !! t = Some th' ∧ has_id σ th'
         ∧ currentCounter th' = currentCounter th.
Proof.
  intros Hth Hid. unfold exec_or_stay.
  destruct (exec σ e s) as [s'|] eqn:E; simpl; [|by exists th].
  destruct e as [h|t2 o]; simpl in E.
  - simplify_eq. exists th. split; [by apply lookup_app_l_Some|done].
  - destruct (threads s !! t2) as [th2|] eqn:Eth2; [|done].
    destruct (next_instr σ th2) as [i|] eqn:Ei; [|done].
    destruct (decide (t = t2)) as [->|Hne].
    + assert (th2 = th) as -> by congruence.
      destruct (exec_instr_self _ _ _ _ _ _ E Hth) as [th' Hth'].
      exists th'. split; [done|].
      destruct (executed_step _ _ _ _ _ _ _ _ E Hth Ei Hth') as [_ Hx].
      destruct (exec_instr_locals _ _ _ _ _ _ _ E Hth Hth') as (_ & Hcc & _).
      split.
      * destruct Hx as [Hx|[Hx _]]; unfold has_id; rewrite Hx; [|done].
        rewrite !elem_of_app. destruct Hid; auto.
      * rewrite Hcc. destruct (is_alloc i) eqn:Ea; [|by destruct i].
        destruct (alloc_once _ _ _ _ Ei Ea). by destruct Hid.
    + exists th. by rewrite (exec_instr_others _ _ _ _ _ _ t E Hne).
Qed.

Lemma handed_out_sorted σ evs :
  (Z.of_nat (length evs) ≤ GoInt.max_int)%Z →
  StronglySorted Z.lt (handed_out σ evs NewRepository)
  ∧ ∀ x, x ∈ handed_out σ evs NewRepository →
      ∃ t th, threads (run σ evs NewRepository) !! t = Some th
              ∧ has_id σ th ∧ currentCounter th = x.
Proof.
  induction evs as [|e evs IH] using rev_ind; intros Hb.
  - split; [constructor|]. simpl. by intros x ?%elem_of_nil.
  - rewrite length_app in Hb; simpl in Hb.
    destruct IH as [IHs IHh]; [lia|].
    destruct (ids_run σ evs) as [[Hc Hle Hpend Hinj] Hcnt]; [lia|].
    rewrite handed_out_snoc, run_snoc.
    set (s := run σ evs NewRepository) in *.
    assert (∀ x, x ∈ handed_out σ evs NewRepository →
              ∃ t th, threads (exec_or_stay σ s e) !! t = Some th
                      ∧ has_id σ th ∧ currentCounter th = x) as Hold.
    { intros x (t & th & Hth & Hid & <-)%IHh.
      destruct (has_id_kept σ s e t th Hth Hid) as (th' & ? & ? & ?). eauto. }
    destruct (allocated σ s e) as [x|] eqn:Ea; simpl;
      [|rewrite app_nil_r; by split].
    destruct e as [h|t o]; simpl in Ea; [done|].
    destruct (threads s !! t) as [th|] eqn:Eth; simpl in Ea; [|done].
    destruct (next_instr σ th) as [i|] eqn:Ei; simpl in Ea; [|done].
    destruct (is_alloc i) eqn:Eal; [|done].
    apply fmap_Some in Ea as (th' & Hth' & ->).
    assert (exec_instr i t o th s = Some (exec_or_stay σ s (Run t o))) as Hex.
    { unfold exec_or_stay; simpl. rewrite Eth, Ei. by destruct i. }
    destruct (executed_step _ _ _ _ _ _ _ _ Hex Eth Ei Hth') as [_ Hx].
    destruct (exec_instr_locals _ _ _ _ _ _ _ Hex Eth Hth') as (_ & Hcc & _).
    assert (has_id σ th') as Hid'.
    { destruct Hx as [Hx|[_ Hl]]; [|by destruct i].
      unfold has_id. rewrite Hx, !elem_of_app, !list_elem_of_singleton.
      destruct i; try done; auto. }
    split.
    + apply StronglySorted_app; split; [|split; [done|repeat constructor]].
      intros y x Hy Hx'. apply list_elem_of_singleton in Hx' as ->.
      destruct (IHh _ Hy) as (t0 & th0 & Hth0 & Hid0 & <-).
      rewrite Hcc. pose proof (Hle _ _ Hth0 Hid0).
      destruct i; try done.
      * destruct (Hpend _ _ Eth Ei) as [_ Hlt]. by eapply Hlt.
      * rewrite wrap_succ by lia. lia.
    + intros y [Hy|Hy]%elem_of_app; [by apply Hold|].
      apply list_elem_of_singleton in Hy as ->. by exists t, th'.
Qed.

(** ** Local variables of a handler *)

(** The value the CPU loop leaves in [result]: [0 + 1 + ... + 999999]. *)
Definition cpu_result : Z := 499999500000%Z.

Record local_ok (σ : strategy) (th : thread) : Prop := {
  local_key : ISprintfKey ∈ executed σ th →
    key th = request_key (currentCounter th);
  local_result : ICpuNext ∈ executed σ th → result th = cpu_result;
  local_loop : next_instr σ th = Some ICpuNext →
    (0 ≤ loop_i th ≤ 1000000)%Z
    ∧ result th = (loop_i th * (loop_i th - 1) / 2)%Z
}.

Lemma cpu_init_before σ h n :
  handler σ h !! S n = Some ICpuNext → handler σ h !! n = Some ICpuInit.
Proof. by_positions σ h n done. Qed.

Lemma key_after_alloc σ h n i :
  handler σ h !! n = Some i →
  ISprintfKey ∈ take n (handler σ h) → is_alloc i = false.
Proof. by_positions σ h n (intros H; simplify_eq; decide_now). Qed.

Lemma cpu_once σ h n i :
  handler σ h !! n = Some i →
  ICpuNext ∈ take n (handler σ h) → i ≠ ICpuInit ∧ i ≠ ICpuNext.
Proof. by_positions σ h n (intros H; simplify_eq; decide_now). Qed.

Lemma triangle_succ n :
  (0 ≤ n)%Z → ((n + 1) * (n + 1 - 1) / 2 = n * (n - 1) / 2 + n)%Z.
Proof.
  intros Hn. replace ((n + 1) * (n + 1 - 1))%Z with (n * (n - 1) + n * 2)%Z by lia.
  by rewrite Z.div_add by lia.
Qed.

Lemma triangle_bound n :
  (0 ≤ n ≤ 1000000)%Z → (0 ≤ n * (n - 1) / 2 ≤ 499999500000)%Z.
Proof.
  intros Hn. split; [apply Z.div_pos; nia|].
  apply Z.div_le_upper_bound; nia.
Qed.

Lemma local_ok_step σ i t o th s s' th' :
  exec_instr i t o th s = Some s' →
  threads s !! t = Some th → next_instr σ th = Some i →
  threads s' !! t = Some th' →
  local_ok σ th → local_ok σ th'.
Proof.
  intros Hex Hth Hi Hth' [Hk Hr Hl].
  destruct (exec_instr_locals _ _ _ _ _ _ _ Hex Hth Hth') as (_ & Hcc & Hkey).
  pose proof (exec_instr_cpu _ _ _ _ _ _ _ Hex Hth Hth') as Hcpu.
  destruct (exec_instr_threads _ _ _ _ _ _ Hex) as (th'' & Hths & Hrt & Hpc).
  rewrite Hths, list_lookup_insert_eq in Hth' by (by eapply lookup_lt_Some).
  assert (th'' = th') as -> by congruence. clear Hth' Hths.
  split.
  - intros Hin.
    destruct (decide (i = ISprintfKey)) as [->|Hne]; [by rewrite Hkey, Hcc|].
    assert (ISprintfKey ∈ executed σ th) as Hin0.
    { destruct Hpc as [Hpc|[Hpc _]].
      - erewrite executed_advance in Hin by done.
        apply elem_of_app in Hin as [?|Hin]; [done|].
        by apply list_elem_of_singleton in Hin.
      - by erewrite executed_stay in Hin. }
    pose proof (key_after_alloc _ _ _ _ Hi Hin0) as Ha.
    rewrite Hcc, Hkey, (Hk Hin0). by destruct i.
  - intros Hin.
    destruct (decide (ICpuNext ∈ executed σ th)) as [Hin0|Hnin].
    + destruct (cpu_once _ _ _ _ Hi Hin0) as [? ?].
      rewrite <- (Hr Hin0). by destruct i; try done; destruct Hcpu.
    + assert (i = ICpuNext ∧ pc th' = S (pc th)) as [-> Hpc'].
      { destruct Hpc as [Hpc|[Hpc _]].
        - erewrite executed_advance in Hin by done.
          apply elem_of_app in Hin as [?|Hin]; [done|].
          by apply list_elem_of_singleton in Hin.
        - by erewrite executed_stay in Hin. }
      destruct (Hl Hi) as [Hb Hres]. simpl in Hcpu.
      destruct Hcpu as [(? & ? & _)|(? & _ & -> & _)]; [lia|].
      rewrite Hres. assert (loop_i th = 1000000)%Z as -> by lia. done.
  - intros Hn. unfold next_instr in Hn, Hi. rewrite Hrt in Hn.
    destruct Hpc as [Hpc|[Hpc _]]; rewrite Hpc in Hn.
    + apply cpu_init_before in Hn. rewrite Hn in Hi. simplify_eq.
      simpl in Hcpu. destruct Hcpu as [-> ->]. done.
    + rewrite Hn in Hi. simplify_eq. destruct (Hl Hn) as [Hb Hres].
      simpl in Hcpu. destruct Hcpu as [(? & _ & -> & ->)|(_ & ? & _)]; [|lia].
      pose proof (triangle_bound (loop_i th) Hb).
      rewrite !wrap_in_range
        by (unfold GoInt.in_range, GoInt.min_int, GoInt.max_int; lia).
      split; [lia|]. rewrite Hres. by rewrite triangle_succ by lia.
Qed.

Lemma locals_invariant σ s t th :
  reachable σ s → threads s !! t = Some th → local_ok σ th.
Proof.
  intros Hs. revert t th. pattern s. revert s Hs. apply reachable_steps.
  - intros t th Hth. simpl in Hth. by rewrite lookup_nil in Hth.
  - intros s h _ IH t th [?|[-> ->]]%lookup_new_thread; [eauto|].
    split; unfold executed; simpl; try (by intros ?%elem_of_nil).
    by destruct σ, h.
  - intros s t o th i s' _ IH Hth Hi Hex t2 th2 Hth2.
    destruct (decide (t2 = t)) as [->|Hne].
    + eapply local_ok_step; eauto.
    + rewrite (exec_instr_others _ _ _ _ _ _ t2 Hex Hne) in Hth2. eauto.
Qed.

(** ** The records of [r.data] *)

(** The goroutine has written its record. *)
Definition stored (σ : strategy) (th : thread) : Prop :=
  IStoreInt ∈ executed σ th ∨ IStoreStruct ∈ executed σ th.

Definition is_store (i : instr) : bool :=
  match i with
  | IStoreInt | IStoreStruct => true
  | _ => false
  end.

Lemma store_after_cpu σ h n i :
  handler σ h !! n = Some i → is_store i = true →
  ICpuNext ∈ take n (handler σ h).
Proof. by_positions σ h n (intros H; simplify_eq; decide_now). Qed.

Lemma store_struct_after_key σ h n :
  handler σ h !! n = Some IStoreStruct → ISprintfKey ∈ take n (handler σ h).
Proof. by_positions σ h n (intros H; simplify_eq; decide_now). Qed.

Lemma store_after_alloc σ h n i :
  handler σ h !! n = Some i →
  IStoreInt ∈ take n (handler σ h) ∨ IStoreStruct ∈ take n (handler σ h) →
  is_alloc i = false.
Proof. by_positions σ h n (intros H; simplify_eq; decide_now). Qed.

Lemma store_has_id σ h n :
  IStoreInt ∈ take n (handler σ h) ∨ IStoreStruct ∈ take n (handler σ h) →
  IReadCounter ∈ take n (handler σ h) ∨ IAtomicAdd ∈ take n (handler σ h).
Proof. by_positions σ h n decide_now. Qed.

Lemma store_once σ h n i :
  handler σ h !! n = Some i → is_store i = true →
  ¬ (IStoreInt ∈ take n (handler σ h) ∨ IStoreStruct ∈ take n (handler σ h)).
Proof. by_positions σ h n (intros H; simplify_eq; decide_now). Qed.

(** What a step does to [r.data]: only the two store statements write it. *)
Lemma rdata_step σ i t o th s s' :
  reachable σ s → threads s !! t = Some th → next_instr σ th = Some i →
  exec_instr i t o th s = Some s' →
  rdata s' =
    match i with
    | IStoreInt => <[request_key (currentCounter th) := VInt (result th)]> (rdata s)
    | IStoreStruct => <[key th := VPtr (length (structs s))]> (rdata s)
    | _ => rdata s
    end.
Proof.
  intros Hs Hth Hi Hex. pose proof (heap_invariant _ _ Hs) as [H1 H2 _ _].
  pose proof (exec_instr_store _ _ _ _ _ _ Hex) as Hst.
  destruct (maps s !! 0%nat) as [m|] eqn:Em;
    [|apply lookup_ge_None in Em; lia].
  assert (∀ f, default ∅ (alter f 0%nat (maps s) !! 0%nat) = f (rdata s)) as Hw.
  { intros f. unfold rdata. rewrite list_lookup_alter, Em. by case_decide. }
  unfold rdata at 1.
  destruct i; simpl in Hst; try (destruct Hst as [-> _]; done).
  - destruct Hst as [-> _]. by rewrite lookup_app_l by done.
  - assert (dataCopy th ≠ 0%nat) as Hne.
    { assert (IMakeCopy ∈ executed σ th) as Hmk by (by eapply range_after_make).
      pose proof (H2 _ _ Hth Hmk). lia. }
    destruct Hst as [[-> _]|(k & v & _ & Hst)]; [done|]. destruct deep.
    + destruct Hst as (p & d & _ & _ & _ & ->).
      by rewrite list_lookup_alter_ne by done.
    + destruct Hst as [_ ->]. by rewrite list_lookup_alter_ne by done.
  - destruct Hst as [_ ->]. apply Hw.
  - destruct Hst as [_ ->]. apply Hw.
Qed.

Lemma rdata_dom_step σ s e s' :
  reachable σ s → exec σ e s = Some s' → dom (rdata s) ⊆ dom (rdata s').
Proof.
  intros Hs He. destruct e as [h|t o]; simpl in He.
  - by simplify_eq.
  - destruct (threads s !! t) as [th|] eqn:Eth; [|done].
    destruct (next_instr σ th) as [i|] eqn:Ei; [|done].
    rewrite (rdata_step _ _ _ _ _ _ _ Hs Eth Ei He).
    destruct i; try done; rewrite dom_insert_L; set_solver.
Qed.

(** The key set of [r.data] only grows along a schedule. *)
Lemma rdata_dom_run σ evs s :
  reachable σ s → dom (rdata s) ⊆ dom (rdata (run σ evs s)).
Proof.
  revert s. induction evs as [|e evs IH]; intros s Hs; simpl; [done|].
  etransitivity; [|apply IH; by apply exec_or_stay_reachable].
  unfold exec_or_stay. destruct (exec σ e s) as [s'|] eqn:E; simpl; [|done].
  by eapply rdata_dom_step.
Qed.

(** A goroutine keeps what it has done, and its id once it has one. *)
Lemma executed_kept σ s e s' t th :
  exec σ e s = Some s' → threads s !! t = Some th →
  ∃ th', threads s' !! t = Some th'
    ∧ (∀ j, j ∈ executed σ th → j ∈ executed σ th')
    ∧ (currentCounter th' = currentCounter th
       ∨ ∃ i, next_instr σ th = Some i ∧ is_alloc i = true).
Proof.
  intros E Hth. destruct e as [h|t2 o]; simpl in E.
  - simplify_eq. exists th. split; [by apply lookup_app_l_Some|]. auto.
  - destruct (threads s !! t2) as [th2|] eqn:Eth2; [|done].
    destruct (next_instr σ th2) as [i|] eqn:Ei; [|done].
    destruct (decide (t = t2)) as [->|Hne].
    + assert (th2 = th) as -> by congruence.
      destruct (exec_instr_self _ _ _ _ _ _ E Hth) as [th' Hth'].
      exists th'. split; [done|].
      destruct (executed_step _ _ _ _ _ _ _ _ E Hth Ei Hth') as [_ Hx].
      destruct (exec_instr_locals _ _ _ _ _ _ _ E Hth Hth') as (_ & Hcc & _).
      split.
      * intros j Hj. destruct Hx as [->|[-> _]]; [|done].
        apply elem_of_app. by left.
      * destruct (is_alloc i) eqn:Ea; [right; eauto|left].
        rewrite Hcc. by destruct i.
    + exists th. rewrite (exec_instr_others _ _ _ _ _ _ t E Hne). auto.
Qed.

Lemma stored_kept σ s e s' t th :
  exec σ e s = Some s' → threads s !! t = Some th → stored σ th →
  ∃ th', threads s' !! t = Some th' ∧ stored σ th'
         ∧ currentCounter th' = currentCounter th.
Proof.
  intros E Hth Hst.
  destruct (executed_kept _ _ _ _ _ _ E Hth) as (th' & Hth' & Hk & Hcc).
  exists th'. split; [done|]. split.
  - destruct Hst; [left|right]; auto.
  - destruct Hcc as [?|(i & Hi & Ha)]; [done|].
    by rewrite (store_after_alloc _ _ _ _ Hi Hst) in Ha.
Qed.

(** A record as the handlers write it: the loop's result in the bad
    server; in the two others a [DataStruct] named after its key. *)
Definition record_ok (D : list DataStruct) (k : string) (id : Z) (v : value) : Prop :=
  match v with
  | VInt n => n = cpu_result
  | VPtr p =>
      ∃ d, D !! p = Some d ∧ Identifier d = k ∧ Name d = request_name id
           ∧ IsActive d = true ∧ Counter d = cpu_result
  end.

Record records_inv (σ : strategy) (s : state) : Prop := {
  rec_sound : ∀ k v, rdata s !! k = Some v →
    ∃ t th, threads s !! t = Some th ∧ stored σ th
            ∧ k = request_key (currentCounter th)
            ∧ record_ok (structs s) k (currentCounter th) v;
  rec_complete : ∀ t th,
    threads s !! t = Some th → stored σ th →
    request_key (currentCounter th) ∈ dom (rdata s)
}.

Lemma record_ok_app D ds k id v :
  record_ok D k id v → record_ok (D ++ ds) k id v.
Proof.
  destruct v as [n|p]; simpl; [done|].
  intros (d & Hd & ?). exists d. split; [by apply lookup_app_l_Some|done].
Qed.

Lemma exec_structs σ e s s' :
  exec σ e s = Some s' → ∃ ds, structs s' = structs s ++ ds.
Proof.
  intros E. destruct e as [h|t o]; simpl in E.
  - simplify_eq. exists []. by rewrite app_nil_r.
  - destruct (threads s !! t) as [th|] eqn:Eth; [|done].
    destruct (next_instr σ th) as [i|] eqn:Ei; [|done].
    by eapply exec_instr_structs.
Qed.

(** The goroutine that runs a store statement, after it. *)
Lemma store_step σ i t o th s s' :
  exec_instr i t o th s = Some s' →
  threads s !! t = Some th → next_instr σ th = Some i → is_store i = true →
  ∃ th', threads s' !! t = Some th' ∧ stored σ th'
         ∧ currentCounter th' = currentCounter th.
Proof.
  intros Hex Hth Hi Hst.
  destruct (exec_instr_self _ _ _ _ _ _ Hex Hth) as [th' Hth'].
  exists th'. split; [done|].
  destruct (executed_step _ _ _ _ _ _ _ _ Hex Hth Hi Hth') as [_ Hx].
  destruct (exec_instr_locals _ _ _ _ _ _ _ Hex Hth Hth') as (_ & Hcc & _).
  split.
  - destruct Hx as [Hx|[_ Hl]]; [|by destruct i].
    unfold stored. rewrite Hx, !elem_of_app, !list_elem_of_singleton.
    destruct i; try done; auto.
  - rewrite Hcc. by destruct i.
Qed.

Lemma records_invariant σ s : reachable σ s → records_inv σ s.
Proof.
  induction 1 as [|s e s' Hs [Hsound Hcomp] He].
  { split.
    - intros k v Hkv. unfold rdata in Hkv; simpl in Hkv.
      by rewrite lookup_empty in Hkv.
    - intros t th Hth. simpl in Hth. by rewrite lookup_nil in Hth. }
  destruct (exec_structs _ _ _ _ He) as [ds Hds].
  pose proof (rdata_dom_step _ _ _ _ Hs He) as Hdom.
  assert (∀ k v, rdata s !! k = Some v →
            ∃ t th, threads s' !! t = Some th ∧ stored σ th
                    ∧ k = request_key (currentCounter th)
                    ∧ record_ok (structs s') k (currentCounter th) v) as Hold.
  { intros k v Hkv. destruct (Hsound _ _ Hkv) as (t & th & Hth & Hst & -> & Hok).
    destruct (stored_kept _ _ _ _ _ _ He Hth Hst) as (th' & ? & ? & Hcc).
    exists t, th'. rewrite Hcc, Hds. split; [done|]. split; [done|].
    split; [done|]. by apply record_ok_app. }
  destruct e as [h|t o]; simpl in He.
  { simplify_eq. split; [done|].
    intros t th [?|[-> ->]]%lookup_new_thread Hst; [by apply (Hcomp t th)|].
    unfold stored, executed in Hst; simpl in Hst.
    destruct Hst as [?%elem_of_nil|?%elem_of_nil]; done. }
  destruct (threads s !! t) as [th|] eqn:Eth; [|done].
  destruct (next_instr σ th) as [i|] eqn:Ei; [|done].
  pose proof (rdata_step _ _ _ _ _ _ _ Hs Eth Ei He) as Hrd.
  pose proof (locals_invariant _ _ _ _ Hs Eth) as [Lk Lr _].
  pose proof (exec_instr_store _ _ _ _ _ _ He) as Hst.
  split.
  - intros k v Hkv. rewrite Hrd in Hkv.
    destruct (is_store i) eqn:Eis; [|destruct i; try done; by apply Hold].
    destruct (store_step _ _ _ _ _ _ _ He Eth Ei Eis) as (th' & Hth' & Hst' & Hcc).
    pose proof (Lr (store_after_cpu _ _ _ _ Ei Eis)) as Hres.
    destruct i; try done.
    + apply lookup_insert_Some in Hkv as [[<- <-]|[_ Hkv]]; [|by apply Hold].
      exists t, th'. rewrite Hcc. by simpl.
    + pose proof (Lk (store_struct_after_key _ _ _ Ei)) as Hkey.
      apply lookup_insert_Some in Hkv as [[<- <-]|[_ Hkv]]; [|by apply Hold].
      exists t, th'. rewrite Hcc. split; [done|]. split; [done|].
      split; [done|]. simpl in Hst. destruct Hst as [-> _].
      eexists. split; [apply list_lookup_middle; done|]. by simpl.
  - intros t2 th2 Hth2 Hst2.
    destruct (step_thread _ _ _ _ _ _ _ _ _ He Eth Ei Hth2) as [[Hne Hold2]|[-> _]].
    { apply Hdom. by apply (Hcomp t2 th2). }
    destruct (exec_instr_locals _ _ _ _ _ _ _ He Eth Hth2) as (_ & Hcc & _).
    destruct (decide (stored σ th)) as [Hst0|Hnst].
    + apply Hdom. pose proof (store_after_alloc _ _ _ _ Ei Hst0) as Ha.
      replace (currentCounter th2) with (currentCounter th)
        by (rewrite Hcc; by destruct i).
      by apply (Hcomp t th).
    + assert (is_store i = true) as Eis.
      { destruct Hst2 as [Hj|Hj];
          destruct (executed_mono _ _ _ _ _ _ _ _ _ He Eth Ei Hth2 Hj) as [?|<-];
          try done; exfalso; apply Hnst; [by left|by right]. }
      rewrite Hrd, Hcc.
      destruct i; try done; rewrite dom_insert_L.
      * apply elem_of_union. left. by apply elem_of_singleton.
      * rewrite (Lk (store_struct_after_key _ _ _ Ei)).
        apply elem_of_union. left. by apply elem_of_singleton.
Qed.

(** ** Counting the records *)

Global Instance stored_dec σ th : Decision (stored σ th).
Proof. unfold stored. apply _. Defined.

(** The number of goroutines that have written their record. *)
Definition stored_count (σ : strategy) (s : state) : nat :=
  length (filter (stored σ) (threads s)).

Lemma count_insert {A} (P : A → Prop) `{!∀ x, Decision (P x)}
    (l : list A) t x y :
  l !! t = Some x →
  (length (filter P (<[t := y]> l)) + (if decide (P x) then 1 else 0)
   = length (filter P l) + (if decide (P y) then 1 else 0))%nat.
Proof.
  revert t. induction l as [|a l IH]; intros [|t] Hl; simpl in *; simplify_eq.
  - rewrite !filter_cons.
    destruct (decide (P x)), (decide (P y)); simpl; lia.
  - specialize (IH t Hl). rewrite !filter_cons.
    destruct (decide (P a)), (decide (P x)), (decide (P y)); simpl in *; lia.
Qed.

Lemma store_needs_id σ h n i :
  handler σ h !! n = Some i → is_store i = true →
  IReadCounter ∈ take n (handler σ h) ∨ IAtomicAdd ∈ take n (handler σ h).
Proof. by_positions σ h n (intros H; simplify_eq; decide_now). Qed.

Lemma request_key_inj : Inj (=) (=) request_key.
Proof.
  intros a b H. unfold request_key in H.
  apply (inj (String.app "request_")) in H. by apply (inj pretty) in H.
Qed.

(** With distinct ids, the key a store statement is about to write is not
    in [r.data] yet. *)
Lemma store_key_fresh σ i t th s :
  reachable σ s → ids_inv σ s →
  threads s !! t = Some th → next_instr σ th = Some i → is_store i = true →
  request_key (currentCounter th) ∉ dom (rdata s).
Proof.
  intros Hs Hids Hth Hi His Hin.
  apply elem_of_dom in Hin as [v Hv].
  destruct (rec_sound _ _ (records_invariant _ _ Hs) _ _ Hv)
    as (t0 & th0 & Hth0 & Hst0 & Hk & _).
  apply request_key_inj in Hk.
  assert (t = t0) as ->.
  { eapply (ids_inj _ _ Hids); eauto.
    - by eapply store_needs_id.
    - by apply store_has_id. }
  assert (th0 = th) as -> by congruence.
  by eapply store_once.
Qed.

Lemma stored_count_run σ evs :
  (Z.of_nat (length evs) ≤ GoInt.max_int)%Z →
  size (rdata (run σ evs NewRepository))
  = stored_count σ (run σ evs NewRepository).
Proof.
  induction evs as [|e evs IH] using rev_ind; intros Hb; [done|].
  rewrite length_app in Hb; simpl in Hb. rewrite run_snoc.
  destruct (ids_run σ evs) as [Hids _]; [lia|].
  pose proof (run_reachable_init σ evs) as Hs.
  specialize (IH ltac:(lia)). set (s := run σ evs NewRepository) in *.
  unfold exec_or_stay. destruct (exec σ e s) as [s'|] eqn:E; simpl; [|done].
  destruct e as [h|t o]; simpl in E.
  { simplify_eq. unfold stored_count in *; simpl.
    rewrite filter_app, length_app, filter_cons_False; [simpl; unfold rdata in *; simpl; lia|].
    unfold stored, executed; simpl. intros [?%elem_of_nil|?%elem_of_nil]; done. }
  destruct (threads s !! t) as [th|] eqn:Eth; [|done].
  destruct (next_instr σ th) as [i|] eqn:Ei; [|done].
  destruct (exec_instr_threads _ _ _ _ _ _ E) as (th' & Hths & _).
  assert (threads s' !! t = Some th') as Hth'.
  { rewrite Hths. apply list_lookup_insert_eq. by eapply lookup_lt_Some. }
  pose proof (count_insert (stored σ) (threads s) t th th' Eth) as Hcount.
  rewrite <- Hths in Hcount. fold (stored_count σ s') in Hcount.
  fold (stored_count σ s) in Hcount.
  rewrite (rdata_step _ _ _ _ _ _ _ Hs Eth Ei E).
  destruct (is_store i) eqn:Eis.
  - pose proof (store_key_fresh _ _ _ _ _ Hs Hids Eth Ei Eis) as Hfresh.
    destruct (store_step _ _ _ _ _ _ _ E Eth Ei Eis) as (th'' & Hth'' & Hst' & _).
    assert (th'' = th') as -> by congruence.
    pose proof (store_once _ _ _ _ Ei Eis) as Hnst.
    rewrite (decide_True (P := stored σ th')) in Hcount by done.
    rewrite (decide_False (P := stored σ th)) in Hcount by done.
    assert (key th = request_key (currentCounter th) ∨ i = IStoreInt) as Hkey.
    { destruct i; try done; [by right|left].
      apply (local_key _ _ (locals_invariant _ _ _ _ Hs Eth)).
      by apply store_struct_after_key. }
    destruct i; try done; rewrite map_size_insert_None; try lia.
    + by apply not_elem_of_dom.
    + destruct Hkey as [->|?]; [|done]. by apply not_elem_of_dom.
  - assert (stored σ th' ↔ stored σ th) as Hiff.
    { split.
      - intros [Hj|Hj];
          destruct (executed_mono _ _ _ _ _ _ _ _ _ E Eth Ei Hth' Hj) as [?|<-];
          try done; [by left|by right].
      - destruct (executed_step _ _ _ _ _ _ _ _ E Eth Ei Hth') as [_ [Hx|[Hx _]]];
          unfold stored; rewrite Hx, ?elem_of_app; tauto. }
    assert (stored_count σ s' = stored_count σ s) as ->.
    { destruct (decide (stored σ th)), (decide (stored σ th')); try tauto; lia. }
    by destruct i.
Qed.

(** ** Running the CPU loop to its end *)

Lemma thread_eta th :
  with_loop_i (loop_i th) (with_result (result th) th) = th.
Proof. by destruct th. Qed.

Lemma put_thread_id t th s : threads s !! t = Some th → put_thread t th s = s.
Proof.
  intros H. destruct s as [m c M D T R]; unfold put_thread; simpl in *.
  by rewrite list_insert_id.
Qed.

Lemma put_thread_twice t th1 th2 s :
  put_thread t th2 (put_thread t th1 s) = put_thread t th2 s.
Proof.
  unfold put_thread; simpl. by rewrite list_insert_insert_eq.
Qed.

(** [n] more iterations of the loop of goroutine [t], nothing else running
    in between. *)
Lemma cpu_loop_run σ t o (n : nat) s th :
  threads s !! t = Some th → next_instr σ th = Some ICpuNext →
  (0 ≤ loop_i th)%Z → (loop_i th + Z.of_nat n ≤ 1000000)%Z →
  result th = (loop_i th * (loop_i th - 1) / 2)%Z →
  run σ (repeat (Run t o) n) s
  = put_thread t
      (with_loop_i (loop_i th + Z.of_nat n)
         (with_result ((loop_i th + Z.of_nat n) * (loop_i th + Z.of_nat n - 1) / 2)
            th)) s.
Proof.
  revert s th. induction n as [|n IH]; intros s th Hth Hi H0 Hn Hres.
  - simpl. rewrite Z.add_0_r, <- Hres, thread_eta. by rewrite put_thread_id.
  - simpl. unfold exec_or_stay at 1; simpl. rewrite Hth, Hi; simpl.
    assert ((loop_i th <? 1000000)%Z = true) as -> by lia. simpl.
    pose proof (triangle_bound (loop_i th) ltac:(lia)).
    rewrite !wrap_in_range
      by (unfold GoInt.in_range, GoInt.min_int, GoInt.max_int; lia).
    set (th1 := with_loop_i (loop_i th + 1)
                  (with_result (result th + loop_i th) th)).
    rewrite (IH (put_thread t th1 s) th1).
    + rewrite put_thread_twice, Nat2Z.inj_succ.
      replace (loop_i th + Z.succ (Z.of_nat n))%Z
        with (loop_i th + 1 + Z.of_nat n)%Z by lia.
      done.
    + simpl. apply list_lookup_insert_eq. by eapply lookup_lt_Some.
    + done.
    + simpl. lia.
    + simpl. lia.
    + subst th1; simpl. rewrite Hres. by rewrite triangle_succ by lia.
Qed.

(** ** Running a schedule through the CPU loop *)

(** The million iterations of the CPU loop of goroutine [t], one after the
    other. *)
Definition cpu_loop (t : nat) (o : oracle) : list event :=
  repeat (Run t o) (Z.to_nat 1000000).

(** A schedule in pieces: some events, or the whole CPU loop of a
    goroutine. *)
Inductive phase :=
  | Steps (evs : list event)
  | Loop (t : nat) (o : oracle).

Definition events_of (p : phase) : list event :=
  match p with
  | Steps evs => evs
  | Loop t o => cpu_loop t o
  end.

Definition schedule (ps : list phase) : list event :=
  concat (events_of <$> ps).

Definition phase_length (p : phase) : Z :=
  match p with
  | Steps evs => Z.of_nat (length evs)
  | Loop _ _ => 1000000
  end.

(** Where goroutine [t] is when it has run its whole loop, if it stands at
    the start of it. *)
Definition loop_end (σ : strategy) (t : nat) (s : state) : option state :=
  match threads s !! t with
  | Some th =>
      if bool_decide (next_instr σ th = Some ICpuNext
                      ∧ loop_i th = 0%Z ∧ result th = 0%Z)
      then Some (put_thread t (with_loop_i 1000000
                                 (with_result cpu_result th)) s)
      else None
  | None => None
  end.

Definition run_phase (σ : strategy) (s : state) (p : phase) : option state :=
  match p with
  | Steps evs => Some (run σ evs s)
  | Loop t o => loop_end σ t s
  end.

Fixpoint run_phases (σ : strategy) (ps : list phase) (s : state) : option state :=
  match ps with
  | [] => Some s
  | p :: ps => s' ← run_phase σ s p; run_phases σ ps s'
  end.

Lemma loop_end_run σ t o s s' :
  loop_end σ t s = Some s' → run σ (cpu_loop t o) s = s'.
Proof.
  unfold loop_end. destruct (threads s !! t) as [th|] eqn:Hth; [|intros [=]].
  case_bool_decide as H; [|intros [=]].
  destruct H as (Hi & Hl & Hr). intros [= <-].
  unfold cpu_loop.
  assert (∃ n : nat, Z.to_nat 1000000 = n ∧ Z.of_nat n = 1000000%Z)
    as (n & -> & Hn) by (eexists; split; [reflexivity|by apply Z2Nat.id]).
  rewrite (cpu_loop_run σ t o n s th Hth Hi); rewrite ?Hl, ?Hr, ?Hn; done.
Qed.

Lemma run_phases_run σ ps : ∀ s s',
  run_phases σ ps s = Some s' → run σ (schedule ps) s = s'.
Proof.
  induction ps as [|p ps IH]; intros s s'; cbn [run_phases].
  - intros [= <-]. reflexivity.
  - destruct (run_phase σ s p) as [s1|] eqn:E; cbn [mbind option_bind];
      [|intros [=]].
    intros Hps. unfold schedule. rewrite fmap_cons. cbn [concat].
    rewrite run_app.
    assert (run σ (events_of p) s = s1) as ->.
    { destruct p as [evs|t o]; cbn [run_phase events_of] in *.
      - injection E as <-. reflexivity.
      - exact (loop_end_run σ t o s s1 E). }
    exact (IH s1 s' Hps).
Qed.

Lemma schedule_length ps :
  Z.of_nat (length (schedule ps)) = foldr Z.add 0%Z (phase_length <$> ps).
Proof.
  induction ps as [|p ps IH]; [done|].
  unfold schedule in *. rewrite !fmap_cons. cbn [concat foldr].
  rewrite length_app, Nat2Z.inj_add, IH.
  f_equal. destruct p as [evs|t o]; cbn [events_of phase_length]; [done|].
  unfold cpu_loop. rewrite repeat_length. lia.
Qed.

(** The state after a schedule given in pieces. *)
Lemma run_schedule σ ps s :
  is_Some (run_phases σ ps s) →
  run σ (schedule ps) s = default s (run_phases σ ps s).
Proof.
  intros [s' Hs']. rewrite Hs'. exact (run_phases_run σ ps s s' Hs').
Qed.

Lemma run_schedule_app σ ps1 ps2 s :
  run σ (schedule ps2) (run σ (schedule ps1) s)
  = run σ (schedule (ps1 ++ ps2)) s.
Proof. unfold schedule. by rewrite fmap_app, concat_app, run_app. Qed.

(** On the good server: a first request is served alone to its end. *)
Definition first_served : list phase :=
  [ Steps (Request Process :: repeat (Run 0 (mkOracle 7 "")) 10);
    Loop 0 (mkOracle 7 "");
    Steps (repeat (Run 0 (mkOracle 7 "")) 6) ].

(** Then two more requests come; the second request takes its snapshot,
    unlocks the mutex and starts to sleep. *)
Definition snapshot_taken : list phase :=
  first_served
  ++ [ Steps ([Request Process; Request Process]
              ++ repeat (Run 1 (mkOracle 8 "request_1")) 9) ].

(** Meanwhile the third request is served to its end: it stores its
    record in [r.data]. *)
Definition later_write : list phase :=
  [ Steps (repeat (Run 2 (mkOracle 9 "request_1")) 11);
    Loop 2 (mkOracle 9 "request_1");
    Steps (repeat (Run 2 (mkOracle 9 "request_1")) 6) ].

(** ** Claims *)

Lemma StronglySorted_lt_NoDup (l : list Z) : StronglySorted Z.lt l → NoDup l.
Proof.
  induction 1 as [|x l _ IH Hx]; constructor; [|done].
  intros Hin. rewrite Forall_forall in Hx. specialize (Hx _ Hin). lia.
Qed.

(** C1. Along every schedule of requests and handler steps (of fewer than
    [2^63] events, so that the 64-bit counter has not wrapped), on each of
    the three servers, the request ids are handed out in strictly
    increasing order, hence pairwise distinct, and the key set of [r.data]
    at any earlier point of the schedule is contained in the key set at
    the end: no key is ever removed. *)
Theorem ids_increase_and_keys_stay σ evs :
  (Z.of_nat (length evs) ≤ GoInt.max_int)%Z →
  StronglySorted Z.lt (handed_out σ evs NewRepository)
  ∧ NoDup (handed_out σ evs NewRepository)
  ∧ ∀ evs1 evs2, evs = evs1 ++ evs2 →
      dom (rdata (run σ evs1 NewRepository))
      ⊆ dom (rdata (run σ evs NewRepository)).
Proof.
  intros Hb. destruct (handed_out_sorted σ evs Hb) as [Hs _].
  split; [done|]. split; [by apply StronglySorted_lt_NoDup|].
  intros evs1 evs2 ->. rewrite run_app.
  apply rdata_dom_run, run_reachable_init.
Qed.

(** C2. Once a handler has left its copy loop, its snapshot [dataCopy] is
    a map object of its own (not [r.data]), no [DataStruct] it points to is
    pointed to by [r.data], and whatever any handler does afterwards, on
    any key, the snapshot holds the same keys with the same contents. *)
Theorem snapshot_isolated σ evs evs' t th :
  threads (run σ evs NewRepository) !! t = Some th →
  snapshot_done σ th →
  dataCopy th ≠ 0%nat
  ∧ (∀ m k k' p,
       maps (run σ evs NewRepository) !! dataCopy th = Some m →
       m !! k = Some (VPtr p) →
       rdata (run σ evs NewRepository) !! k' ≠ Some (VPtr p))
  ∧ ∃ th', threads (run σ evs' (run σ evs NewRepository)) !! t = Some th'
           ∧ dataCopy th' = dataCopy th
           ∧ snapshot (run σ evs' (run σ evs NewRepository)) th'
             = snapshot (run σ evs NewRepository) th.
Proof.
  intros Hth Hd. pose proof (run_reachable_init σ evs) as Hs.
  pose proof (heap_invariant _ _ Hs) as [H1 H2 H3 H4].
  assert (0 < dataCopy th) as Hpos.
  { destruct Hd as [d Hd]. apply (H2 t th Hth). by eapply make_before_range. }
  split; [lia|]. split.
  - intros m k k' p Hm Hk Hk'.
    apply rdata_lookup in Hk' as (m0 & Hm0 & Hk0).
    destruct (ptrs_inj _ _ _ H4 _ _ _ _ _ _ _ Hm Hm0 Hk Hk0). lia.
  - destruct (snapshot_run σ evs' _ t th Hs Hth Hd) as (th' & ? & _ & ? & ?).
    by exists th'.
Qed.

(** The part of [BadHandler] between its [Lock] and the deferred
    [Unlock]. *)
Definition bad_body : list instr :=
  [ IIncr; IReadCounter; IMakeCopy; IRangeBegin; IRangeNext false;
    ISleep; ICpuInit; ICpuNext; IStoreInt; IRespond "bad_defer" ].

Lemma bad_body_locked th i :
  th_route th = Process → next_instr HeldLock th = Some i →
  i ∈ bad_body ∨ i = IUnlock → holds_lock HeldLock th = true.
Proof.
  unfold next_instr, holds_lock, executed. intros -> Hi Hin.
  destruct th as [r n ? ? ? ? ? ? ? ? ? ?]; simpl in *.
  do 14 (destruct n as [|n]; [simpl in *; simplify_eq; try done;
         exfalso; revert Hin; apply (bool_decide_unpack (¬ _)); vm_compute; exact I|]).
  done.
Qed.

(** C3. In the bad server the mutex is taken by the first statement after
    the clock is read and released by the last one, the deferred [Unlock];
    every statement in between (id allocation, copy, sleep, CPU loop, final
    write, response) runs with the mutex locked and held by the goroutine
    that runs it; and on every schedule, whatever the number of requests, at
    most one goroutine is between its [Lock] and its return. *)
Theorem held_lock_serialises evs :
  BadHandler = [ITimeNow; ILock] ++ bad_body ++ [IUnlock]
  ∧ Forall (λ i, i ≠ ILock ∧ i ≠ IUnlock) bad_body
  ∧ (∀ t th i,
       threads (run HeldLock evs NewRepository) !! t = Some th →
       th_route th = Process → next_instr HeldLock th = Some i →
       i ∈ bad_body →
       holds_lock HeldLock th = true
       ∧ mu (run HeldLock evs NewRepository) = true)
  ∧ (∀ t1 t2 th1 th2,
       threads (run HeldLock evs NewRepository) !! t1 = Some th1 →
       threads (run HeldLock evs NewRepository) !! t2 = Some th2 →
       th_route th1 = Process → th_route th2 = Process →
       2 ≤ pc th1 < length BadHandler → 2 ≤ pc th2 < length BadHandler →
       t1 = t2).
Proof.
  pose proof (mutex_invariant _ _ (run_reachable_init HeldLock evs)) as [M1 M2 _].
  split; [done|]. split; [by repeat constructor|]. split.
  - intros t th i Hth Hr Hi Hin.
    assert (holds_lock HeldLock th = true) as Hl
      by (eapply bad_body_locked; eauto).
    split; [done|]. by eapply M1.
  - intros t1 t2 th1 th2 Hth1 Hth2 Hr1 Hr2 Hpc1 Hpc2.
    assert (∀ th, th_route th = Process → 2 ≤ pc th < length BadHandler →
              holds_lock HeldLock th = true) as Hin.
    { intros th Hr Hpc.
      destruct (lookup_lt_is_Some_2 BadHandler (pc th)) as [i Hi]; [lia|].
      apply (bad_body_locked th i Hr); [by unfold next_instr; rewrite Hr|].
      unfold BadHandler in *; simpl in Hpc.
      destruct (pc th) as [|[|n]]; [lia..|].
      simpl in Hi. apply list_elem_of_lookup_2 in Hi.
      change (i ∈ bad_body ++ [IUnlock]) in Hi.
      apply elem_of_app in Hi as [?|Hi]; [by left|right].
      by apply list_elem_of_singleton in Hi. }
    eapply M2; eauto.
Qed.

(** The claim of the specification on I/O: whenever a goroutine is about to
    write to the client, it does not hold the mutex. *)
Definition no_io_under_lock (σ : strategy) : Prop :=
  ∀ evs t th i,
    threads (run σ evs NewRepository) !! t = Some th →
    next_instr σ th = Some i → is_io i = true →
    holds_lock σ th = false.

(** One request served by the bad server, alone, up to the statement that
    writes the response: nine statements up to the CPU loop, the million
    iterations, the exit of the loop and the final write. *)
Definition bad_schedule : list event :=
  (Request Process :: repeat (Run 0 (mkOracle 0 "")) 9)
  ++ repeat (Run 0 (mkOracle 0 "")) (Z.to_nat 1000000)
  ++ [Run 0 (mkOracle 0 ""); Run 0 (mkOracle 0 "")].

Lemma bad_schedule_state :
  threads (run HeldLock bad_schedule NewRepository) !! 0%nat
    = Some (mkThread Process 11 0 1 1 ∅ ∅ 499999500000 1000000 "" 0 0)
  ∧ mu (run HeldLock bad_schedule NewRepository) = true
  ∧ rdata (run HeldLock bad_schedule NewRepository) !! "request_1"
    = Some (VInt 499999500000)
  ∧ responses (run HeldLock bad_schedule NewRepository) = [].
Proof.
  unfold bad_schedule. rewrite 2!run_app.
  set (s1 := run HeldLock (Request Process :: repeat (Run 0 (mkOracle 0 "")) 9)
               NewRepository).
  set (th1 := mkThread Process 9 0 1 1 ∅ ∅ 0 0 "" 0 0).
  assert (threads s1 !! 0%nat = Some th1) as Hth1 by (vm_compute; reflexivity).
  assert (loop_i th1 + Z.of_nat (Z.to_nat 1000000) ≤ 1000000)%Z as Hn
    by (rewrite Z2Nat.id by lia; cbn [loop_i th1]; lia).
  assert (0 ≤ loop_i th1)%Z as H0 by (cbn [loop_i th1]; lia).
  pose proof (cpu_loop_run HeldLock 0 (mkOracle 0 "") (Z.to_nat 1000000)
                s1 th1 Hth1 eq_refl H0 Hn eq_refl) as Hloop.
  rewrite Hloop, Z2Nat.id by lia.
  repeat split; vm_compute; reflexivity.
Qed.

Lemma held_lock_serialises_witness :
  holds_lock HeldLock (mkThread Process 11 0 1 1 ∅ ∅ 499999500000 1000000 "" 0 0)
    = true
  ∧ mu (run HeldLock bad_schedule NewRepository) = true.
Proof.
  destruct (held_lock_serialises bad_schedule) as (_ & _ & H & _).
  destruct bad_schedule_state as (Hth & _).
  apply (H 0%nat _ (IRespond "bad_defer") Hth eq_refl eq_refl).
  apply (bool_decide_unpack _). vm_compute. exact I.
Defined.

(** C4, as stated, fails on the bad server: [BadHandler] encodes its
    response before the deferred [Unlock] has run. *)
Lemma bad_handler_responds_under_lock : ¬ (∀ σ, no_io_under_lock σ).
Proof.
  intros H. destruct bad_schedule_state as (Hth & _).
  pose proof (H HeldLock bad_schedule 0%nat _ (IRespond "bad_defer")
                Hth eq_refl eq_refl) as Hl.
  vm_compute in Hl. discriminate Hl.
Qed.

(** C4, amended. A goroutine about to write to the client does not hold
    the mutex in the good and sync.Map servers and in the stats handler of
    every server; in [BadHandler] it does: the response is written before
    the deferred [Unlock]. *)
Theorem io_and_the_lock σ evs t th i :
  threads (run σ evs NewRepository) !! t = Some th →
  next_instr σ th = Some i → is_io i = true →
  holds_lock σ th
  = (if decide (σ = HeldLock ∧ th_route th = Process) then true else false).
Proof.
  intros _. unfold next_instr, holds_lock, executed.
  destruct th as [r n ? ? ? ? ? ? ? ? ? ?]; simpl.
  destruct σ, r; simpl;
    do 18 (destruct n as [|n]; [simpl; by intros [= <-]|]); done.
Qed.

Lemma io_and_the_lock_witness :
  holds_lock MinimalLock (mkThread Stats 3 0 0 0 ∅ ∅ 0 0 "" 0 0) = false.
Proof.
  apply (io_and_the_lock MinimalLock
           [Request Stats; Run 0 (mkOracle 0 ""); Run 0 (mkOracle 0 "");
            Run 0 (mkOracle 0 "")]
           0%nat _ IRespondStats); vm_compute; reflexivity.
Defined.

(** Two requests on the good server; the second one starts while the first
    is between its two critical sections. *)
Definition two_requests : list event :=
  [Request Process; Request Process]
  ++ repeat (Run 0 (mkOracle 1 "")) 8
  ++ repeat (Run 1 (mkOracle 2 "")) 8.

Lemma ids_increase_and_keys_stay_witness :
  (Z.of_nat (length two_requests) ≤ GoInt.max_int)%Z
  ∧ handed_out MinimalLock two_requests NewRepository = [1; 2]%Z
  ∧ StronglySorted Z.lt (handed_out MinimalLock two_requests NewRepository).
Proof.
  split; [by vm_compute|]. split; [by vm_compute|].
  apply (ids_increase_and_keys_stay MinimalLock two_requests). by vm_compute.
Defined.

Lemma snapshot_isolated_witness :
  snapshot (run MinimalLock (schedule snapshot_taken) NewRepository)
    (mkThread Process 8 8 2 2 ∅ {["request_1"]} 0 0 "" 0 0)
  = {[ "request_1" := CStruct (mkDataStruct "request_1" "Request 1" true
                                 499999500000 7) ]}
  ∧ dom (rdata (run MinimalLock (schedule later_write)
                  (run MinimalLock (schedule snapshot_taken) NewRepository)))
    = {[ "request_1"; "request_3" ]}
  ∧ ∃ th', threads (run MinimalLock (schedule later_write)
                      (run MinimalLock (schedule snapshot_taken) NewRepository))
             !! 1%nat = Some th'
           ∧ dataCopy th' = 2%nat
           ∧ snapshot (run MinimalLock (schedule later_write)
                         (run MinimalLock (schedule snapshot_taken)
                            NewRepository)) th'
             = snapshot (run MinimalLock (schedule snapshot_taken) NewRepository)
                 (mkThread Process 8 8 2 2 ∅ {["request_1"]} 0 0 "" 0 0).
Proof.
  destruct (snapshot_isolated MinimalLock (schedule snapshot_taken)
              (schedule later_write) 1%nat
              (mkThread Process 8 8 2 2 ∅ {["request_1"]} 0 0 "" 0 0))
    as (_ & _ & H).
  - rewrite run_schedule by (vm_compute; eauto). vm_compute. reflexivity.
  - exists true. apply (bool_decide_unpack _). by vm_compute.
  - split; [|split; [|exact H]].
    + rewrite run_schedule by (vm_compute; eauto). vm_compute. reflexivity.
    + rewrite run_schedule_app, run_schedule by (vm_compute; eauto).
      vm_compute. reflexivity.
Defined.







(** ** One record per request, and what [/stats] reports *)

(** The goroutine has returned from its handler. *)
Definition returned (σ : strategy) (th : thread) : Prop :=
  next_instr σ th = None.

Lemma returned_stored σ th :
  returned σ th → (stored σ th ↔ th_route th = Process).
Proof.
  unfold returned, next_instr, stored, executed. intros Hr.
  apply lookup_ge_None in Hr. rewrite take_ge by done.
  destruct σ, (th_route th); simpl;
    (split; [intros H; try done; exfalso; revert H;
             apply (bool_decide_unpack (¬ _)); vm_compute; exact I
            |intros H; try done; decide_now]).
Qed.

Lemma filter_length_ext {A} (P Q : A → Prop)
    `{!∀ x, Decision (P x)} `{!∀ x, Decision (Q x)} (l : list A) :
  (∀ x, x ∈ l → (P x ↔ Q x)) →
  length (filter P l) = length (filter Q l).
Proof.
  induction l as [|a l IH]; intros Hext; [done|].
  rewrite !filter_cons.
  assert (P a ↔ Q a) as Ha by (apply Hext; left).
  specialize (IH ltac:(intros x Hx; apply Hext; by right)).
  destruct (decide (P a)), (decide (Q a)); simpl; tauto || lia.
Qed.

(** The number of requests to [/process] received so far. *)
Definition process_count (s : state) : nat :=
  length (filter (λ th, th_route th = Process) (threads s)).

Lemma quiescent_count σ s :
  (∀ t th, threads s !! t = Some th → returned σ th) →
  stored_count σ s = process_count s.
Proof.
  intros Hq. apply filter_length_ext. intros th Hth.
  apply list_elem_of_lookup in Hth as [t Hth].
  apply returned_stored. by eapply Hq.
Qed.

(** What the stats goroutine [th] has got to, when it runs alone from the
    state [s0]: [tot] and [n] are what it will report. *)
Definition stats_phase (σ : strategy) (s0 s : state) (t : nat) (th : thread) : Prop :=
  let tot := counter s0 in
  let n := Z.of_nat (size (rdata s0)) in
  let done := responses s = responses s0 ++ [(t, StatsResponse tot n)] in
  let not_yet := responses s = responses s0 in
  match σ, pc th with
  | LockFree, 0%nat => not_yet
  | LockFree, 1%nat => not_yet ∧ statsCounter th = tot
  | LockFree, 2%nat =>
      not_yet ∧ statsCounter th = tot ∧ pending th ⊆ dom (rdata s0)
      ∧ dom (rdata s0) ⊆ pending th ∪ visited th
      ∧ (0 ≤ dataSize th)%Z
      ∧ (dataSize th + Z.of_nat (size (pending th)) = n)%Z
  | LockFree, 3%nat => not_yet ∧ statsCounter th = tot ∧ dataSize th = n
  | LockFree, _ => done
  | _, 0%nat | _, 1%nat => not_yet
  | _, 2%nat | _, 3%nat => not_yet ∧ statsCounter th = tot ∧ dataSize th = n
  | _, _ => done
  end.

Record stats_inv (σ : strategy) (s0 s : state) (th : thread) : Prop := {
  stats_threads : threads s = threads s0 ++ [th];
  stats_route : th_route th = Stats;
  stats_maps : maps s = maps s0;
  stats_counter : counter s = counter s0;
  stats_at : stats_phase σ s0 s (length (threads s0)) th
}.

Lemma stats_step σ s0 s th o :
  (Z.of_nat (size (rdata s0)) ≤ GoInt.max_int)%Z →
  stats_inv σ s0 s th →
  ∃ th', stats_inv σ s0 (exec_or_stay σ s (Run (length (threads s0)) o)) th'.
Proof.
  intros Hb [Hths Hr Hm Hc Hph].
  assert (threads s !! length (threads s0) = Some th) as Hth
    by (rewrite Hths; apply list_lookup_middle; done).
  assert (∀ th', <[length (threads s0) := th']> (threads s) = threads s0 ++ [th'])
    as Hins.
  { intros th'. rewrite Hths.
    replace (length (threads s0)) with (length (threads s0) + 0)%nat at 1 by lia.
    by rewrite insert_app_r. }
  assert (rdata s = rdata s0) as Hrd by (unfold rdata; by rewrite Hm).
  unfold exec_or_stay; simpl. rewrite Hth. unfold next_instr. rewrite Hr.
  destruct th as [r n st cc dc pend vis res li ky sc ds]; simpl in *. subst r.
  destruct σ; (destruct n as [|[|[|[|n]]]]; simpl).
  all: unfold stats_phase in Hph; simpl in Hph.
  all: try solve [eexists; split; [eassumption|done|done|done|done]].
  all: try match goal with
           | |- context [if mu ?x then _ else _] => destruct (mu x); simpl
           end.
  all: try solve [eexists; split; [eassumption|done|done|done|done]].
  all: try solve
         [eexists; split; simpl; [apply Hins|done|assumption|assumption|];
          unfold stats_phase; simpl; rewrite ?Hrd, ?Hc;
          try (destruct Hph as (-> & -> & ->)); done].
  - (* sync.Map: the counting loop starts *)
    eexists; split; simpl; [apply Hins|done|assumption|assumption|].
    unfold stats_phase; simpl. destruct Hph as [-> ->].
    rewrite Hrd, size_dom. split_and!; try done.
    intros x Hx. apply elem_of_union. by left.
  - (* sync.Map: one more key counted, or the loop ends *)
    destruct Hph as (Hresp & Hsc & Hsub & Hall & H0 & Hsum).
    case_decide as Hin; simpl.
    + assert (o_key o ∈ pend) as Hk.
      { destruct Hin as [Hk|[Hk Hv]]; [done|]. simpl in Hk, Hv.
        rewrite Hrd in Hk. apply Hall, elem_of_union in Hk as [Hk|Hk]; done. }
      eexists; split; simpl; [apply Hins|done|assumption|assumption|].
      unfold stats_phase; simpl.
      assert (size (pend ∖ {[o_key o]}) + 1 = size pend)%nat as Hsz.
      { rewrite size_difference by (by apply singleton_subseteq_l).
        rewrite size_singleton.
        assert (size pend ≠ 0%nat).
        { intros ?%size_empty_inv%leibniz_equiv. subst pend.
          by apply not_elem_of_empty in Hk. }
        lia. }
      rewrite wrap_in_range
        by (unfold GoInt.in_range, GoInt.min_int, GoInt.max_int in *; lia).
      split_and!; try done; [| |lia..].
      * intros x [Hx _]%elem_of_difference. by apply Hsub.
      * intros x Hx. apply Hall, elem_of_union in Hx as [Hx|Hx].
        -- destruct (decide (x = o_key o)) as [->|Hne].
           ++ apply elem_of_union. right. apply elem_of_union. right.
              by apply elem_of_singleton.
           ++ apply elem_of_union. left. apply elem_of_difference.
              split; [done|]. by intros ?%elem_of_singleton.
        -- apply elem_of_union. right. apply elem_of_union. by left.
    + case_decide as Hemp; simpl.
      * eexists; split; simpl; [apply Hins|done|assumption|assumption|].
        unfold stats_phase; simpl. subst pend. rewrite size_empty in Hsum.
        split_and!; try done; lia.
      * eexists; split; [eassumption|done|done|done|].
        unfold stats_phase; simpl. by split_and!.
Qed.

Lemma stats_run σ s0 os :
  (Z.of_nat (size (rdata s0)) ≤ GoInt.max_int)%Z →
  ∃ th, stats_inv σ s0
          (run σ (Request Stats :: map (Run (length (threads s0))) os) s0) th.
Proof.
  intros Hb. induction os as [|o os IH] using rev_ind.
  - exists (new_thread Stats). simpl. unfold exec_or_stay; simpl.
    split; simpl; try done. by destruct σ.
  - destruct IH as [th IH].
    replace (Request Stats :: map (Run (length (threads s0))) (os ++ [o]))
      with ((Request Stats :: map (Run (length (threads s0))) os)
            ++ [Run (length (threads s0)) o])
      by (by rewrite map_app).
    rewrite run_snoc. by eapply stats_step.
Qed.

(** A request to [/stats] served alone from the state [s0]: when its
    handler has returned, it has reported the counter and the number of
    keys of [r.data]. *)
Lemma stats_alone σ s0 os th :
  (Z.of_nat (size (rdata s0)) ≤ GoInt.max_int)%Z →
  threads (run σ (Request Stats :: map (Run (length (threads s0))) os) s0)
    !! length (threads s0) = Some th →
  returned σ th →
  responses (run σ (Request Stats :: map (Run (length (threads s0))) os) s0)
  = responses s0
    ++ [(length (threads s0),
         StatsResponse (counter s0) (Z.of_nat (size (rdata s0))))].
Proof.
  intros Hb Hth Hret. destruct (stats_run σ s0 os Hb) as [th' [H1 H2 _ _ H5]].
  rewrite H1, list_lookup_middle in Hth by done. simplify_eq.
  unfold returned, next_instr in Hret. rewrite H2 in Hret.
  unfold stats_phase in H5.
  destruct th as [r n ? ? ? ? ? ? ? ? ? ?]; simpl in *. subst r.
  destruct σ; simpl in Hret;
    do 4 (destruct n as [|n]; [done|]); exact H5.
Qed.

Lemma threads_length_run σ evs s :
  length (threads (run σ evs s)) ≤ length (threads s) + length evs.
Proof.
  revert s. induction evs as [|e evs IH]; intros s; simpl; [lia|].
  etransitivity; [apply IH|].
  unfold exec_or_stay. destruct (exec σ e s) as [s'|] eqn:E; simpl; [|lia].
  destruct e as [h|t o]; simpl in E.
  - simplify_eq; simpl. rewrite length_app; simpl. lia.
  - destruct (threads s !! t) as [th|] eqn:Eth; [|done].
    destruct (next_instr σ th) as [i|] eqn:Ei; [|done].
    destruct (exec_instr_threads _ _ _ _ _ _ E) as (th' & -> & _).
    rewrite length_insert. lia.
Qed.

(** What a store statement does: one new record under the key of the
    request, holding the loop's result, in an object of its own. *)
Lemma store_writes_one_record σ i t o th s s' :
  reachable σ s → ids_inv σ s →
  threads s !! t = Some th → next_instr σ th = Some i → is_store i = true →
  exec_instr i t o th s = Some s' →
  ∃ v, rdata s' = <[request_key (currentCounter th) := v]> (rdata s)
       ∧ (request_key (currentCounter th) ∉ dom (rdata s))
       ∧ record_ok (structs s') (request_key (currentCounter th))
           (currentCounter th) v
       ∧ ∀ p l m k, v = VPtr p → maps s' !! l = Some m →
           m !! k = Some (VPtr p) →
           l = 0%nat ∧ k = request_key (currentCounter th).
Proof.
  intros Hs Hids Hth Hi His Hex.
  assert (reachable σ s') as Hs'.
  { eapply (reachable_step _ s (Run t o)); [done|]. simpl. by rewrite Hth, Hi. }
  pose proof (rdata_step _ _ _ _ _ _ _ Hs Hth Hi Hex) as Hrd.
  pose proof (locals_invariant _ _ _ _ Hs Hth) as [Lk _ _].
  assert (∃ v, rdata s' = <[request_key (currentCounter th) := v]> (rdata s))
    as [v Hv].
  { destruct i; try done; [by eexists|].
    rewrite <- (Lk (store_struct_after_key _ _ _ Hi)). by eexists. }
  exists v. split; [done|]. split; [by eapply store_key_fresh|].
  assert (rdata s' !! request_key (currentCounter th) = Some v) as Hlk
    by (rewrite Hv; apply lookup_insert_eq).
  split.
  - destruct (rec_sound _ _ (records_invariant _ _ Hs') _ _ Hlk)
      as (t0 & th0 & _ & _ & Hk & Hok).
    apply request_key_inj in Hk. by rewrite <- Hk in Hok.
  - intros p l m k -> Hm Hk.
    destruct (rdata_lookup _ _ _ Hlk) as (m0 & Hm0 & Hk0).
    pose proof (heap_invariant _ _ Hs') as [_ _ _ Hp].
    by destruct (ptrs_inj _ _ _ Hp _ _ _ _ _ _ _ Hm Hm0 Hk Hk0).
Qed.

(** * Further properties of the three servers *)

(** ** What can stop a statement *)

(** A statement waits only for the mutex or for the scheduler: a [Lock]
    needs the mutex to be free, a step of a range loop needs a key the loop
    may visit (or none left to visit). *)
Definition enabled (i : instr) (o : oracle) (th : thread) (s : state) : Prop :=
  match i with
  | ILock => mu s = false
  | IRangeNext _ | ICountNext => may_visit (o_key o) th s ∨ pending th = ∅
  | _ => True
  end.

Lemma exec_instr_enabled σ s t th i o :
  reachable σ s → threads s !! t = Some th → next_instr σ th = Some i →
  is_Some (exec_instr i t o th s) ↔ enabled i o th s.
Proof.
  intros Hs Hth Hi.
  pose proof (mutex_invariant _ _ Hs) as [M1 _ _].
  pose proof (heap_invariant _ _ Hs) as [_ _ _ Hp].
  destruct i; unfold exec_instr, enabled; try (split; [done|intros _; by eexists]).
  - destruct (mu s); split; [by intros [? ?]|done|done|intros _; by eexists].
  - assert (mu s = true) as ->; [|split; [done|intros _; by eexists]].
    apply (M1 t th Hth). by apply unlock_after_lock.
  - case_decide as Hv.
    + split; [by left|]. intros _.
      destruct (rdata s !! o_key o) as [v|] eqn:Ev; [|by eexists].
      destruct deep; [|by eexists]. destruct v as [n|p]; [by eexists|].
      apply rdata_lookup in Ev as (m & Hm & Hk).
      pose proof (ptrs_valid _ _ _ Hp _ _ _ _ Hm Hk) as Hlt.
      destruct (lookup_lt_is_Some_2 _ _ Hlt) as [d ->]. by eexists.
    + case_decide as He; split.
      * by right.
      * intros _; by eexists.
      * by intros [? ?].
      * by intros [?|?].
  - destruct (loop_i th <? 1000000)%Z; split; try done; intros _; by eexists.
  - case_decide as Hv; [split; [by left|intros _; by eexists]|].
    case_decide as He; split.
    + by right.
    + intros _; by eexists.
    + by intros [? ?].
    + by intros [?|?].
Qed.

Lemma exec_enabled σ s t th i o :
  reachable σ s → threads s !! t = Some th → next_instr σ th = Some i →
  is_Some (exec σ (Run t o) s) ↔ enabled i o th s.
Proof.
  intros Hs Hth Hi. simpl. rewrite Hth, Hi. by apply (exec_instr_enabled σ).
Qed.

(** The scheduler can always let a loop go on. *)
Lemma loop_can_go_on i th s :
  i ≠ ILock → ∃ k, enabled i (mkOracle 0 k) th s.
Proof.
  intros Hi.
  assert (∃ k, may_visit k th s ∨ pending th = ∅) as [k Hk].
  { destruct (decide (pending th = ∅)) as [He|Hne]; [exists ""; by right|].
    apply set_choose_L in Hne as [k Hk]. exists k. left. by left. }
  destruct i; try (by exists ""); by exists k.
Qed.

(** Every handler gives the mutex back before it returns. *)
Lemma returned_unlocked σ th : returned σ th → holds_lock σ th = false.
Proof.
  unfold returned, next_instr, holds_lock, executed. intros Hr.
  apply lookup_ge_None in Hr. rewrite take_ge by done.
  by destruct σ, (th_route th).
Qed.

(** X1. On each of the three servers and after any schedule, at most one
    goroutine is inside a critical section (between a [Lock] and the
    matching [Unlock], in a [/process] or a [/stats] handler), and the mutex
    is locked exactly when some goroutine is. *)
Theorem critical_sections_exclude σ evs :
  (∀ t1 t2 th1 th2,
     threads (run σ evs NewRepository) !! t1 = Some th1 →
     threads (run σ evs NewRepository) !! t2 = Some th2 →
     holds_lock σ th1 = true → holds_lock σ th2 = true → t1 = t2)
  ∧ (mu (run σ evs NewRepository) = true
     ↔ ∃ t th, threads (run σ evs NewRepository) !! t = Some th
               ∧ holds_lock σ th = true).
Proof.
  pose proof (mutex_invariant _ _ (run_reachable_init σ evs)) as [M1 M2 M3].
  split; [exact M2|]. split; [exact M3|].
  intros (t & th & Hth & Hl). by eapply M1.
Qed.

(** X2. A handler never crashes and waits only for the mutex: after any
    schedule, the next statement of a goroutine can run unless it is a
    [Lock] on a locked mutex (or a loop step for which the scheduler offers
    a key the loop may not visit). In particular an [Unlock] always finds
    the mutex locked, and the deep copy never follows a nil or dangling
    pointer. *)
Theorem statements_only_wait σ evs t th i o :
  threads (run σ evs NewRepository) !! t = Some th →
  next_instr σ th = Some i →
  (is_Some (exec σ (Run t o) (run σ evs NewRepository))
   ↔ enabled i o th (run σ evs NewRepository))
  ∧ (i = IUnlock → mu (run σ evs NewRepository) = true)
  ∧ (i ≠ ILock → ∃ k, is_Some (exec σ (Run t (mkOracle (o_now o) k))
                                  (run σ evs NewRepository))).
Proof.
  intros Hth Hi. pose proof (run_reachable_init σ evs) as Hs.
  split; [by apply exec_enabled|]. split.
  - intros ->.
    pose proof (mutex_invariant _ _ Hs) as [M1 _ _].
    apply (M1 t th Hth). by apply unlock_after_lock.
  - intros Hne. destruct (loop_can_go_on i th (run σ evs NewRepository) Hne)
      as [k Hk].
    exists k. apply (exec_enabled σ _ t th i); try done.
Qed.

Lemma statements_only_wait_witness :
  mu (run MinimalLock
        (Request Process :: repeat (Run 0 (mkOracle 0 "")) 7) NewRepository)
  = true.
Proof.
  destruct (statements_only_wait MinimalLock
              (Request Process :: repeat (Run 0 (mkOracle 0 "")) 7)
              0%nat (mkThread Process 7 0 1 1 ∅ ∅ 0 0 "" 0 0) IUnlock
              (mkOracle 0 "")) as (_ & H & _);
    [vm_compute; reflexivity|vm_compute; reflexivity|].
  by apply H.
Defined.

(** X3. No deadlock: a goroutine that has returned does not hold the
    mutex, and as long as some goroutine has not returned, some goroutine
    can run its next statement. *)
Theorem no_deadlock σ evs :
  (∀ t th, threads (run σ evs NewRepository) !! t = Some th →
           returned σ th → holds_lock σ th = false)
  ∧ ((∃ t th, threads (run σ evs NewRepository) !! t = Some th
              ∧ ¬ returned σ th) →
     ∃ t o, is_Some (exec σ (Run t o) (run σ evs NewRepository))).
Proof.
  pose proof (run_reachable_init σ evs) as Hs.
  pose proof (mutex_invariant _ _ Hs) as [M1 M2 M3].
  set (s := run σ evs NewRepository) in *.
  split; [intros t th _; apply returned_unlocked|].
  intros (t & th & Hth & Hnr).
  assert (∀ t th i, threads s !! t = Some th → next_instr σ th = Some i →
            (i = ILock → mu s = false) →
            ∃ t o, is_Some (exec σ (Run t o) s)) as Hgo.
  { intros t1 th1 i Hth1 Hi Hfree.
    destruct (decide (i = ILock)) as [->|Hne].
    - exists t1, (mkOracle 0 "").
      apply (exec_enabled σ s t1 th1 ILock); try done. by apply Hfree.
    - destruct (loop_can_go_on i th1 s Hne) as [k Hk].
      exists t1, (mkOracle 0 k). by apply (exec_enabled σ s t1 th1 i). }
  destruct (mu s) eqn:Emu.
  - destruct (M3 eq_refl) as (t1 & th1 & Hth1 & Hl1).
    destruct (next_instr σ th1) as [i|] eqn:Ei.
    + apply (Hgo t1 th1 i Hth1 Ei). intros ->.
      apply lock_when_free in Ei. unfold holds_lock, executed in Hl1. congruence.
    + rewrite returned_unlocked in Hl1 by done. done.
  - destruct (next_instr σ th) as [i|] eqn:Ei; [|done].
    by apply (Hgo t th i Hth Ei).
Qed.

(** ** What the counter counts *)

(** The goroutine has run [r.counter++] or [atomic.AddInt64]. *)
Definition incremented (σ : strategy) (th : thread) : Prop :=
  IIncr ∈ executed σ th ∨ IAtomicAdd ∈ executed σ th.

Global Instance incremented_dec σ th : Decision (incremented σ th).
Proof. unfold incremented. apply _. Defined.

Global Instance has_id_dec σ th : Decision (has_id σ th).
Proof. unfold has_id. apply _. Defined.

(** The goroutine is between [r.counter++] and [currentCounter := r.counter]. *)
Definition reading (σ : strategy) (th : thread) : Prop :=
  next_instr σ th = Some IReadCounter.

Global Instance reading_dec σ th : Decision (reading σ th).
Proof. unfold reading. apply _. Defined.

Definition count (P : thread → Prop) `{!∀ th, Decision (P th)} (s : state) : nat :=
  length (filter P (threads s)).

Definition is_incr (i : instr) : bool :=
  match i with
  | IIncr | IAtomicAdd => true
  | _ => false
  end.

Lemma incr_once σ h n i :
  handler σ h !! n = Some i → is_incr i = true →
  (IIncr ∉ take n (handler σ h)) ∧ (IAtomicAdd ∉ take n (handler σ h)).
Proof.
  by_positions σ h n (intros; simplify_eq; split; decide_now).
Qed.

Lemma incremented_split σ th :
  (incremented σ th ↔ has_id σ th ∨ reading σ th)
  ∧ ¬ (has_id σ th ∧ reading σ th).
Proof.
  unfold incremented, has_id, reading, next_instr, executed.
  destruct th as [r n ? ? ? ? ? ? ? ? ? ?]; simpl.
  destruct σ, r; simpl;
    do 18 (destruct n as [|n];
           [simpl; split;
            [apply (bool_decide_unpack _); vm_compute; exact I
            |apply (bool_decide_unpack _); vm_compute; exact I]|]);
    simpl; split; apply (bool_decide_unpack _); vm_compute; exact I.
Qed.

Lemma stored_incremented σ th : stored σ th → incremented σ th.
Proof.
  unfold stored, incremented, executed.
  destruct th as [r n ? ? ? ? ? ? ? ? ? ?]; simpl.
  destruct σ, r; simpl;
    do 18 (destruct n as [|n];
           [simpl; apply (bool_decide_unpack _); vm_compute; exact I|]);
    simpl; apply (bool_decide_unpack _); vm_compute; exact I.
Qed.

Lemma filter_length_le {A} (P Q : A → Prop)
    `{!∀ x, Decision (P x)} `{!∀ x, Decision (Q x)} (l : list A) :
  (∀ x, x ∈ l → P x → Q x) →
  length (filter P l) ≤ length (filter Q l).
Proof.
  induction l as [|a l IH]; intros Himp; [done|].
  rewrite !filter_cons.
  assert (P a → Q a) as Ha by (apply Himp; left).
  specialize (IH ltac:(intros x Hx; apply Himp; by right)).
  destruct (decide (P a)), (decide (Q a)); simpl; tauto || lia.
Qed.

Lemma filter_length_split {A} (P Q R : A → Prop)
    `{!∀ x, Decision (P x)} `{!∀ x, Decision (Q x)} `{!∀ x, Decision (R x)}
    (l : list A) :
  (∀ x, x ∈ l → (P x ↔ Q x ∨ R x) ∧ ¬ (Q x ∧ R x)) →
  length (filter P l) = length (filter Q l) + length (filter R l).
Proof.
  induction l as [|a l IH]; intros Hs; [done|].
  rewrite !filter_cons.
  destruct (Hs a ltac:(left)) as [Ha Hx].
  specialize (IH ltac:(intros x Hx'; apply Hs; by right)).
  destruct (decide (P a)), (decide (Q a)), (decide (R a)); simpl; tauto || lia.
Qed.

Lemma filter_length_none {A} (P : A → Prop) `{!∀ x, Decision (P x)} (l : list A) :
  (∀ x, x ∈ l → ¬ P x) → length (filter P l) = 0.
Proof.
  induction l as [|a l IH]; intros Hn; [done|].
  rewrite filter_cons, decide_False by (apply Hn; left).
  apply IH. intros x Hx. apply Hn. by right.
Qed.

Lemma filter_length_unique {A} (P : A → Prop) `{!∀ x, Decision (P x)}
    (l : list A) t x :
  l !! t = Some x → P x →
  (∀ t' y, l !! t' = Some y → P y → t' = t) →
  length (filter P l) = 1.
Proof.
  revert t. induction l as [|a l IH]; intros t Hx HP Hu; [done|].
  rewrite filter_cons. destruct t as [|t]; simpl in Hx.
  - simplify_eq. rewrite decide_True by done. simpl.
    rewrite filter_length_none; [done|].
    intros y Hy HPy. apply list_elem_of_lookup in Hy as [t' Hy].
    by specialize (Hu (S t') y Hy HPy).
  - rewrite decide_False.
    + apply (IH t Hx HP). intros t' y Hy HPy.
      specialize (Hu (S t') y Hy HPy). lia.
    + intros Ha. by specialize (Hu 0 a eq_refl Ha).
Qed.

(** What a step does to a count of goroutines. *)
Lemma count_step (P : thread → Prop) `{!∀ th, Decision (P th)}
    i t o th s s' th' :
  exec_instr i t o th s = Some s' → threads s !! t = Some th →
  threads s' !! t = Some th' →
  count P s' + (if decide (P th) then 1 else 0)
  = count P s + (if decide (P th') then 1 else 0).
Proof.
  intros Hex Hth Hth'.
  destruct (exec_instr_threads _ _ _ _ _ _ Hex) as (th'' & Hths & _).
  rewrite Hths, list_lookup_insert_eq in Hth' by (by eapply lookup_lt_Some).
  simplify_eq. unfold count. rewrite Hths. by apply count_insert.
Qed.

Lemma count_request (P : thread → Prop) `{!∀ th, Decision (P th)} s h :
  ¬ P (new_thread h) →
  count P (mkState (mu s) (counter s) (maps s) (structs s)
             (threads s ++ [new_thread h]) (responses s))
  = count P s.
Proof.
  intros Hn. unfold count; simpl.
  rewrite filter_app, length_app, filter_cons_False by done. simpl. lia.
Qed.

Lemma incremented_step σ i t o th s s' th' :
  exec_instr i t o th s = Some s' → threads s !! t = Some th →
  next_instr σ th = Some i → threads s' !! t = Some th' →
  (incremented σ th' ↔ incremented σ th ∨ is_incr i = true)
  ∧ (is_incr i = true → ¬ incremented σ th).
Proof.
  intros Hex Hth Hi Hth'. split; [split|].
  - intros [Hj|Hj];
      destruct (executed_mono _ _ _ _ _ _ _ _ _ Hex Hth Hi Hth' Hj) as [?|<-];
      try (by right); left; [by left|by right].
  - destruct (executed_step _ _ _ _ _ _ _ _ Hex Hth Hi Hth') as [_ [Hx|[Hx Hl]]];
      unfold incremented; rewrite Hx, ?elem_of_app, ?list_elem_of_singleton.
    + intros [[?|?]|Hinc]; [tauto|tauto|]. destruct i; try done; tauto.
    + intros [?|Hinc]; [done|]. by destruct i.
  - intros Hinc. destruct (incr_once _ _ _ _ Hi Hinc). by intros [?|?].
Qed.

Lemma has_id_alloc_step σ i t o th s s' th' :
  exec_instr i t o th s = Some s' → threads s !! t = Some th →
  next_instr σ th = Some i → threads s' !! t = Some th' →
  (has_id σ th' ↔ has_id σ th ∨ is_alloc i = true)
  ∧ (is_alloc i = true → ¬ has_id σ th).
Proof.
  intros Hex Hth Hi Hth'. split; [split|].
  - intros [Hj|Hj];
      destruct (executed_mono _ _ _ _ _ _ _ _ _ Hex Hth Hi Hth' Hj) as [?|<-];
      try (by right); left; [by left|by right].
  - destruct (executed_step _ _ _ _ _ _ _ _ Hex Hth Hi Hth') as [_ [Hx|[Hx Hl]]];
      unfold has_id; rewrite Hx, ?elem_of_app, ?list_elem_of_singleton.
    + intros [[?|?]|Ha]; [tauto|tauto|]. destruct i; try done; tauto.
    + intros [?|Ha]; [done|]. by destruct i.
  - intros Ha. destruct (alloc_once _ _ _ _ Hi Ha). by intros [?|?].
Qed.

Lemma new_thread_fresh σ h :
  ¬ incremented σ (new_thread h) ∧ ¬ has_id σ (new_thread h)
  ∧ ¬ stored σ (new_thread h).
Proof.
  unfold incremented, has_id, stored, executed; simpl.
  split_and!; intros [?%elem_of_nil|?%elem_of_nil]; done.
Qed.

(** As long as it has not wrapped, the counter is the number of goroutines
    that have incremented it. *)
Lemma counter_run σ evs :
  (Z.of_nat (length evs) ≤ GoInt.max_int)%Z →
  counter (run σ evs NewRepository)
  = Z.of_nat (count (incremented σ) (run σ evs NewRepository)).
Proof.
  induction evs as [|e evs IH] using rev_ind; intros Hb; [done|].
  rewrite length_app in Hb; simpl in Hb. rewrite run_snoc.
  destruct (ids_run σ evs) as [_ Hc]; [lia|].
  specialize (IH ltac:(lia)). set (s := run σ evs NewRepository) in *.
  unfold exec_or_stay. destruct (exec σ e s) as [s'|] eqn:E; simpl; [|done].
  destruct e as [h|t o]; simpl in E.
  { simplify_eq. rewrite count_request; [done|]. apply new_thread_fresh. }
  destruct (threads s !! t) as [th|] eqn:Eth; [|done].
  destruct (next_instr σ th) as [i|] eqn:Ei; [|done].
  destruct (exec_instr_self _ _ _ _ _ _ E Eth) as [th' Hth'].
  pose proof (count_step (incremented σ) _ _ _ _ _ _ _ E Eth Hth') as Hcount.
  destruct (incremented_step _ _ _ _ _ _ _ _ E Eth Ei Hth') as [Hiff Hnot].
  rewrite (exec_instr_counter _ _ _ _ _ _ E).
  destruct (is_incr i) eqn:Einc.
  - rewrite (decide_False (P := incremented σ th)) in Hcount by auto.
    rewrite (decide_True (P := incremented σ th')) in Hcount by (apply Hiff; auto).
    rewrite wrap_succ by lia. destruct i; try done; lia.
  - assert (incremented σ th' ↔ incremented σ th) as Hsame.
    { rewrite Hiff. split; [by intros [?|?]|auto]. }
    assert (count (incremented σ) s' = count (incremented σ) s) as ->.
    { destruct (decide (incremented σ th)), (decide (incremented σ th'));
        try tauto; lia. }
    by destruct i.
Qed.

(** The number of ids handed out is the number of goroutines that have
    one. *)
Lemma handed_out_count σ evs :
  length (handed_out σ evs NewRepository)
  = count (has_id σ) (run σ evs NewRepository).
Proof.
  induction evs as [|e evs IH] using rev_ind; [done|].
  rewrite handed_out_snoc, run_snoc, length_app, IH.
  set (s := run σ evs NewRepository) in *.
  destruct e as [h|t o].
  { simpl. unfold exec_or_stay; simpl. rewrite count_request; [lia|].
    apply new_thread_fresh. }
  unfold allocated, exec_or_stay. simpl.
  destruct (threads s !! t) as [th|] eqn:Eth; simpl; [|lia].
  destruct (next_instr σ th) as [i|] eqn:Ei; simpl; [|lia].
  destruct (exec_instr i t o th s) as [s'|] eqn:E; simpl.
  - destruct (exec_instr_self _ _ _ _ _ _ E Eth) as [th' Hth'].
    pose proof (count_step (has_id σ) _ _ _ _ _ _ _ E Eth Hth') as Hcount.
    destruct (has_id_alloc_step _ _ _ _ _ _ _ _ E Eth Ei Hth') as [Hiff Hnot].
    rewrite Hth'. destruct (is_alloc i) eqn:Ea; simpl.
    + rewrite (decide_False (P := has_id σ th)) in Hcount by auto.
      rewrite (decide_True (P := has_id σ th')) in Hcount by (apply Hiff; auto).
      lia.
    + assert (has_id σ th' ↔ has_id σ th) as Hsame.
      { rewrite Hiff. split; [by intros [?|?]|auto]. }
      destruct (decide (has_id σ th)), (decide (has_id σ th'));
        try tauto; lia.
  - destruct (is_alloc i) eqn:Ea; [by destruct i|]. simpl. lia.
Qed.

(** At most one goroutine is between the increment and the read. *)
Lemma reading_count σ s :
  reachable σ s →
  count (reading σ) s ≤ 1
  ∧ (σ = LockFree → count (reading σ) s = 0)
  ∧ (∀ t th, threads s !! t = Some th → reading σ th →
       count (reading σ) s = 1).
Proof.
  intros Hs. pose proof (mutex_invariant _ _ Hs) as [_ M2 _].
  assert (∀ t th, threads s !! t = Some th → reading σ th →
            count (reading σ) s = 1) as Hone.
  { intros t th Hth Hr. apply (filter_length_unique _ _ t th Hth Hr).
    intros t' th' Hth' Hr'. eapply (M2 t' t); eauto; by apply read_locked. }
  split; [|split; [|done]].
  - destruct (decide (Exists (reading σ) (threads s))) as [Hex|Hno].
    + apply Exists_exists in Hex as (th & Hin & Hr).
      apply list_elem_of_lookup in Hin as [t Hth]. by rewrite (Hone t th).
    + unfold count. rewrite filter_length_none; [lia|].
      intros th Hin Hr. apply Hno, Exists_exists. eauto.
  - intros ->. unfold count. apply filter_length_none.
    intros th _ Hr. by eapply read_not_lockfree.
Qed.

(** X4. The request ids are consecutive: on each server and along every
    schedule (of fewer than [2^63] events) the ids are handed out as
    [1, 2, 3, ...], without a gap. *)
Theorem ids_are_consecutive σ evs :
  (Z.of_nat (length evs) ≤ GoInt.max_int)%Z →
  handed_out σ evs NewRepository
  = Z.of_nat <$> seq 1 (length (handed_out σ evs NewRepository)).
Proof.
  induction evs as [|e evs IH] using rev_ind; intros Hb; [done|].
  rewrite length_app in Hb; simpl in Hb.
  specialize (IH ltac:(lia)).
  pose proof (counter_run σ evs ltac:(lia)) as Hcnt.
  pose proof (handed_out_count σ evs) as Hlen.
  pose proof (run_reachable_init σ evs) as Hs.
  destruct (ids_run σ evs) as [_ Hc]; [lia|].
  rewrite handed_out_snoc, length_app.
  set (s := run σ evs NewRepository) in *.
  destruct (allocated σ s e) as [x|] eqn:Ea; simpl;
    [|by rewrite Nat.add_0_r, app_nil_r].
  rewrite Nat.add_1_r, seq_S, fmap_app, <- IH. f_equal. simpl. f_equal.
  destruct e as [h|t o]; simpl in Ea; [done|].
  destruct (threads s !! t) as [th|] eqn:Eth; simpl in Ea; [|done].
  destruct (next_instr σ th) as [i|] eqn:Ei; simpl in Ea; [|done].
  destruct (is_alloc i) eqn:Eal; [|done].
  apply fmap_Some in Ea as (th' & Hth' & ->).
  assert (exec_instr i t o th s = Some (exec_or_stay σ s (Run t o))) as Hex.
  { unfold exec_or_stay; simpl. rewrite Eth, Ei. by destruct i. }
  destruct (exec_instr_locals _ _ _ _ _ _ _ Hex Eth Hth') as (_ & -> & _).
  assert (count (incremented σ) s
          = count (has_id σ) s + count (reading σ) s) as Hsplit.
  { apply filter_length_split. intros th0 _. apply incremented_split. }
  destruct (reading_count σ s Hs) as (_ & Hfree & Hone).
  destruct i; try done.
  - rewrite (Hone t th Eth Ei) in Hsplit. lia.
  - rewrite Hfree in Hsplit by (by eapply atomic_is_lockfree).
    rewrite wrap_succ by lia. lia.
Qed.

Lemma ids_are_consecutive_witness :
  handed_out MinimalLock two_requests NewRepository = [1; 2]%Z.
Proof.
  rewrite (ids_are_consecutive MinimalLock two_requests) by (by vm_compute).
  by vm_compute.
Defined.

(** X5. The counter reported as [total_requests] is the number of
    requests that have got past the increment, whether or not they have
    written their record yet: it is the number of ids handed out, plus one
    while a goroutine of a mutex server is between [r.counter++] and
    [currentCounter := r.counter]; and [r.data] never holds more records
    than that. *)
Theorem counter_counts_requests σ evs :
  (Z.of_nat (length evs) ≤ GoInt.max_int)%Z →
  counter (run σ evs NewRepository)
  = Z.of_nat (count (incremented σ) (run σ evs NewRepository))
  ∧ count (incremented σ) (run σ evs NewRepository)
    = length (handed_out σ evs NewRepository)
      + count (reading σ) (run σ evs NewRepository)
  ∧ count (reading σ) (run σ evs NewRepository) ≤ 1
  ∧ (σ = LockFree → count (reading σ) (run σ evs NewRepository) = 0)
  ∧ (Z.of_nat (size (rdata (run σ evs NewRepository)))
     ≤ counter (run σ evs NewRepository))%Z.
Proof.
  intros Hb. pose proof (run_reachable_init σ evs) as Hs.
  pose proof (counter_run σ evs Hb) as Hcnt.
  destruct (reading_count σ _ Hs) as (Hle & Hfree & _).
  split; [done|]. split; [|split; [done|split; [done|]]].
  - rewrite handed_out_count. apply filter_length_split.
    intros th0 _. apply incremented_split.
  - rewrite Hcnt, (stored_count_run σ evs Hb). apply inj_le.
    apply filter_length_le. intros th _. apply stored_incremented.
Qed.

Lemma counter_counts_requests_witness :
  counter (run MinimalLock two_requests NewRepository) = 2%Z.
Proof.
  destruct (counter_counts_requests MinimalLock two_requests) as [-> _];
    by vm_compute.
Defined.

(** ** The responses *)

(** The goroutine has written its response. *)
Definition responded (σ : strategy) (th : thread) : Prop :=
  Exists (λ i, is_io i = true) (executed σ th).

Global Instance responded_dec σ th : Decision (responded σ th).
Proof. unfold responded. apply _. Defined.

(** [r] is the response of goroutine [th]: the JSON body built from its
    local variables. *)
Definition response_of (σ : strategy) (th : thread) (r : response) : Prop :=
  responded σ th ∧
  match r with
  | ProcessResponse m c res _ =>
      th_route th = Process ∧ IRespond m ∈ handler σ Process
      ∧ c = currentCounter th ∧ res = result th
  | StatsResponse tot n =>
      th_route th = Stats ∧ tot = statsCounter th ∧ n = dataSize th
  end.

Record resp_inv (σ : strategy) (s : state) : Prop := {
  resp_sound : ∀ t r, (t, r) ∈ responses s →
    ∃ th, threads s !! t = Some th ∧ response_of σ th r;
  resp_once : NoDup (responses s).*1;
  resp_count : length (responses s) = count (responded σ) s
}.

Lemma respond_once σ h n i :
  handler σ h !! n = Some i → is_io i = true →
  ¬ Exists (λ j, is_io j = true) (take n (handler σ h)).
Proof. by_positions σ h n (intros H; simplify_eq; decide_now). Qed.

Lemma after_respond σ h n i :
  handler σ h !! n = Some i →
  Exists (λ j, is_io j = true) (take n (handler σ h)) → i = IUnlock.
Proof. by_positions σ h n (intros H; simplify_eq; decide_now). Qed.

Lemma respond_route σ h n i :
  handler σ h !! n = Some i → is_io i = true →
  match i with IRespond _ => h = Process | _ => h = Stats end.
Proof. by_positions σ h n (intros H; simplify_eq; done). Qed.

Lemma responded_process σ th :
  responded σ th → th_route th = Process →
  stored σ th ∧ ICpuNext ∈ executed σ th.
Proof.
  unfold responded, stored, executed.
  destruct th as [r n ? ? ? ? ? ? ? ? ? ?]; simpl. intros H ->. revert H.
  destruct σ; simpl;
    do 18 (destruct n as [|n];
           [simpl; apply (bool_decide_unpack _); vm_compute; exact I|]);
    simpl; apply (bool_decide_unpack _); vm_compute; exact I.
Qed.

(** What a statement writes to the client, and what it does to the local
    variables that go into a response. *)
Lemma exec_instr_responses i t o th s s' :
  exec_instr i t o th s = Some s' →
  responses s' = responses s ++
    match i with
    | IRespond m =>
        [(t, ProcessResponse m (currentCounter th) (result th)
               (Z.quot (o_now o - start th) 1000))]
    | IRespondStats => [(t, StatsResponse (statsCounter th) (dataSize th))]
    | _ => []
    end.
Proof. intros H. exec_cases H; simpl; by rewrite ?app_nil_r. Qed.

Lemma exec_instr_stats i t o th s s' th' :
  exec_instr i t o th s = Some s' → threads s !! t = Some th →
  threads s' !! t = Some th' →
  statsCounter th' =
    match i with
    | IReadStats | IAtomicLoad => counter s
    | _ => statsCounter th
    end
  ∧ match i with
    | IReadStats => dataSize th' = Z.of_nat (size (rdata s))
    | ICountBegin => dataSize th' = 0%Z
    | ICountNext => True
    | _ => dataSize th' = dataSize th
    end.
Proof.
  intros H Hth Hth'. apply lookup_lt_Some in Hth as Hlt.
  exec_cases H; simpl in Hth';
    rewrite list_lookup_insert_eq in Hth' by done; simplify_eq; done.
Qed.

Lemma exec_instr_unlock t o th s s' th' :
  exec_instr IUnlock t o th s = Some s' → threads s !! t = Some th →
  threads s' !! t = Some th' → th' = advance th.
Proof.
  intros H Hth Hth'. apply lookup_lt_Some in Hth.
  simpl in H. destruct (mu s); [|done]. injection H as <-. simpl in Hth'.
  rewrite list_lookup_insert_eq in Hth' by done. by injection Hth'.
Qed.

Lemma responded_step σ i t o th s s' th' :
  exec_instr i t o th s = Some s' → threads s !! t = Some th →
  next_instr σ th = Some i → threads s' !! t = Some th' →
  (responded σ th' ↔ responded σ th ∨ is_io i = true)
  ∧ (is_io i = true → ¬ responded σ th).
Proof.
  intros Hex Hth Hi Hth'. split; [|intros Hio; by eapply respond_once].
  unfold responded.
  destruct (executed_step _ _ _ _ _ _ _ _ Hex Hth Hi Hth') as [_ [Hx|[Hx Hl]]];
    rewrite Hx.
  - rewrite Exists_app, Exists_cons, Exists_nil. tauto.
  - split; [by left|]. intros [?|Hio]; [done|]. by destruct i.
Qed.

(** A response stays the response of its goroutine. *)
Lemma response_of_step σ i t o th s s' th' r :
  exec_instr i t o th s = Some s' → threads s !! t = Some th →
  next_instr σ th = Some i → threads s' !! t = Some th' →
  response_of σ th r → response_of σ th' r.
Proof.
  intros Hex Hth Hi Hth' [Hr Hof].
  assert (i = IUnlock) as -> by (by eapply after_respond).
  rewrite (exec_instr_unlock _ _ _ _ _ _ Hex Hth Hth').
  split; [|by destruct r].
  destruct (responded_step _ _ _ _ _ _ _ _ Hex Hth Hi Hth') as [Hiff _].
  rewrite <- (exec_instr_unlock _ _ _ _ _ _ Hex Hth Hth'). apply Hiff. by left.
Qed.

Lemma responses_invariant σ s : reachable σ s → resp_inv σ s.
Proof.
  revert s. apply reachable_steps.
  - split; simpl; [by intros t r ?%elem_of_nil|constructor|done].
  - intros s h _ [H1 H2 H3]. split; simpl; [|done|].
    + intros t r (th & Hth & Hof)%H1. exists th.
      split; [by apply lookup_app_l_Some|done].
    + rewrite count_request; [done|].
      unfold responded, executed; simpl. by intros ?%Exists_nil.
  - intros s t o th i s' _ [H1 H2 H3] Hth Hi Hex.
    destruct (exec_instr_self _ _ _ _ _ _ Hex Hth) as [th' Hth'].
    pose proof (exec_instr_responses _ _ _ _ _ _ Hex) as Hresp.
    destruct (responded_step _ _ _ _ _ _ _ _ Hex Hth Hi Hth') as [Hiff Hnot].
    pose proof (count_step (responded σ) _ _ _ _ _ _ _ Hex Hth Hth') as Hcount.
    assert (∀ t2 r, (t2, r) ∈ responses s →
              ∃ th2, threads s' !! t2 = Some th2 ∧ response_of σ th2 r) as Hold.
    { intros t2 r (th2 & Hth2 & Hof)%H1. destruct (decide (t2 = t)) as [->|Hne].
      - assert (th2 = th) as -> by congruence. exists th'.
        split; [done|]. by eapply response_of_step.
      - exists th2. by rewrite (exec_instr_others _ _ _ _ _ _ t2 Hex Hne). }
    destruct (is_io i) eqn:Eio.
    + assert (t ∉ (responses s).*1) as Hfresh.
      { intros (tr & Heq & Hin)%list_elem_of_fmap. destruct tr as [t0 r].
        simpl in Heq. subst t0. apply H1 in Hin as (th0 & Hth0 & [Hr0 _]).
        assert (th0 = th) as -> by congruence. by apply Hnot. }
      assert (responded σ th') as Hr' by (apply Hiff; by right).
      destruct (exec_instr_locals _ _ _ _ _ _ _ Hex Hth Hth') as (_ & Hcc & _).
      pose proof (exec_instr_cpu _ _ _ _ _ _ _ Hex Hth Hth') as Hcpu.
      destruct (exec_instr_threads _ _ _ _ _ _ Hex) as (th'' & Hths & Hrt & _).
      rewrite Hths, list_lookup_insert_eq in Hth' by (by eapply lookup_lt_Some).
      assert (th'' = th') as -> by congruence.
      pose proof (respond_route _ _ _ _ Hi Eio) as Hroute.
      rewrite (decide_False (P := responded σ th)) in Hcount by auto.
      rewrite (decide_True (P := responded σ th')) in Hcount by done.
      split.
      * intros t2 r. rewrite Hresp. intros [Hin|Hin]%elem_of_app; [by apply Hold|].
        destruct i; try done; apply list_elem_of_singleton in Hin; simplify_eq;
          exists th'; (split; [rewrite Hths; apply list_lookup_insert_eq;
                               by eapply lookup_lt_Some|]);
          (split; [done|]).
        -- simpl in Hcpu. destruct Hcpu as [-> _]. rewrite Hcc.
           split; [congruence|]. split; [|done].
           rewrite <- Hroute. by eapply list_elem_of_lookup_2.
        -- split; [congruence|].
           assert (threads s' !! t = Some th') as Hlk
             by (rewrite Hths; apply list_lookup_insert_eq;
                 by eapply lookup_lt_Some).
           by destruct (exec_instr_stats _ _ _ _ _ _ _ Hex Hth Hlk) as [-> ->].
      * rewrite Hresp, fmap_app. apply NoDup_app. split; [done|]. split.
        -- intros x Hx Hx'. destruct i; try done;
             apply list_elem_of_singleton in Hx'; by subst x.
        -- destruct i; try done; apply NoDup_singleton.
      * rewrite Hresp, length_app. destruct i; try done; simpl; lia.
    + assert (responses s' = responses s) as Heq
        by (rewrite Hresp; destruct i; try done; by rewrite app_nil_r).
      assert (responded σ th' ↔ responded σ th) as Hsame.
      { rewrite Hiff. split; [by intros [?|?]|auto]. }
      split; rewrite Heq; [done|done|].
      destruct (decide (responded σ th)), (decide (responded σ th'));
        try tauto; lia.
Qed.

(** The [method] field of the responses of each server. *)
Definition method_of (σ : strategy) : string :=
  match σ with
  | HeldLock => "bad_defer"
  | MinimalLock => "good_no_defer"
  | LockFree => "sync_map"
  end.

Lemma respond_method σ m : IRespond m ∈ handler σ Process → m = method_of σ.
Proof.
  intros H. destruct σ; simpl in H;
    repeat (apply elem_of_cons in H as [H|H]; [by simplify_eq|]);
    by apply elem_of_nil in H.
Qed.

(** X6. What the clients are told. After any schedule, every response to
    [/process] carries the method name of its server, the id of the
    goroutine that wrote it and the result [499999500000] of the CPU loop,
    and the record of that id is in [r.data] by then; no goroutine writes
    two responses, and every goroutine that has got past its [Encode] has
    written one. *)
Theorem responses_are_faithful σ evs :
  (∀ t m c res d,
     (t, ProcessResponse m c res d) ∈ responses (run σ evs NewRepository) →
     m = method_of σ ∧ res = cpu_result
     ∧ (∃ th, threads (run σ evs NewRepository) !! t = Some th
              ∧ th_route th = Process ∧ currentCounter th = c)
     ∧ ∃ v, rdata (run σ evs NewRepository) !! request_key c = Some v
            ∧ record_ok (structs (run σ evs NewRepository)) (request_key c) c v)
  ∧ NoDup (responses (run σ evs NewRepository)).*1
  ∧ length (responses (run σ evs NewRepository))
    = count (responded σ) (run σ evs NewRepository).
Proof.
  pose proof (run_reachable_init σ evs) as Hs.
  set (s := run σ evs NewRepository) in *.
  destruct (responses_invariant _ _ Hs) as [H1 H2 H3].
  split; [|by split].
  intros t m c res d Hin.
  destruct (H1 _ _ Hin) as (th & Hth & Hr & Hroute & Hm & -> & ->).
  destruct (responded_process _ _ Hr Hroute) as [Hst Hcpu].
  pose proof (locals_invariant _ _ _ _ Hs Hth) as [_ Lr _].
  split; [by apply respond_method|]. split; [by apply Lr|].
  split; [by exists th|].
  destruct (records_invariant _ _ Hs) as [Rs Rc].
  pose proof (Rc _ _ Hth Hst) as [v Hv]%elem_of_dom.
  exists v. split; [done|].
  destruct (Rs _ _ Hv) as (t0 & th0 & _ & _ & Hk & Hok).
  apply request_key_inj in Hk. by rewrite <- Hk in Hok.
Qed.

(** ** What [/stats] reports *)

Lemma after_read_stats σ h n i :
  handler σ h !! n = Some i → IReadStats ∈ take n (handler σ h) →
  i = IUnlock ∨ i = IRespondStats.
Proof. by_positions σ h n (intros H; simplify_eq; decide_now). Qed.

Lemma read_stats_locked σ h n :
  handler σ h !! n = Some IReadStats →
  locked_after (take n (handler σ h)) = true
  ∧ (IIncr ∉ take n (handler σ h)) ∧ (IAtomicAdd ∉ take n (handler σ h))
  ∧ (IStoreInt ∉ take n (handler σ h)) ∧ (IStoreStruct ∉ take n (handler σ h)).
Proof. by_positions σ h n (intros H; simplify_eq; decide_now). Qed.

(** A goroutine of the bad server that does not hold the mutex has not
    started, or has stored its record. *)
Lemma bad_idle th :
  holds_lock HeldLock th = false →
  (incremented HeldLock th ↔ stored HeldLock th).
Proof.
  unfold holds_lock, incremented, stored, executed.
  destruct th as [r n ? ? ? ? ? ? ? ? ? ?]; simpl.
  destruct r; simpl;
    do 18 (destruct n as [|n];
           [simpl; apply (bool_decide_unpack _); vm_compute; exact I|]);
    simpl; apply (bool_decide_unpack _); vm_compute; exact I.
Qed.

Lemma stats_responded σ th :
  σ ≠ LockFree → responded σ th → th_route th = Stats →
  IReadStats ∈ executed σ th.
Proof.
  unfold responded, executed.
  destruct th as [r n ? ? ? ? ? ? ? ? ? ?]; simpl. intros Hσ H ->. revert H.
  destruct σ; try done; simpl;
    do 18 (destruct n as [|n];
           [simpl; apply (bool_decide_unpack _); vm_compute; exact I|]);
    simpl; apply (bool_decide_unpack _); vm_compute; exact I.
Qed.

(** What a stats handler of a mutex server has read. *)
Definition stats_read_ok (σ : strategy) (th : thread) : Prop :=
  (0 ≤ dataSize th ≤ statsCounter th)%Z
  ∧ (σ = HeldLock → dataSize th = statsCounter th).

(** In the bad server, when a stats handler reads under the mutex, no
    request is half way: there are as many records as the counter says. *)
Lemma bad_stats_exact s t th :
  reachable HeldLock s → threads s !! t = Some th →
  next_instr HeldLock th = Some IReadStats →
  count (stored HeldLock) s = count (incremented HeldLock) s.
Proof.
  intros Hs Hth Hi. pose proof (mutex_invariant _ _ Hs) as [_ M2 _].
  destruct (read_stats_locked _ _ _ Hi) as (Hl & N1 & N2 & N3 & N4).
  apply filter_length_ext. intros th2 Hin.
  apply list_elem_of_lookup in Hin as [t2 Hth2].
  destruct (decide (t2 = t)) as [->|Hne].
  - assert (th2 = th) as -> by congruence.
    unfold stored, incremented, executed. tauto.
  - symmetry. apply bad_idle.
    destruct (holds_lock HeldLock th2) eqn:El; [|done].
    exfalso. apply Hne. by eapply (M2 t2 t).
Qed.

Lemma stats_read_run σ evs t th :
  σ ≠ LockFree → (Z.of_nat (length evs) ≤ GoInt.max_int)%Z →
  threads (run σ evs NewRepository) !! t = Some th →
  IReadStats ∈ executed σ th → stats_read_ok σ th.
Proof.
  intros Hσ. revert t th.
  induction evs as [|e evs IH] using rev_ind; intros t th Hb Hth Hin.
  { simpl in Hth. by rewrite lookup_nil in Hth. }
  rewrite length_app in Hb; simpl in Hb.
  rewrite run_snoc in Hth.
  pose proof (run_reachable_init σ evs) as Hs.
  pose proof (counter_run σ evs ltac:(lia)) as Hcnt.
  pose proof (stored_count_run σ evs ltac:(lia)) as Hsize.
  set (s := run σ evs NewRepository) in *.
  assert (∀ t th, threads s !! t = Some th → IReadStats ∈ executed σ th →
            stats_read_ok σ th) as IH2
    by (intros t0 th0 ? ?; apply (IH t0 th0); [lia|done|done]).
  clear IH.
  unfold exec_or_stay in Hth.
  destruct (exec σ e s) as [s'|] eqn:E; simpl in Hth; [|by eapply IH2].
  destruct e as [h|t2 o]; simpl in E.
  { simplify_eq. simpl in Hth.
    apply lookup_new_thread in Hth as [?|[-> ->]]; [by eapply IH2|].
    unfold executed in Hin; simpl in Hin. by apply elem_of_nil in Hin. }
  destruct (threads s !! t2) as [th2|] eqn:Eth2; [|done].
  destruct (next_instr σ th2) as [i|] eqn:Ei; [|done].
  destruct (decide (t = t2)) as [->|Hne];
    [|rewrite (exec_instr_others _ _ _ _ _ _ t E Hne) in Hth; by eapply IH2].
  destruct (exec_instr_stats _ _ _ _ _ _ _ E Eth2 Hth) as [Hsc Hds].
  destruct (decide (IReadStats ∈ executed σ th2)) as [Hin0|Hnin].
  - destruct (IH2 _ _ Eth2 Hin0) as [Hle Heq].
    unfold stats_read_ok.
    destruct (after_read_stats _ _ _ _ Ei Hin0) as [-> | ->];
      simpl in Hsc, Hds; by rewrite Hsc, Hds.
  - assert (i = IReadStats) as ->.
    { destruct (executed_mono _ _ _ _ _ _ _ _ _ E Eth2 Ei Hth Hin); done. }
    simpl in Hsc, Hds. unfold stats_read_ok. rewrite Hsc, Hds, Hcnt, Hsize.
    split.
    + split; [lia|]. apply inj_le. apply filter_length_le.
      intros ? _. apply stored_incremented.
    + intros ->. f_equal. by eapply bad_stats_exact.
Qed.

(** X7. In the two servers with a mutex, [/stats] reads the counter and
    the size of [r.data] in one critical section: along every schedule (of
    fewer than [2^63] events) every stats response has
    [0 <= data_size <= total_requests]; in the bad server, where a request
    holds the mutex from its increment to its return, the two numbers are
    always equal. *)
Theorem mutex_stats_are_consistent σ evs t tot n :
  σ ≠ LockFree → (Z.of_nat (length evs) ≤ GoInt.max_int)%Z →
  (t, StatsResponse tot n) ∈ responses (run σ evs NewRepository) →
  (0 ≤ n ≤ tot)%Z ∧ (σ = HeldLock → n = tot).
Proof.
  intros Hσ Hb Hin.
  destruct (responses_invariant _ _ (run_reachable_init σ evs)) as [H1 _ _].
  destruct (H1 _ _ Hin) as (th & Hth & Hr & Hroute & -> & ->).
  apply (stats_read_run σ evs t th Hσ Hb Hth).
  by apply stats_responded.
Qed.

(** On the good server: a first request has been served, a second one has
    got its id and sleeps, and a request to [/stats] is served. *)
Definition stats_between : list phase :=
  first_served
  ++ [ Steps ([Request Process] ++ repeat (Run 1 (mkOracle 8 "request_1")) 9
              ++ [Request Stats] ++ repeat (Run 2 (mkOracle 9 "")) 4) ].

(** On the bad server: a request is served to its end, then a request to
    [/stats]. *)
Definition bad_stats_after : list phase :=
  [ Steps (Request Process :: repeat (Run 0 (mkOracle 0 "")) 9);
    Loop 0 (mkOracle 0 "");
    Steps (repeat (Run 0 (mkOracle 0 "")) 4
           ++ [Request Stats] ++ repeat (Run 1 (mkOracle 0 "")) 4) ].

Lemma mutex_stats_are_consistent_witness :
  (responses (run MinimalLock (schedule stats_between) NewRepository)
   = [(0%nat, ProcessResponse "good_no_defer" 1 499999500000 0);
      (2%nat, StatsResponse 2 1)]
   ∧ (0 ≤ 1 ≤ 2)%Z)
  ∧ (responses (run HeldLock (schedule bad_stats_after) NewRepository)
     = [(0%nat, ProcessResponse "bad_defer" 1 499999500000 0);
        (1%nat, StatsResponse 1 1)]
     ∧ (1 = 1)%Z).
Proof.
  assert (responses (run MinimalLock (schedule stats_between) NewRepository)
          = [(0%nat, ProcessResponse "good_no_defer" 1 499999500000 0);
             (2%nat, StatsResponse 2 1)]) as Hgood.
  { rewrite run_schedule by (vm_compute; eauto). vm_compute. reflexivity. }
  assert (responses (run HeldLock (schedule bad_stats_after) NewRepository)
          = [(0%nat, ProcessResponse "bad_defer" 1 499999500000 0);
             (1%nat, StatsResponse 1 1)]) as Hbad.
  { rewrite run_schedule by (vm_compute; eauto). vm_compute. reflexivity. }
  split; (split; [done|]).
  - apply (mutex_stats_are_consistent MinimalLock (schedule stats_between)
             2%nat 2 1); [done| |].
    + rewrite schedule_length. by vm_compute.
    + rewrite Hgood. apply list_elem_of_further, list_elem_of_here.
  - apply (mutex_stats_are_consistent HeldLock (schedule bad_stats_after)
             1%nat 1 1); [done| | |reflexivity].
    + rewrite schedule_length. by vm_compute.
    + rewrite Hbad. apply list_elem_of_further, list_elem_of_here.
Defined.

(** ** The snapshot is a copy *)

(** In a server with a mutex: the goroutine is in the critical section in
    which it copies [r.data], from [make] on. *)
Definition copying (σ : strategy) (th : thread) : Prop :=
  IMakeCopy ∈ executed σ th ∧ (IUnlock ∉ executed σ th) ∧ ¬ stored σ th.

(** What the copy loop has done so far: every key of [r.data] is still to
    be visited or has been; the copy holds the visited keys, with the
    contents [r.data] has for them. *)
Record copy_ok (σ : strategy) (s : state) (th : thread) : Prop := {
  copy_empty : IRangeBegin ∉ executed σ th → maps s !! dataCopy th = Some ∅;
  copy_keys : IRangeBegin ∈ executed σ th →
    pending th ∪ visited th = dom (rdata s);
  copy_done : snapshot_done σ th → pending th = ∅;
  copy_contents : IRangeBegin ∈ executed σ th →
    ∀ k, snapshot s th !! k
         = if decide (k ∈ visited th) then map_contents s 0 !! k else None
}.

Definition writes_heap (i : instr) : bool :=
  match i with
  | IMakeCopy | IRangeNext _ | IStoreInt | IStoreStruct => true
  | _ => false
  end.

Lemma heap_write_locked σ h n i :
  σ ≠ LockFree → handler σ h !! n = Some i → writes_heap i = true →
  locked_after (take n (handler σ h)) = true.
Proof.
  intros Hσ. revert Hσ.
  by_positions σ h n (intros Hσ H; simplify_eq; done).
Qed.

Lemma copying_locked σ th :
  σ ≠ LockFree → copying σ th → holds_lock σ th = true.
Proof.
  unfold copying, stored, holds_lock, executed.
  destruct th as [r n ? ? ? ? ? ? ? ? ? ?]; simpl. intros Hσ.
  destruct σ, r; try done; simpl;
    do 18 (destruct n as [|n];
           [simpl; apply (bool_decide_unpack _); vm_compute; exact I|]);
    simpl; apply (bool_decide_unpack _); vm_compute; exact I.
Qed.

Lemma begin_after_make σ h n :
  handler σ h !! n = Some IMakeCopy → IRangeBegin ∉ take n (handler σ h).
Proof. by_positions σ h n (intros H; simplify_eq; decide_now). Qed.

Lemma begin_once σ h n :
  handler σ h !! n = Some IRangeBegin →
  (IRangeBegin ∉ take n (handler σ h))
  ∧ (IRangeNext true ∉ take n (handler σ h))
  ∧ (IRangeNext false ∉ take n (handler σ h)).
Proof. by_positions σ h n (intros H; simplify_eq; decide_now). Qed.

Lemma range_after_begin σ h n d :
  handler σ h !! n = Some (IRangeNext d) → IRangeBegin ∈ take n (handler σ h).
Proof. by_positions σ h n (intros H; simplify_eq; decide_now). Qed.

Lemma no_count_after_make σ h n i :
  handler σ h !! n = Some i → IMakeCopy ∈ take n (handler σ h) →
  i ≠ ICountBegin ∧ i ≠ ICountNext.
Proof. by_positions σ h n (intros H; simplify_eq; decide_now). Qed.

Lemma exec_instr_heap_same i t o th s s' :
  exec_instr i t o th s = Some s' → writes_heap i = false →
  maps s' = maps s ∧ structs s' = structs s.
Proof.
  intros H Hw. pose proof (exec_instr_store _ _ _ _ _ _ H) as Hst.
  by destruct i.
Qed.

(** The variables of a range loop. *)
Lemma exec_instr_range i t o th s s' th' :
  exec_instr i t o th s = Some s' → threads s !! t = Some th →
  threads s' !! t = Some th' →
  match i with
  | IRangeBegin => pending th' = dom (rdata s) ∧ visited th' = ∅
  | ICountBegin => pending th' = dom (rdata s) ∧ visited th' = ∅
  | IRangeNext _ | ICountNext =>
      (pc th' = S (pc th) ∧ pending th = ∅
       ∧ pending th' = pending th ∧ visited th' = visited th
       ∧ maps s' = maps s ∧ structs s' = structs s)
      ∨ (pc th' = pc th ∧ may_visit (o_key o) th s
         ∧ pending th' = pending th ∖ {[o_key o]}
         ∧ visited th' = visited th ∪ {[o_key o]})
  | _ => pending th' = pending th ∧ visited th' = visited th
  end.
Proof.
  intros H Hth Hth'. apply lookup_lt_Some in Hth as Hlt.
  exec_cases H; simpl in Hth';
    rewrite list_lookup_insert_eq in Hth' by done; simplify_eq; simpl;
    try (by split); try (right; by split_and!); left; by split_and!.
Qed.

Lemma snapshot_ext s s' th th' :
  maps s' = maps s → structs s' = structs s → dataCopy th' = dataCopy th →
  snapshot s' th' = snapshot s th ∧ map_contents s' 0 = map_contents s 0
  ∧ rdata s' = rdata s.
Proof.
  intros Hm Hd Hc. unfold snapshot, map_contents, rdata.
  by rewrite Hm, Hd, Hc.
Qed.

(** Making a [DataStruct] changes the contents of no map. *)
Lemma map_contents_alloc σ s ds l :
  ptrs_ok σ (maps s) (structs s) →
  deref (structs s ++ ds) <$> default ∅ (maps s !! l)
  = deref (structs s) <$> default ∅ (maps s !! l).
Proof.
  intros Hp. apply map_fmap_ext. intros k v Hk. apply deref_app. intros p ->.
  destruct (maps s !! l) as [m|] eqn:Em; simpl in Hk;
    [|by rewrite lookup_empty in Hk].
  by eapply (ptrs_valid _ _ _ Hp).
Qed.

(** [m[k] = v] on the map object [l], where [v] may point to a
    [DataStruct] made for it. *)
Lemma map_contents_store σ s s' l k v ds :
  ptrs_ok σ (maps s) (structs s) →
  maps s' = alter (<[k := v]>) l (maps s) → structs s' = structs s ++ ds →
  l < length (maps s) →
  map_contents s' l = <[k := deref (structs s') v]> (map_contents s l)
  ∧ ∀ l2, l2 ≠ l → map_contents s' l2 = map_contents s l2.
Proof.
  intros Hp Hm Hd Hl. unfold map_contents. rewrite Hm, Hd. split.
  - destruct (lookup_lt_is_Some_2 _ _ Hl) as [m Em].
    rewrite list_lookup_alter, decide_True, Em by done. simpl.
    rewrite fmap_insert. f_equal.
    pose proof (map_contents_alloc σ s ds l Hp) as Ha.
    by rewrite Em in Ha.
  - intros l2 Hne. rewrite list_lookup_alter_ne by done.
    by apply (map_contents_alloc σ).
Qed.

Lemma copy_ok_same σ s s' th th' :
  maps s' = maps s → structs s' = structs s → dataCopy th' = dataCopy th →
  pending th' = pending th → visited th' = visited th →
  (IRangeBegin ∈ executed σ th' ↔ IRangeBegin ∈ executed σ th) →
  (snapshot_done σ th' → snapshot_done σ th ∨ pending th = ∅) →
  copy_ok σ s th → copy_ok σ s' th'.
Proof.
  intros Hm Hd Hc Hp Hv Hb Hdone [Ce Ck Cd Cc].
  destruct (snapshot_ext s s' th th' Hm Hd Hc) as (Hsn & H0 & Hr).
  split.
  - intros Hn. rewrite Hm, Hc. apply Ce. by rewrite <- Hb.
  - intros Hin. rewrite Hp, Hv, Hr. apply Ck. by rewrite <- Hb.
  - intros Hsd. rewrite Hp. destruct (Hdone Hsd); auto.
  - intros Hin k. rewrite Hsn, H0, Hv. apply Cc. by rewrite <- Hb.
Qed.

Lemma copy_ok_frame σ s s' th :
  maps s' = maps s → structs s' = structs s →
  copy_ok σ s th → copy_ok σ s' th.
Proof. intros Hm Hd. apply copy_ok_same; auto. Qed.

Lemma copy_invariant σ s :
  σ ≠ LockFree → reachable σ s →
  ∀ t th, threads s !! t = Some th → copying σ th → copy_ok σ s th.
Proof.
  intros Hσ Hs. pattern s. revert s Hs. apply reachable_steps.
  - intros t th Hth. simpl in Hth. by rewrite lookup_nil in Hth.
  - intros s h _ IH t th [Hth|[-> ->]]%lookup_new_thread Hc.
    + by apply (copy_ok_frame σ s), (IH t).
    + destruct Hc as [Hc _]. unfold executed in Hc; simpl in Hc.
      by apply elem_of_nil in Hc.
  - intros s t2 o th2 i s' Hs IH Hth2 Hi Hex t th' Hth' Hc'.
    pose proof (mutex_invariant _ _ Hs) as [_ M2 _].
    pose proof (heap_invariant _ _ Hs) as [H1 H2 H3 Hp].
    destruct (step_thread _ _ _ _ _ _ _ _ _ Hex Hth2 Hi Hth')
      as [[Hne Hold]|[-> [Hroute Hx]]].
    { (* another goroutine steps: it does not hold the mutex *)
      destruct (writes_heap i) eqn:Ew.
      - exfalso. apply Hne. eapply (M2 t t2); eauto.
        + by apply copying_locked.
        + by eapply heap_write_locked.
      - destruct (exec_instr_heap_same _ _ _ _ _ _ Hex Ew) as [Hm Hd].
        by apply (copy_ok_frame σ s), (IH t). }
    (* the goroutine itself steps *)
    destruct Hc' as (Hmk' & Hun' & Hst').
    destruct (exec_instr_locals _ _ _ _ _ _ _ Hex Hth2 Hth') as (Hdc & _).
    pose proof (exec_instr_range _ _ _ _ _ _ _ Hex Hth2 Hth') as Hrange.
    pose proof (exec_instr_store _ _ _ _ _ _ Hex) as Hstore.
    assert (∀ j, j ∈ executed σ th2 → j ∈ executed σ th') as Hsub.
    { intros j Hj. destruct Hx as [->|[-> _]]; [|done].
      apply elem_of_app. by left. }
    assert (∀ j, j ∈ executed σ th' → j ∈ executed σ th2 ∨ j = i) as Hsup
      by (intros j; by eapply executed_mono).
    destruct (decide (i = IMakeCopy)) as [->|Hnmk].
    { simpl in Hstore. destruct Hstore as [Hm Hd].
      assert (IRangeBegin ∉ executed σ th') as Hnb.
      { intros [?|?]%Hsup; [|done]. by eapply begin_after_make. }
      assert (¬ snapshot_done σ th') as Hnd.
      { intros [d [Hd'|?]%Hsup]; [|done].
        eapply make_once; [exact Hi|]. by eapply make_before_range. }
      split; try done.
      intros _. rewrite Hm, Hdc. by apply list_lookup_middle. }
    assert (copying σ th2) as Hc.
    { split; [|split].
      - by destruct (Hsup _ Hmk').
      - intros ?%Hsub. done.
      - intros [?%Hsub|?%Hsub]; apply Hst'; [by left|by right]. }
    pose proof (IH _ _ Hth2 Hc) as [Ce Ck Cd Cc].
    destruct Hc as (Hmk & Hun & Hst).
    pose proof (H2 _ _ Hth2 Hmk) as Hdcb.
    destruct (decide (i = IRangeBegin)) as [->|Hnb].
    { simpl in Hstore, Hrange. destruct Hstore as [Hm Hd].
      destruct Hrange as [Hpe Hvi].
      destruct (begin_once _ _ _ Hi) as (B1 & B2 & B3).
      destruct (snapshot_ext s s' th2 th' Hm Hd Hdc) as (Hsn & H0 & Hr).
      split.
      - intros Hn. exfalso. apply Hn. destruct Hx as [->|[_ ?]]; [|done].
        apply elem_of_app. right. by apply list_elem_of_singleton.
      - intros _. rewrite Hpe, Hvi, Hr. by rewrite (right_id_L ∅ (∪)).
      - intros [[|] [?|?]%Hsup]; done.
      - intros _ k. rewrite Hsn, Hvi.
        rewrite decide_False by (by apply not_elem_of_empty).
        unfold snapshot, map_contents. rewrite (Ce B1). simpl.
        by rewrite fmap_empty, lookup_empty. }
    destruct i; try done.
    all: try (simpl in Hstore, Hrange; destruct Hstore as [Hm Hd];
              destruct Hrange as [Hpe Hvi];
              apply (copy_ok_same σ s s' th2 th'); try done;
              [split; [by intros [?|?]%Hsup|by apply Hsub]
              |intros [d [?|?]%Hsup]; [left; by exists d|done]]).
    + (* one step of the copy loop *)
      pose proof (range_after_begin _ _ _ _ Hi) as Hbeg.
      specialize (Ck Hbeg). specialize (Cc Hbeg).
      simpl in Hrange.
      destruct Hrange as [(Hpc & Hemp & Hpe & Hvi & Hm & Hd)
                         |(Hpc & Hmay & Hpe & Hvi)].
      * (* the loop ends *)
        apply (copy_ok_same σ s s' th2 th'); try done.
        -- split; [by intros [?|?]%Hsup|by apply Hsub].
        -- by right.
      * (* one more key is copied *)
        assert (o_key o ∈ dom (rdata s)) as Hk.
        { rewrite <- Ck. destruct Hmay as [?|[Hk _]]; [|by rewrite Ck].
          apply elem_of_union. by left. }
        assert (o_key o ∈ pending th2 ∨ o_key o ∈ visited th2) as Hkin
          by (apply elem_of_union; by rewrite Ck).
        apply elem_of_dom in Hk as [v Hv].
        assert (∃ ds, structs s' = structs s ++ ds
                  ∧ maps s' = alter (<[o_key o := match v with
                                                  | VPtr _ => VPtr (length (structs s))
                                                  | _ => v
                                                  end]>) (dataCopy th2) (maps s)
                  ∧ deref (structs s') (match v with
                                        | VPtr _ => VPtr (length (structs s))
                                        | _ => v
                                        end) = deref (structs s) v)
          as (ds & Hd & Hm & Hv').
        { clear -Hex Hth2 Hv Hmay Hp Hi Hσ.
          apply rdata_lookup in Hv as Hv0. destruct Hv0 as (m0 & Hm0 & Hk0).
          pose proof (ptrs_kind _ _ _ Hp _ _ _ _ Hm0 Hk0) as Hkind.
          simpl in Hex. rewrite decide_True in Hex by done.
          rewrite Hv in Hex. destruct deep.
          - pose proof (deep_range_is_not_bad _ _ _ Hi) as Hnb.
            destruct v as [n|p]; simpl in Hkind; [done|].
            destruct (structs s !! p) as [d|] eqn:Ed; [|done].
            injection Hex as <-. exists [d]. simpl.
            split; [by destruct d|]. split; [done|].
            rewrite list_lookup_middle by done. rewrite Ed. by destruct d.
          - pose proof (shallow_range_is_bad _ _ _ Hi) as ->.
            destruct v as [n|p]; simpl in Hkind; [|done].
            injection Hex as <-. exists []. simpl.
            by rewrite app_nil_r. }
        set (v' := match v with
                   | VPtr _ => VPtr (length (structs s))
                   | _ => v
                   end) in *.
        destruct (map_contents_store σ s s' (dataCopy th2) (o_key o) v' ds
                    Hp Hm Hd ltac:(lia)) as [Hcopy Hother].
        assert (rdata s' = rdata s) as Hr.
        { unfold rdata. rewrite Hm, list_lookup_alter_ne by lia. done. }
        split.
        -- intros Hn. exfalso. by apply Hn, Hsub.
        -- intros _. rewrite Hpe, Hvi, Hr, <- Ck.
           apply set_eq. intros x.
           rewrite !elem_of_union, elem_of_difference, elem_of_singleton.
           destruct (decide (x = o_key o)) as [->|?]; tauto.
        -- intros [d Hd']. exfalso.
           rewrite (executed_stay σ th2 th' Hroute Hpc) in Hd'.
           by eapply range_once.
        -- intros _ k. unfold snapshot. rewrite Hdc, Hcopy, Hvi, Hv'.
           rewrite (Hother 0) by lia.
           destruct (decide (k = o_key o)) as [->|Hnk].
           ++ rewrite lookup_insert_eq.
              rewrite decide_True
                by (apply elem_of_union; right; by apply elem_of_singleton).
              unfold map_contents. fold (rdata s).
              by rewrite lookup_fmap, Hv.
           ++ rewrite lookup_insert_ne by done.
              fold (snapshot s th2). rewrite Cc.
              destruct (decide (k ∈ visited th2)) as [Hin|Hnin].
              ** rewrite decide_True; [done|]. apply elem_of_union. by left.
              ** rewrite decide_False; [done|].
                 intros [?|?%elem_of_singleton]%elem_of_union; done.
    + (* a store ends the copy *)
      exfalso. apply Hst'. left. destruct Hx as [->|[_ ?]]; [|done].
      apply elem_of_app. right. by apply list_elem_of_singleton.
    + exfalso. apply Hst'. right. destruct Hx as [->|[_ ?]]; [|done].
      apply elem_of_app. right. by apply list_elem_of_singleton.
    + exfalso. by destruct (no_count_after_make _ _ _ _ Hi Hmk).
    + exfalso. by destruct (no_count_after_make _ _ _ _ Hi Hmk).
Qed.

(** X8. In the two servers with a mutex the snapshot is an exact copy:
    when the copy loop has ended, and until the goroutine unlocks the mutex
    or writes its own record, [dataCopy] has the keys of [r.data], each with
    the contents [r.data] has for it (the same integer in the bad server,
    a [DataStruct] with the same fields in the good one). *)
Theorem snapshot_is_a_copy σ evs t th :
  σ ≠ LockFree →
  threads (run σ evs NewRepository) !! t = Some th →
  snapshot_done σ th → IUnlock ∉ executed σ th → ¬ stored σ th →
  snapshot (run σ evs NewRepository) th
  = map_contents (run σ evs NewRepository) 0.
Proof.
  intros Hσ Hth Hd Hun Hst.
  pose proof (run_reachable_init σ evs) as Hs.
  set (s := run σ evs NewRepository) in *.
  assert (IMakeCopy ∈ executed σ th) as Hmk
    by (destruct Hd as [d Hd]; by eapply make_before_range).
  assert (IRangeBegin ∈ executed σ th) as Hb.
  { destruct Hd as [d Hd]. revert Hd. clear.
    unfold executed. destruct th as [r n ? ? ? ? ? ? ? ? ? ?]; simpl.
    destruct d, σ, r; simpl;
      do 18 (destruct n as [|n];
             [simpl; apply (bool_decide_unpack _); vm_compute; exact I|]);
      simpl; apply (bool_decide_unpack _); vm_compute; exact I. }
  destruct (copy_invariant σ s Hσ Hs t th Hth) as [_ Ck Cd Cc]; [done|].
  specialize (Ck Hb). rewrite (Cd Hd), (left_id_L ∅ (∪)) in Ck.
  apply map_eq. intros k. rewrite (Cc Hb k), Ck.
  case_decide as Hk; [done|]. symmetry.
  unfold map_contents. fold (rdata s). rewrite lookup_fmap.
  apply not_elem_of_dom in Hk. by rewrite Hk.
Qed.

(** On the good server: a first request has been served, and a second
    one has ended its copy loop and still holds the mutex. *)
Definition copy_made : list phase :=
  first_served
  ++ [ Steps ([Request Process] ++ repeat (Run 1 (mkOracle 8 "request_1")) 8) ].

Lemma snapshot_is_a_copy_witness :
  snapshot (run MinimalLock (schedule copy_made) NewRepository)
    (mkThread Process 7 8 2 2 ∅ {["request_1"]} 0 0 "" 0 0)
  = map_contents (run MinimalLock (schedule copy_made) NewRepository) 0
  ∧ map_contents (run MinimalLock (schedule copy_made) NewRepository) 0
    = {[ "request_1" := CStruct (mkDataStruct "request_1" "Request 1" true
                                   499999500000 7) ]}.
Proof.
  split.
  - apply (snapshot_is_a_copy MinimalLock (schedule copy_made) 1%nat).
    + done.
    + rewrite run_schedule by (vm_compute; eauto). vm_compute. reflexivity.
    + exists true. apply (bool_decide_unpack _). by vm_compute.
    + apply (bool_decide_unpack _). by vm_compute.
    + apply (bool_decide_unpack _). by vm_compute.
  - rewrite run_schedule by (vm_compute; eauto). vm_compute. reflexivity.
Defined.

(** ** The sync.Map server reads its statistics in two steps *)

(** A request to [/stats] loads the counter, then a whole request to
    [/process] is served, then the stats handler counts the records. *)
Definition stats_overtaken : list event :=
  ([Request Stats; Run 0 (mkOracle 0 ""); Request Process]
   ++ repeat (Run 1 (mkOracle 0 "")) 7)
  ++ repeat (Run 1 (mkOracle 0 "")) (Z.to_nat 1000000)
  ++ (repeat (Run 1 (mkOracle 0 "")) 4
      ++ [Run 0 (mkOracle 0 ""); Run 0 (mkOracle 0 "request_1");
          Run 0 (mkOracle 0 ""); Run 0 (mkOracle 0 "")]).

Lemma stats_overtaken_state :
  responses (run LockFree stats_overtaken NewRepository)
  = [(1, ProcessResponse "sync_map" 1 499999500000 0); (0, StatsResponse 0 1)].
Proof.
  unfold stats_overtaken. rewrite 2!run_app.
  set (s1 := run LockFree
               ([Request Stats; Run 0 (mkOracle 0 ""); Request Process]
                ++ repeat (Run 1 (mkOracle 0 "")) 7) NewRepository).
  set (th1 := mkThread Process 7 0 1 1 ∅ ∅ 0 0 "" 0 0).
  assert (threads s1 !! 1 = Some th1) as Hth1 by (vm_compute; reflexivity).
  assert (loop_i th1 + Z.of_nat (Z.to_nat 1000000) ≤ 1000000)%Z as Hn
    by (rewrite Z2Nat.id by lia; cbn [loop_i th1]; lia).
  assert (0 ≤ loop_i th1)%Z as H0 by (cbn [loop_i th1]; lia).
  pose proof (cpu_loop_run LockFree 1 (mkOracle 0 "") (Z.to_nat 1000000)
                s1 th1 Hth1 eq_refl H0 Hn eq_refl) as Hloop.
  rewrite Hloop, Z2Nat.id by lia.
  vm_compute; reflexivity.
Qed.

(** X9. In the sync.Map server the stats handler loads the counter and
    counts the records in two separate steps, so its response can show
    more records than requests: there is a schedule whose stats response
    says [total_requests = 0] and [data_size = 1]. (The two servers with a
    mutex never do that.) *)
Theorem syncmap_stats_can_lag :
  ∃ evs t tot n,
    (Z.of_nat (length evs) ≤ GoInt.max_int)%Z
    ∧ (t, StatsResponse tot n) ∈ responses (run LockFree evs NewRepository)
    ∧ (tot < n)%Z.
Proof.
  exists stats_overtaken, 0, 0%Z, 1%Z. split; [|split; [|lia]].
  - unfold stats_overtaken. rewrite !length_app, !repeat_length.
    rewrite !Nat2Z.inj_add, Z2Nat.id by lia.
    cbn [length]. unfold GoInt.max_int. lia.
  - rewrite stats_overtaken_state. apply list_elem_of_further, list_elem_of_here.
Qed.

(** ** The heavy work and the mutex *)

Definition is_heavy (i : instr) : bool :=
  match i with
  | ISleep | ICpuInit | ICpuNext => true
  | _ => false
  end.

Lemma heavy_unlocked σ h n i :
  σ ≠ HeldLock → handler σ h !! n = Some i → is_heavy i = true →
  locked_after (take n (handler σ h)) = false.
Proof.
  intros Hσ. revert Hσ.
  by_positions σ h n (intros Hσ H; simplify_eq; done).
Qed.

Lemma heavy_locked h n i :
  handler HeldLock h !! n = Some i → is_heavy i = true →
  locked_after (take n (handler HeldLock h)) = true.
Proof.
  destruct h; do 14 (destruct n as [|n]; [by intros [= <-]|]); done.
Qed.

(** Two requests to the good server, both taken to their CPU loop. *)
Definition two_in_the_loop : list event :=
  [Request Process; Request Process]
  ++ repeat (Run 0 (mkOracle 0 "")) 10 ++ repeat (Run 1 (mkOracle 0 "")) 10.

(** X10. In the good and sync.Map servers the sleep and the CPU loop run
    without the mutex: a goroutine that is there holds no lock and its next
    statement can always run, whatever the others do; and in the good
    server two requests can be in their CPU loops at the same time. In the
    bad server a goroutine that sleeps or computes holds the mutex, so no
    two goroutines are ever there together. *)
Theorem heavy_work_is_not_serialised :
  (∀ σ evs t th i o,
     σ ≠ HeldLock →
     threads (run σ evs NewRepository) !! t = Some th →
     next_instr σ th = Some i → is_heavy i = true →
     holds_lock σ th = false
     ∧ is_Some (exec σ (Run t o) (run σ evs NewRepository)))
  ∧ (∃ evs th1 th2,
      threads (run MinimalLock evs NewRepository) !! 0 = Some th1
      ∧ threads (run MinimalLock evs NewRepository) !! 1 = Some th2
      ∧ next_instr MinimalLock th1 = Some ICpuNext
      ∧ next_instr MinimalLock th2 = Some ICpuNext)
  ∧ (∀ evs t1 t2 th1 th2 i1 i2,
       threads (run HeldLock evs NewRepository) !! t1 = Some th1 →
       threads (run HeldLock evs NewRepository) !! t2 = Some th2 →
       next_instr HeldLock th1 = Some i1 → is_heavy i1 = true →
       next_instr HeldLock th2 = Some i2 → is_heavy i2 = true →
       t1 = t2).
Proof.
  split; [|split].
  - intros σ evs t th i o Hσ Hth Hi Hh. split.
    + by eapply heavy_unlocked.
    + apply (exec_enabled σ _ t th i); [apply run_reachable_init|done|done|].
      by destruct i.
  - exists two_in_the_loop. eexists _, _.
    split; [vm_compute; reflexivity|]. split; [vm_compute; reflexivity|].
    split; reflexivity.
  - intros evs t1 t2 th1 th2 i1 i2 Hth1 Hth2 Hi1 Hh1 Hi2 Hh2.
    apply (mutex_unique _ _ (mutex_invariant _ _ (run_reachable_init HeldLock evs))
             t1 t2 th1 th2 Hth1 Hth2).
    + by eapply heavy_locked.
    + by eapply heavy_locked.
Qed.

(** ** Every request comes to its end *)

(** A schedule in which only goroutine [t] runs. *)
Definition only (t : nat) (evs : list event) : Prop :=
  Forall (λ e, ∃ o, e = Run t o) evs.

(** The goroutine can take the mutex when it needs it: the mutex is free,
    or the goroutine holds it. *)
Definition unhindered (σ : strategy) (s : state) (th : thread) : Prop :=
  mu s = false ∨ holds_lock σ th = true.

(** Where goroutine [t] is after some steps of its own. *)
Definition reaches (σ : strategy) (s : state) (t : nat) (th : thread)
    (n : nat) : Prop :=
  ∃ evs th', only t evs
    ∧ threads (run σ evs s) !! t = Some th'
    ∧ th_route th' = th_route th ∧ pc th' = n
    ∧ unhindered σ (run σ evs s) th'.

Lemma run_cons σ e evs s :
  run σ (e :: evs) s = run σ evs (exec_or_stay σ s e).
Proof. done. Qed.

Lemma exec_or_stay_Some σ s e s' :
  exec σ e s = Some s' → exec_or_stay σ s e = s'.
Proof. intros E. unfold exec_or_stay. by rewrite E. Qed.

Lemma unhindered_step σ i t o th s s' th' :
  reachable σ s → exec_instr i t o th s = Some s' →
  threads s !! t = Some th → next_instr σ th = Some i →
  threads s' !! t = Some th' →
  unhindered σ s th → unhindered σ s' th'.
Proof.
  intros Hs Hex Hth Hi Hth' Hu.
  destruct (exec_instr_threads _ _ _ _ _ _ Hex) as (th'' & Hths & Hr & Hpc).
  rewrite Hths, list_lookup_insert_eq in Hth' by (by eapply lookup_lt_Some).
  assert (th'' = th') as -> by congruence.
  pose proof (exec_instr_mu _ _ _ _ _ _ Hex) as Hmu.
  pose proof (holds_lock_step σ th th' i Hi Hr Hpc) as Hh.
  unfold unhindered in *. rewrite Hh.
  destruct i; simpl in *; try (by destruct Hmu; auto);
    rewrite Hmu; destruct Hu; auto.
Qed.

(** One statement that is not a loop. *)
Lemma solo_one σ s t th i :
  reachable σ s → threads s !! t = Some th → next_instr σ th = Some i →
  is_loop i = false → unhindered σ s th →
  reaches σ s t th (S (pc th)).
Proof.
  intros Hs Hth Hi Hl Hu.
  assert (enabled i (mkOracle 0 "") th s) as Hen.
  { destruct i; try done. simpl. destruct Hu as [?|Hh]; [done|].
    apply lock_when_free in Hi. unfold holds_lock, executed in Hh. congruence. }
  apply (exec_enabled σ s t th i (mkOracle 0 "") Hs Hth Hi) in Hen as [s' E].
  assert (exec_instr i t (mkOracle 0 "") th s = Some s') as Hex
    by (simpl in E; by rewrite Hth, Hi in E).
  destruct (exec_instr_self _ _ _ _ _ _ Hex Hth) as [th' Hth'].
  destruct (exec_instr_threads _ _ _ _ _ _ Hex) as (th'' & Hths & Hr & Hpc).
  assert (th'' = th') as ->.
  { rewrite Hths, list_lookup_insert_eq in Hth' by (by eapply lookup_lt_Some).
    congruence. }
  exists [Run t (mkOracle 0 "")], th'.
  rewrite run_cons, (exec_or_stay_Some _ _ _ _ E). simpl.
  split; [repeat constructor; eauto|]. split; [done|]. split; [done|].
  split; [destruct Hpc as [?|[_ ?]]; congruence|].
  by eapply unhindered_step.
Qed.

Lemma only_repeat t o n : only t (repeat (Run t o) n).
Proof.
  induction n as [|n IH]; simpl; constructor; eauto.
Qed.

(** The CPU loop, from wherever it is. *)
Lemma solo_cpu σ s t th :
  reachable σ s → threads s !! t = Some th →
  next_instr σ th = Some ICpuNext → unhindered σ s th →
  reaches σ s t th (S (pc th)).
Proof.
  intros Hs Hth Hi Hu.
  destruct (local_loop _ _ (locals_invariant _ _ _ _ Hs Hth) Hi) as [Hb Hres].
  set (o := mkOracle 0 "").
  set (n := Z.to_nat (1000000 - loop_i th)).
  pose proof (cpu_loop_run σ t o n s th Hth Hi ltac:(lia) ltac:(lia) Hres)
    as Hloop.
  replace (loop_i th + Z.of_nat n)%Z with 1000000%Z in Hloop by lia.
  set (th1 := with_loop_i 1000000
                (with_result (1000000 * (1000000 - 1) / 2) th)) in *.
  set (s1 := put_thread t th1 s) in *.
  assert (threads s1 !! t = Some th1) as Hth1.
  { simpl. apply list_lookup_insert_eq. by eapply lookup_lt_Some. }
  assert (exec σ (Run t o) s1 = Some (put_thread t (advance th1) s1)) as E.
  { cbn [exec]. rewrite Hth1.
    replace (next_instr σ th1) with (Some ICpuNext) by done. done. }
  exists (repeat (Run t o) n ++ [Run t o]), (advance th1).
  rewrite run_app, Hloop, run_cons, (exec_or_stay_Some _ _ _ _ E).
  split; [apply Forall_app; split; [apply only_repeat|repeat constructor; eauto]|].
  split.
  { simpl. rewrite list_insert_insert_eq.
    apply list_lookup_insert_eq. by eapply lookup_lt_Some. }
  split; [done|]. split; [done|].
  destruct Hu as [Hm|Hh]; [by left|right].
  rewrite <- Hh. unfold holds_lock.
  rewrite (executed_advance σ th1 (advance th1) ICpuNext) by done.
  rewrite locked_after_snoc. done.
Qed.

(** A range loop: the scheduler offers the keys that are left one after
    the other, then a key the map does not have. *)
Lemma solo_range σ i n : ∀ s t th,
  size (pending th) = n →
  reachable σ s → threads s !! t = Some th → next_instr σ th = Some i →
  is_loop i = true → i ≠ ICpuNext → unhindered σ s th →
  reaches σ s t th (S (pc th)).
Proof.
  induction n as [|n IH]; intros s t th Hsz Hs Hth Hi Hl Hcpu Hu.
  - apply size_empty_inv, leibniz_equiv in Hsz.
    set (o := mkOracle 0 (fresh (dom (rdata s)))).
    assert (¬ may_visit (o_key o) th s) as Hno.
    { intros [Hk|[Hk _]]; simpl in Hk.
      - rewrite Hsz in Hk. by apply not_elem_of_empty in Hk.
      - by apply is_fresh in Hk. }
    assert (enabled i o th s) as Hen by (destruct i; try done; by right).
    apply (exec_enabled σ s t th i o Hs Hth Hi) in Hen as [s' E].
    assert (exec_instr i t o th s = Some s') as Hex
      by (simpl in E; by rewrite Hth, Hi in E).
    destruct (exec_instr_self _ _ _ _ _ _ Hex Hth) as [th' Hth'].
    destruct (exec_instr_threads _ _ _ _ _ _ Hex) as (th'' & Hths & Hr & _).
    assert (th'' = th') as ->.
    { rewrite Hths, list_lookup_insert_eq in Hth' by (by eapply lookup_lt_Some).
      congruence. }
    pose proof (exec_instr_range _ _ _ _ _ _ _ Hex Hth Hth') as Hrange.
    exists [Run t o], th'.
    rewrite run_cons, (exec_or_stay_Some _ _ _ _ E). simpl.
    split; [repeat constructor; eauto|]. split; [done|]. split; [done|].
    split; [|by eapply unhindered_step].
    destruct i; try done; simpl in Hrange;
      destruct Hrange as [(? & _)|(_ & ? & _)]; done.
  - assert (pending th ≠ ∅) as Hne.
    { intros He. rewrite He, size_empty in Hsz. lia. }
    apply set_choose_L in Hne as [k Hk].
    set (o := mkOracle 0 k).
    assert (enabled i o th s) as Hen
      by (destruct i; try done; left; by left).
    apply (exec_enabled σ s t th i o Hs Hth Hi) in Hen as [s' E].
    assert (exec_instr i t o th s = Some s') as Hex
      by (simpl in E; by rewrite Hth, Hi in E).
    destruct (exec_instr_self _ _ _ _ _ _ Hex Hth) as [th' Hth'].
    destruct (exec_instr_threads _ _ _ _ _ _ Hex) as (th'' & Hths & Hr & _).
    assert (th'' = th') as ->.
    { rewrite Hths, list_lookup_insert_eq in Hth' by (by eapply lookup_lt_Some).
      congruence. }
    pose proof (exec_instr_range _ _ _ _ _ _ _ Hex Hth Hth') as Hrange.
    assert (pc th' = pc th ∧ pending th' = pending th ∖ {[k]}) as [Hpc Hpe].
    { destruct i; try done; simpl in Hrange;
        destruct Hrange as [(_ & He & _)|(? & _ & ? & _)]; try done;
        rewrite He in Hk; by apply not_elem_of_empty in Hk. }
    assert (reachable σ s') as Hs' by (by eapply reachable_step).
    destruct (IH s' t th') as (evs & th2 & Hon & Hth2 & Hr2 & Hpc2 & Hu2).
    + rewrite Hpe, size_difference by (by apply singleton_subseteq_l).
      rewrite size_singleton. lia.
    + done.
    + done.
    + unfold next_instr in *. by rewrite Hr, Hpc.
    + done.
    + done.
    + exact (unhindered_step σ i t o th s s' th' Hs Hex Hth Hi Hth' Hu).
    + exists (Run t o :: evs), th2.
      rewrite run_cons, (exec_or_stay_Some _ _ _ _ E).
      split; [constructor; eauto|]. split; [done|].
      split; [congruence|]. split; [congruence|done].
Qed.

Lemma solo_advance σ s t th i :
  reachable σ s → threads s !! t = Some th → next_instr σ th = Some i →
  unhindered σ s th → reaches σ s t th (S (pc th)).
Proof.
  intros Hs Hth Hi Hu. destruct (is_loop i) eqn:El.
  - destruct (decide (i = ICpuNext)) as [->|Hne].
    + by apply solo_cpu.
    + by eapply (solo_range σ i).
  - by eapply solo_one.
Qed.

Lemma solo_finish σ k : ∀ s t th,
  length (handler σ (th_route th)) - pc th = k →
  reachable σ s → threads s !! t = Some th → unhindered σ s th →
  ∃ evs th', only t evs ∧ threads (run σ evs s) !! t = Some th'
             ∧ returned σ th' ∧ unhindered σ (run σ evs s) th'.
Proof.
  induction k as [|k IH]; intros s t th Hk Hs Hth Hu.
  - exists [], th. split; [constructor|]. split; [done|]. split; [|done].
    unfold returned, next_instr. apply lookup_ge_None. lia.
  - destruct (lookup_lt_is_Some_2 (handler σ (th_route th)) (pc th))
      as [i Hi]; [lia|].
    destruct (solo_advance σ s t th i Hs Hth Hi Hu)
      as (evs1 & th1 & Hon1 & Hth1 & Hr1 & Hpc1 & Hu1).
    destruct (IH (run σ evs1 s) t th1) as (evs2 & th2 & Hon2 & Hth2 & Hret & Hu2).
    + rewrite Hr1, Hpc1. lia.
    + by apply run_reachable.
    + done.
    + done.
    + exists (evs1 ++ evs2), th2. rewrite run_app.
      split; [by apply Forall_app|done].
Qed.

(** X11. Every request can be served to its end: after any schedule, a
    goroutine for which the mutex is free (or that holds it) returns after
    finitely many steps of its own, whatever the size of [r.data] and
    wherever it is in its handler; nothing in a handler loops for ever or
    waits for something that does not come. *)
Theorem requests_terminate σ evs t th :
  threads (run σ evs NewRepository) !! t = Some th →
  mu (run σ evs NewRepository) = false ∨ holds_lock σ th = true →
  ∃ evs' th', only t evs'
    ∧ threads (run σ evs' (run σ evs NewRepository)) !! t = Some th'
    ∧ returned σ th'
    ∧ mu (run σ evs' (run σ evs NewRepository)) = false.
Proof.
  intros Hth Hu. pose proof (run_reachable_init σ evs) as Hs.
  destruct (solo_finish σ _ _ t th eq_refl Hs Hth Hu)
    as (evs' & th' & Hon & Hth' & Hret & Hu').
  exists evs', th'. split; [done|]. split; [done|]. split; [done|].
  destruct Hu' as [?|Hh]; [done|].
  by rewrite returned_unlocked in Hh.
Qed.

Lemma requests_terminate_witness :
  ∃ evs' th', only 0 evs'
    ∧ threads (run MinimalLock evs'
                 (run MinimalLock [Request Process] NewRepository)) !! 0
      = Some th'
    ∧ returned MinimalLock th'
    ∧ mu (run MinimalLock evs'
            (run MinimalLock [Request Process] NewRepository)) = false.
Proof.
  apply (requests_terminate MinimalLock [Request Process] 0 (new_thread Process)).
  - reflexivity.
  - left. reflexivity.
Defined.

Global Instance returned_dec σ th : Decision (returned σ th).
Proof. unfold returned. apply _. Defined.

(** A schedule without new requests. *)
Definition no_request (evs : list event) : Prop :=
  Forall (λ e, ∃ t o, e = Run t o) evs.

Lemma only_no_request t evs : only t evs → no_request evs.
Proof. intros H. eapply Forall_impl; [exact H|]. intros e [o ->]. eauto. Qed.

Lemma only_run σ t evs : ∀ s,
  only t evs → t < length (threads s) →
  ∃ th', threads (run σ evs s) = <[t := th']> (threads s).
Proof.
  induction evs as [|e evs IH]; intros s Hon Hlt.
  - destruct (lookup_lt_is_Some_2 _ _ Hlt) as [th Hth].
    exists th. simpl. by rewrite list_insert_id.
  - apply Forall_cons in Hon as [[o ->] Hon]. rewrite run_cons.
    unfold exec_or_stay. destruct (exec σ (Run t o) s) as [s1|] eqn:E; simpl.
    + simpl in E. destruct (threads s !! t) as [th|] eqn:Eth; [|done].
      destruct (next_instr σ th) as [i|] eqn:Ei; [|done].
      destruct (exec_instr_threads _ _ _ _ _ _ E) as (th1 & Hths & _).
      destruct (IH s1 Hon) as [th' Hth'].
      { by rewrite Hths, length_insert. }
      exists th'. by rewrite Hth', Hths, list_insert_insert_eq.
    + by apply IH.
Qed.

Lemma no_request_length σ evs : ∀ s,
  no_request evs → length (threads (run σ evs s)) = length (threads s).
Proof.
  induction evs as [|e evs IH]; intros s Hno; [done|].
  apply Forall_cons in Hno as [(t & o & ->) Hno]. rewrite run_cons, IH by done.
  unfold exec_or_stay. destruct (exec σ (Run t o) s) as [s1|] eqn:E; simpl; [|done].
  simpl in E. destruct (threads s !! t) as [th|] eqn:Eth; [|done].
  destruct (next_instr σ th) as [i|] eqn:Ei; [|done].
  destruct (exec_instr_threads _ _ _ _ _ _ E) as (th1 & -> & _).
  by rewrite length_insert.
Qed.

Lemma filter_length_all {A} (P : A → Prop) `{!∀ x, Decision (P x)} (l : list A) :
  length (filter P l) = length l → Forall P l.
Proof.
  induction l as [|a l IH]; intros Hl; [constructor|].
  rewrite filter_cons in Hl. pose proof (length_filter P l) as Hle.
  destruct (decide (P a)); simpl in Hl; [|lia].
  constructor; [done|]. apply IH. lia.
Qed.

Lemma filter_length_Forall {A} (P : A → Prop) `{!∀ x, Decision (P x)} (l : list A) :
  Forall P l → length (filter P l) = length l.
Proof.
  induction 1 as [|a l Ha _ IH]; [done|].
  rewrite filter_cons, decide_True by done. simpl. by rewrite IH.
Qed.

Lemma filter_length_some {A} (P : A → Prop) `{!∀ x, Decision (P x)} (l : list A) :
  length (filter P l) < length l → ∃ t x, l !! t = Some x ∧ ¬ P x.
Proof.
  induction l as [|a l IH]; intros Hl; simpl in Hl; [lia|].
  rewrite filter_cons in Hl.
  destruct (decide (P a)) as [Ha|Ha]; simpl in Hl.
  - destruct IH as (t & x & Hx & Hn); [lia|]. by exists (S t), x.
  - by exists 0, a.
Qed.

Lemma returned_responded σ th : returned σ th → responded σ th.
Proof.
  unfold returned, responded, next_instr, executed. intros Hr.
  apply lookup_ge_None in Hr. rewrite take_ge by done.
  destruct σ, (th_route th); apply (bool_decide_unpack _); vm_compute; exact I.
Qed.

(** From wherever the server is, the goroutines can be run to their ends
    one after the other, the one that holds the mutex first. *)
Lemma run_to_completion σ k : ∀ s,
  reachable σ s → length (threads s) - count (returned σ) s = k →
  ∃ evs, no_request evs
    ∧ (∀ t th, threads (run σ evs s) !! t = Some th → returned σ th)
    ∧ mu (run σ evs s) = false.
Proof.
  induction k as [|k IH]; intros s Hs Hk.
  - pose proof (length_filter (returned σ) (threads s)) as Hle.
    assert (Forall (returned σ) (threads s)) as Hall
      by (apply (filter_length_all (returned σ)); unfold count in Hk; lia).
    rewrite Forall_lookup in Hall.
    exists []. split; [constructor|]. split; [exact Hall|]. simpl.
    destruct (mu s) eqn:Emu; [|done].
    destruct (mutex_held _ _ (mutex_invariant _ _ Hs) Emu) as (t & th & Hth & Hl).
    rewrite returned_unlocked in Hl by (by eapply Hall). done.
  - assert (∃ t th, threads s !! t = Some th ∧ ¬ returned σ th
                    ∧ unhindered σ s th) as (t & th & Hth & Hnr & Hu).
    { destruct (mu s) eqn:Emu.
      - destruct (mutex_held _ _ (mutex_invariant _ _ Hs) Emu)
          as (t & th & Hth & Hl).
        exists t, th. split; [done|]. split; [|by right].
        intros Hr. by rewrite returned_unlocked in Hl.
      - destruct (filter_length_some (returned σ) (threads s))
          as (t & th & Hth & Hnr); [unfold count in Hk; lia|].
        exists t, th. split; [done|]. split; [done|by left]. }
    destruct (solo_finish σ _ s t th eq_refl Hs Hth Hu)
      as (evs1 & th1 & Hon & Hth1 & Hret & Hu1).
    destruct (only_run σ t evs1 s Hon) as [th' Hths];
      [by eapply lookup_lt_Some|].
    assert (th' = th1) as ->.
    { rewrite Hths, list_lookup_insert_eq in Hth1 by (by eapply lookup_lt_Some).
      congruence. }
    pose proof (count_insert (returned σ) (threads s) t th th1 Hth) as Hcount.
    rewrite <- Hths in Hcount.
    destruct (IH (run σ evs1 s)) as (evs2 & Hno2 & Hall & Hmu).
    + by apply run_reachable.
    + unfold count in *. rewrite Hths, length_insert. rewrite Hths in Hcount.
      pose proof (length_filter (returned σ) (threads s)).
      repeat case_decide; try done; lia.
    + exists (evs1 ++ evs2). rewrite run_app.
      split; [|done]. apply Forall_app. split; [by eapply only_no_request|done].
Qed.

(** X12. Every request can be answered. From wherever the server is after
    a schedule, there is a continuation without new requests after which
    every goroutine has returned, the mutex is free, and every request
    received has got exactly one response. *)
Theorem every_request_can_be_answered σ evs :
  ∃ evs', no_request evs'
    ∧ (∀ t th, threads (run σ (evs ++ evs') NewRepository) !! t = Some th →
               returned σ th)
    ∧ mu (run σ (evs ++ evs') NewRepository) = false
    ∧ length (threads (run σ (evs ++ evs') NewRepository))
      = length (threads (run σ evs NewRepository))
    ∧ length (responses (run σ (evs ++ evs') NewRepository))
      = length (threads (run σ evs NewRepository))
    ∧ NoDup (responses (run σ (evs ++ evs') NewRepository)).*1.
Proof.
  pose proof (run_reachable_init σ evs) as Hs.
  destruct (run_to_completion σ _ _ Hs eq_refl) as (evs' & Hno & Hall & Hmu).
  exists evs'. rewrite run_app. split; [done|]. split; [done|]. split; [done|].
  pose proof (no_request_length σ evs' (run σ evs NewRepository) Hno) as Hlen.
  split; [done|].
  destruct (responses_invariant σ (run σ evs' (run σ evs NewRepository)))
    as [_ Hnd Hcnt]; [by apply run_reachable|].
  split; [|done]. rewrite Hcnt, <- Hlen. unfold count.
  apply filter_length_Forall, Forall_lookup. intros t th Hth.
  apply returned_responded. by eapply Hall.
Qed.

(** ** Records are written once *)

Lemma record_kept σ s e s' k v :
  reachable σ s → ids_inv σ s → exec σ e s = Some s' →
  rdata s !! k = Some v →
  rdata s' !! k = Some v ∧ deref (structs s') v = deref (structs s) v.
Proof.
  intros Hs Hids He Hkv.
  destruct (exec_structs _ _ _ _ He) as [ds Hds].
  pose proof (heap_invariant _ _ Hs) as [_ _ _ Hp].
  split.
  - destruct e as [h|t o]; simpl in He; [by simplify_eq|].
    destruct (threads s !! t) as [th|] eqn:Eth; [|done].
    destruct (next_instr σ th) as [i|] eqn:Ei; [|done].
    rewrite (rdata_step _ _ _ _ _ _ _ Hs Eth Ei He).
    destruct (is_store i) eqn:Eis; [|by destruct i].
    pose proof (store_key_fresh _ _ _ _ _ Hs Hids Eth Ei Eis) as Hfresh.
    assert (k ≠ request_key (currentCounter th)) as Hne.
    { intros ->. apply Hfresh. by apply elem_of_dom. }
    destruct i; try done; rewrite lookup_insert_ne; try done.
    rewrite (local_key _ _ (locals_invariant _ _ _ _ Hs Eth)
               (store_struct_after_key _ _ _ Ei)).
    done.
  - rewrite Hds. apply deref_app. intros p ->.
    apply rdata_lookup in Hkv as (m & Hm & Hk).
    by eapply (ptrs_valid _ _ _ Hp).
Qed.



(** ** A snapshot holds copies of records *)

Lemma contents_kept σ s e s' k c :
  reachable σ s → ids_inv σ s → exec σ e s = Some s' →
  map_contents s 0 !! k = Some c → map_contents s' 0 !! k = Some c.
Proof.
  intros Hs Hids He. unfold map_contents. fold (rdata s) (rdata s').
  rewrite !lookup_fmap. intros (v & Hv & ->)%fmap_Some.
  destruct (record_kept σ s e s' k v Hs Hids He Hv) as [-> Hd].
  simpl. by rewrite Hd.
Qed.

(** The entries of the snapshot of goroutine [th] are records of
    [r.data]. *)
Definition snapshot_sound (s : state) (th : thread) : Prop :=
  ∀ k c, snapshot s th !! k = Some c → map_contents s 0 !! k = Some c.

Lemma snapshot_sound_step σ s t2 o th2 i s' t th' :
  reachable σ s → ids_inv σ s →
  (∀ t th, threads s !! t = Some th → IMakeCopy ∈ executed σ th →
           snapshot_sound s th) →
  threads s !! t2 = Some th2 → next_instr σ th2 = Some i →
  exec_instr i t2 o th2 s = Some s' →
  threads s' !! t = Some th' → IMakeCopy ∈ executed σ th' →
  snapshot_sound s' th'.
Proof.
  intros Hs Hids IH Hth2 Hi Hex Hth' Hmk'.
  pose proof (heap_invariant _ _ Hs) as [H1 H2 H3 Hp].
  assert (exec σ (Run t2 o) s = Some s') as E by (simpl; by rewrite Hth2, Hi).
  destruct (exec_instr_structs _ _ _ _ _ _ Hex) as [ds Hds].
  pose proof (exec_instr_store _ _ _ _ _ _ Hex) as Hstore.
  (* a copy that the step does not write *)
  assert (∀ th, threads s !! t = Some th → IMakeCopy ∈ executed σ th →
            dataCopy th' = dataCopy th →
            maps s' !! dataCopy th = maps s !! dataCopy th →
            snapshot_sound s' th') as Hframe.
  { intros th Hth Hmk Hdc Hm k c Hk.
    apply (contents_kept σ s _ s' k c Hs Hids E), (IH t th Hth Hmk).
    revert Hk. unfold snapshot, map_contents. rewrite Hdc, Hm, Hds.
    by rewrite (map_contents_alloc σ s ds _ Hp). }
  destruct (step_thread _ _ _ _ _ _ _ _ _ Hex Hth2 Hi Hth')
    as [[Hne Hold]|[-> [Hroute Hx]]].
  { apply (Hframe th' Hold Hmk' eq_refl).
    pose proof (H2 _ _ Hold Hmk') as Hdc.
    apply (exec_instr_frame _ _ _ _ _ _ _ Hex); [lia| |lia].
    intros d -> Heq. apply Hne. eapply (H3 t t2); eauto.
    by eapply range_after_make. }
  destruct (exec_instr_locals _ _ _ _ _ _ _ Hex Hth2 Hth') as (Hdc & _).
  destruct (decide (i = IMakeCopy)) as [->|Hnmk].
  { simpl in Hstore. destruct Hstore as [Hm Hd].
    intros k c Hk. exfalso. revert Hk.
    unfold snapshot, map_contents.
    rewrite Hdc, Hm, list_lookup_middle by done. simpl.
    by rewrite fmap_empty, lookup_empty. }
  assert (IMakeCopy ∈ executed σ th2) as Hmk
    by (by destruct (executed_mono _ _ _ _ _ _ _ _ _ Hex Hth2 Hi Hth' Hmk')).
  pose proof (H2 _ _ Hth2 Hmk) as Hdcb.
  destruct (decide (∃ d, i = IRangeNext d)) as [[d ->]|Hnr].
  - simpl in Hstore.
    destruct Hstore as [[Hm Hd]|(k0 & v & Hv & Hst)].
    { apply (Hframe th2 Hth2 Hmk Hdc). by rewrite Hm. }
    assert (∃ v', maps s' = alter (<[k0 := v']>) (dataCopy th2) (maps s)
                  ∧ deref (structs s') v' = deref (structs s) v)
      as (v' & Hm & Hv').
    { destruct d.
      - destruct Hst as (p & d0 & -> & Hd0 & Hd & Hm).
        exists (VPtr (length (structs s))). split; [done|].
        rewrite Hd. simpl. rewrite list_lookup_middle by done. by rewrite Hd0.
      - destruct Hst as [Hd Hm]. exists v. split; [done|]. by rewrite Hd. }
    destruct (map_contents_store σ s s' (dataCopy th2) k0 v' ds
                Hp Hm Hds ltac:(lia)) as [Hcopy Hother].
    intros k c. unfold snapshot. rewrite Hdc, Hcopy, Hv'.
    destruct (decide (k = k0)) as [->|Hnk].
    + rewrite lookup_insert_eq. intros [= <-].
      rewrite (Hother 0) by lia. unfold map_contents. fold (rdata s).
      by rewrite lookup_fmap, Hv.
    + rewrite lookup_insert_ne by done. intros Hk.
      rewrite (Hother 0) by lia. by apply (IH _ th2 Hth2 Hmk).
  - apply (Hframe th2 Hth2 Hmk Hdc).
    apply (exec_instr_frame _ _ _ _ _ _ _ Hex); [lia| |lia].
    intros d ->. exfalso. apply Hnr. eauto.
Qed.

Lemma snapshot_sound_run σ evs t th :
  (Z.of_nat (length evs) ≤ GoInt.max_int)%Z →
  threads (run σ evs NewRepository) !! t = Some th →
  IMakeCopy ∈ executed σ th →
  snapshot_sound (run σ evs NewRepository) th.
Proof.
  revert t th.
  induction evs as [|e evs IH] using rev_ind; intros t th Hb Hth Hmk.
  { simpl in Hth. by rewrite lookup_nil in Hth. }
  rewrite length_app in Hb; simpl in Hb. rewrite run_snoc in *.
  destruct (ids_run σ evs ltac:(lia)) as [Hids _].
  pose proof (run_reachable_init σ evs) as Hs.
  assert (∀ t th, threads (run σ evs NewRepository) !! t = Some th →
            IMakeCopy ∈ executed σ th →
            snapshot_sound (run σ evs NewRepository) th) as IH2
    by (intros t0 th0 ? ?; apply (IH t0 th0); [lia|done|done]).
  clear IH. set (s := run σ evs NewRepository) in *.
  unfold exec_or_stay in *.
  destruct (exec σ e s) as [s'|] eqn:E; simpl in *; [|by eapply IH2].
  destruct e as [h|t2 o]; simpl in E.
  { simplify_eq. simpl in Hth.
    apply lookup_new_thread in Hth as [Hth|[-> ->]].
    - intros k c Hk. by apply (IH2 t th Hth Hmk).
    - unfold executed in Hmk; simpl in Hmk. by apply elem_of_nil in Hmk. }
  destruct (threads s !! t2) as [th2|] eqn:Eth2; [|done].
  destruct (next_instr σ th2) as [i|] eqn:Ei; [|done].
  by eapply (snapshot_sound_step σ s t2 o th2 i s' t th).
Qed.

(** X14. On each of the three servers and along every schedule (of fewer
    than [2^63] events), whatever a snapshot [dataCopy] holds under a key
    is what [r.data] holds under that key (the same integer, or a
    [DataStruct] with the same fields): a snapshot never holds a key that
    [r.data] does not have, or stale contents. In the sync.Map server too,
    where the copy is made while other requests store. *)
Theorem snapshot_entries_are_records σ evs t th :
  (Z.of_nat (length evs) ≤ GoInt.max_int)%Z →
  threads (run σ evs NewRepository) !! t = Some th →
  IMakeCopy ∈ executed σ th →
  snapshot (run σ evs NewRepository) th
  ⊆ map_contents (run σ evs NewRepository) 0.
Proof.
  intros Hb Hth Hmk. apply map_subseteq_spec.
  by apply (snapshot_sound_run σ evs t th).
Qed.

(** On the sync.Map server: a first request is served alone to its end,
    and a second one ends its copy loop. *)
Definition syncmap_copy_made : list phase :=
  [ Steps (Request Process :: repeat (Run 0 (mkOracle 7 "")) 7);
    Loop 0 (mkOracle 7 "");
    Steps (repeat (Run 0 (mkOracle 7 "")) 4);
    Steps ([Request Process] ++ repeat (Run 1 (mkOracle 8 "request_1")) 6) ].

Lemma snapshot_entries_are_records_witness :
  snapshot (run LockFree (schedule syncmap_copy_made) NewRepository)
    (mkThread Process 5 8 2 2 ∅ {["request_1"]} 0 0 "" 0 0)
  ⊆ map_contents (run LockFree (schedule syncmap_copy_made) NewRepository) 0
  ∧ snapshot (run LockFree (schedule syncmap_copy_made) NewRepository)
      (mkThread Process 5 8 2 2 ∅ {["request_1"]} 0 0 "" 0 0)
    = {[ "request_1" := CStruct (mkDataStruct "request_1" "Request 1" true
                                   499999500000 7) ]}.
Proof.
  split.
  - apply (snapshot_entries_are_records LockFree (schedule syncmap_copy_made)
             1%nat).
    + rewrite schedule_length. by vm_compute.
    + rewrite run_schedule by (vm_compute; eauto). vm_compute. reflexivity.
    + apply (bool_decide_unpack _). by vm_compute.
  - rewrite run_schedule by (vm_compute; eauto). vm_compute. reflexivity.
Defined.

(** ** [/stats] only reads *)




(** ** One record for each request *)

Lemma only_map t evs : only t evs → ∃ os, evs = map (Run t) os.
Proof.
  induction 1 as [|e evs [o ->] _ [os ->]]; [by exists []|].
  by exists (o :: os).
Qed.

(** When every goroutine has returned, a request to [/stats] can be served
    to its end. *)
Lemma stats_can_be_served σ s :
  reachable σ s →
  (∀ t th, threads s !! t = Some th → returned σ th) →
  ∃ os th,
    threads (run σ (Request Stats :: map (Run (length (threads s))) os) s)
      !! length (threads s) = Some th
    ∧ returned σ th.
Proof.
  intros Hs Hq.
  assert (mu s = false) as Hmu.
  { destruct (mu s) eqn:Emu; [|done].
    destruct (mutex_held _ _ (mutex_invariant _ _ Hs) Emu) as (t & th & Hth & Hl).
    rewrite returned_unlocked in Hl by (by eapply Hq). done. }
  set (s1 := mkState (mu s) (counter s) (maps s) (structs s)
               (threads s ++ [new_thread Stats]) (responses s)).
  assert (reachable σ s1) as Hs1 by (by apply (reachable_step σ s (Request Stats))).
  destruct (solo_finish σ _ s1 (length (threads s)) (new_thread Stats) eq_refl Hs1)
    as (evs & th & Hon & Hth & Hret & _).
  { simpl. by rewrite list_lookup_middle. }
  { by left. }
  destruct (only_map _ _ Hon) as [os ->].
  exists os, th. by rewrite run_cons.
Qed.

(** C5. On each of the three servers and along every schedule (of fewer
    than [2^63] events): the handler has exactly one store statement; when
    a goroutine runs it, [r.data] gains exactly one key that was not there,
    ["request_<id>"] for the id of the request, and the record under it
    holds the result of the CPU loop, in a [DataStruct] object that nothing
    else points to; the number of records is the number of goroutines that
    have run their store statement; and once every goroutine has returned,
    that number is the number of requests to [/process], a request to
    [/stats] can then be served to its end, and whenever it is, it reports
    that number. *)
Theorem one_record_per_request σ evs :
  (Z.of_nat (length evs) ≤ GoInt.max_int)%Z →
  length (filter (λ i, is_store i = true) (handler σ Process)) = 1%nat
  ∧ (∀ t o th i,
       threads (run σ evs NewRepository) !! t = Some th →
       next_instr σ th = Some i → is_store i = true →
       ∃ s' v,
         exec σ (Run t o) (run σ evs NewRepository) = Some s'
         ∧ rdata s' = <[request_key (currentCounter th) := v]>
                        (rdata (run σ evs NewRepository))
         ∧ (request_key (currentCounter th)
              ∉ dom (rdata (run σ evs NewRepository)))
         ∧ record_ok (structs s') (request_key (currentCounter th))
             (currentCounter th) v
         ∧ ∀ p l m k, v = VPtr p → maps s' !! l = Some m →
             m !! k = Some (VPtr p) →
             l = 0%nat ∧ k = request_key (currentCounter th))
  ∧ size (rdata (run σ evs NewRepository))
    = stored_count σ (run σ evs NewRepository)
  ∧ ((∀ t th, threads (run σ evs NewRepository) !! t = Some th →
              returned σ th) →
     size (rdata (run σ evs NewRepository))
     = process_count (run σ evs NewRepository)
     ∧ (∃ os th,
          threads (run σ (Request Stats
                          :: map (Run (length (threads (run σ evs NewRepository)))) os)
                     (run σ evs NewRepository))
            !! length (threads (run σ evs NewRepository)) = Some th
          ∧ returned σ th)
     ∧ ∀ os th,
         threads (run σ (Request Stats
                         :: map (Run (length (threads (run σ evs NewRepository)))) os)
                    (run σ evs NewRepository))
           !! length (threads (run σ evs NewRepository)) = Some th →
         returned σ th →
         responses (run σ (Request Stats
                           :: map (Run (length (threads (run σ evs NewRepository)))) os)
                      (run σ evs NewRepository))
         = responses (run σ evs NewRepository)
           ++ [(length (threads (run σ evs NewRepository)),
                StatsResponse (counter (run σ evs NewRepository))
                  (Z.of_nat (process_count (run σ evs NewRepository))))]).
Proof.
  intros Hb. pose proof (run_reachable_init σ evs) as Hs.
  destruct (ids_run σ evs Hb) as [Hids _].
  pose proof (stored_count_run σ evs Hb) as Hsize.
  set (s := run σ evs NewRepository) in *.
  split; [by destruct σ|]. split; [|split; [done|]].
  - intros t o th i Hth Hi His.
    assert (∃ s', exec_instr i t o th s = Some s') as [s' Hex]
      by (destruct i; try done; simpl; eauto).
    destruct (store_writes_one_record _ _ _ _ _ _ _ Hs Hids Hth Hi His Hex)
      as (v & ? & ? & ? & ?).
    exists s', v. split; [simpl; by rewrite Hth, Hi|done].
  - intros Hq. rewrite <- (quiescent_count σ s Hq). split; [done|].
    split; [by apply stats_can_be_served|].
    intros os th Hth Hret. rewrite <- Hsize. apply (stats_alone σ s os th); try done.
    rewrite Hsize. unfold stored_count.
    pose proof (length_filter (stored σ) (threads s)).
    pose proof (threads_length_run σ evs NewRepository). simpl in *.
    fold s in H0. lia.
Qed.

(** The first request, up to its store statement. *)
Definition before_store : list phase :=
  [ Steps (Request Process :: repeat (Run 0 (mkOracle 7 "")) 10);
    Loop 0 (mkOracle 7 "");
    Steps (repeat (Run 0 (mkOracle 7 "")) 3) ].

Lemma one_record_per_request_witness :
  (∃ s' v,
     exec MinimalLock (Run 0 (mkOracle 7 ""))
       (run MinimalLock (schedule before_store) NewRepository) = Some s'
     ∧ rdata s' = {[ "request_1" := v ]}
     ∧ record_ok (structs s') "request_1" 1 v)
  ∧ size (rdata (run MinimalLock (schedule first_served) NewRepository)) = 1%nat
  ∧ ∃ os,
      responses (run MinimalLock (Request Stats :: map (Run 1) os)
                   (run MinimalLock (schedule first_served) NewRepository))
      = [(0%nat, ProcessResponse "good_no_defer" 1 499999500000 0);
         (1%nat, StatsResponse 1 1)].
Proof.
  assert (run MinimalLock (schedule before_store) NewRepository
          = mkState true 1 [∅; ∅] []
              [mkThread Process 13 7 1 1 ∅ ∅ 499999500000 1000000 "request_1" 0 0]
              []) as Hbefore.
  { rewrite run_schedule by (vm_compute; eauto). vm_compute. reflexivity. }
  assert (run MinimalLock (schedule first_served) NewRepository
          = mkState false 1 [{[ "request_1" := VPtr 0 ]}; ∅]
              [mkDataStruct "request_1" "Request 1" true 499999500000 7]
              [mkThread Process 16 7 1 1 ∅ ∅ 499999500000 1000000 "request_1" 0 0]
              [(0%nat, ProcessResponse "good_no_defer" 1 499999500000 0)])
    as Hserved.
  { rewrite run_schedule by (vm_compute; eauto). vm_compute. reflexivity. }
  split; [|split].
  - destruct (one_record_per_request MinimalLock (schedule before_store))
      as (_ & Hstore & _).
    { rewrite schedule_length. by vm_compute. }
    destruct (Hstore 0%nat (mkOracle 7 "")
                (mkThread Process 13 7 1 1 ∅ ∅ 499999500000 1000000 "request_1" 0 0)
                IStoreStruct) as (s' & v & Hex & Hdata & _ & Hok & _).
    { by rewrite Hbefore. }
    { reflexivity. }
    { reflexivity. }
    exists s', v. split; [exact Hex|]. rewrite Hbefore in Hdata.
    split; [exact Hdata|exact Hok].
  - destruct (one_record_per_request MinimalLock (schedule first_served))
      as (_ & _ & _ & Hall).
    { rewrite schedule_length. by vm_compute. }
    destruct Hall as (Hsize & _).
    { rewrite Hserved. intros [|t] th Hth; simpl in Hth; [|done].
      injection Hth as <-. reflexivity. }
    rewrite Hsize, Hserved. reflexivity.
  - destruct (one_record_per_request MinimalLock (schedule first_served))
      as (_ & _ & _ & Hall).
    { rewrite schedule_length. by vm_compute. }
    destruct Hall as (_ & (os & th & Hth & Hret) & Hstats).
    { rewrite Hserved. intros [|t] th Hth; simpl in Hth; [|done].
      injection Hth as <-. reflexivity. }
    exists os. rewrite Hserved in Hth, Hstats. simpl in Hth, Hstats.
    rewrite Hserved. exact (Hstats os th Hth Hret).
Defined.

(** * The load harness: [benchmarkServer] and [measureAverageLatency] *)

Module LoadGen.

(** What [client.Get] gives for one request: a response, with the time
    [time.Since(start)] measured around it in nanoseconds, or an error
    (connection refused, timeout). *)
Inductive outcome :=
  | Ok (elapsed : Z)
  | Failed (err : string).

(** The server and the network, as seen by worker [i] for its [j]-th
    request. *)
Definition network : Type := nat → nat → outcome.

(** A Go function returns, panics, or is stopped by the runtime when the
    allocator gets no memory (a fatal error, which is not a panic and
    cannot be recovered). *)
Inductive result (A : Type) :=
  | Returned (a : A)
  | Panic (msg : string)
  | OutOfMemory.
Global Arguments Returned {A} a.
Global Arguments Panic {A} msg.
Global Arguments OutOfMemory {A}.

Global Instance result_bind : MBind result := λ A B f r,
  match r with
  | Returned a => f a
  | Panic msg => Panic msg
  | OutOfMemory => OutOfMemory
  end.

(** What [make(chan T, n)] depends on in the Go runtime (64-bit):
    [maxAlloc], the size of the largest object the allocator supports
    ([2^48] bytes on linux/amd64); [hchanSize], the size of the header of
    a channel ([96] bytes, [104] since Go 1.23); and the number of bytes
    the allocator can still get when the channel is made. *)
Record runtime := mkRuntime {
  maxAlloc : Z;
  hchanSize : Z;
  available : Z
}.

(** [runtime.makechan] for elements of [elemsize] bytes without pointers:
    it panics when the capacity is negative, when the size of the buffer
    overflows a [uintptr] or exceeds [maxAlloc - hchanSize]; otherwise it
    allocates the header and the buffer in one object. *)
Definition makechan (rt : runtime) (elemsize size : Z) : result unit :=
  let mem := (elemsize * size)%Z in
  if ((size <? 0) || (2 ^ 64 <=? mem) || (maxAlloc rt - hchanSize rt <? mem))%Z
  then Panic "makechan: size out of range"
  else if (available rt <? hchanSize rt + mem)%Z then OutOfMemory
  else Returned ().

(** [unsafe.Sizeof(time.Duration(0))]: a [Duration] is an [int64]. *)
Definition sizeof_Duration : Z := 8.

(** [a / b] on [int]s. *)
Definition int_div (a b : Z) : result Z :=
  match GoInt.div a b with
  | Some q => Returned q
  | None => Panic "runtime error: integer divide by zero"
  end.

(** The indices of [for j := 0; j < n; j++]. *)
Definition iterations (n : Z) : list nat := seq 0 (Z.to_nat n).

(** What one worker goroutine has done: the requests it has sent, the
    samples it has put on the channel, the errors it has reported. *)
Record worker := mkWorker {
  calls : list nat;
  sent : list Z;
  errors : list string
}.

(** One iteration of the worker of [measureAverageLatency]. *)
Definition latency_iteration (net : nat → outcome) (w : worker) (j : nat) : worker :=
  match net j with
  | Ok elapsed => mkWorker (calls w ++ [j]) (sent w ++ [elapsed]) (errors w)
  | Failed _ => mkWorker (calls w ++ [j]) (sent w) (errors w)
  end.

(** One iteration of the worker of [benchmarkServer]. *)
Definition bench_iteration (net : nat → outcome) (w : worker) (j : nat) : worker :=
  match net j with
  | Failed err =>
      mkWorker (calls w ++ [j]) (sent w) (errors w ++ ["Request failed: " +:+ err])
  | Ok _ => mkWorker (calls w ++ [j]) (sent w) (errors w)
  end.

Definition run_worker (iteration : worker → nat → worker)
    (requestsPerGoroutine : Z) : worker :=
  foldl iteration (mkWorker [] [] []) (iterations requestsPerGoroutine).

(** [Duration.Milliseconds()]. *)
Definition Milliseconds (d : Z) : Z := Z.quot d 1000000.

(** A [float64] is an IEEE 754 binary64 number: 53 bits of mantissa,
    exponents below 1024. [float64(n)] and [x / y] round to the nearest
    number, ties to even. *)
Definition float64 : Type := spec_float.

Definition float64_of_int (z : Z) : float64 := binary_normalize 53 1024 z 0 false.

Definition float64_div (x y : float64) : float64 := SFdiv 53 1024 x y.

(** The number a finite [float64] stands for. *)
Definition float64_value (f : float64) : option Q :=
  match f with
  | S754_zero _ => Some 0%Q
  | S754_finite s m e => Some (inject_Z (cond_Zopp s (Z.pos m)) * 2 ^ e)%Q
  | _ => None
  end.

(** The end of [measureAverageLatency]: the loop over the closed channel,
    the test [count == 0] and the quotient. *)
Definition accumulate (acc : Z * Z) (latency : Z) : Z * Z :=
  (GoInt.wrap (fst acc + latency), GoInt.wrap (snd acc + 1)).

Definition summarize (latencies : list Z) : float64 :=
  let acc := foldl accumulate (0, 0)%Z latencies in
  if (snd acc =? 0)%Z then S754_zero false
  else float64_div (float64_of_int (Milliseconds (fst acc)))
         (float64_of_int (snd acc)).

(** What a run of the harness leaves behind. *)
Record report := mkReport {
  average : float64;
  workers : list worker
}.

(** [measureAverageLatency]: the channel is made first, then the share of
    a worker is computed, then the workers run. *)
Definition measureAverageLatency (rt : runtime) (net : network)
    (concurrency totalRequests : Z) : result report :=
  _ ← makechan rt sizeof_Duration totalRequests;
  requestsPerGoroutine ← int_div totalRequests concurrency;
  let ws := (λ i, run_worker (latency_iteration (net i)) requestsPerGoroutine)
            <$> iterations concurrency in
  Returned (mkReport (summarize (concat (sent <$> ws))) ws).

(** [benchmarkServer], with [N] for [b.N]; its two metrics are quotients
    by the wall-clock time of the run, which is not modelled. *)
Definition benchmarkServer (net : network) (concurrency N : Z)
    : result (list worker) :=
  requestsPerGoroutine ← int_div N concurrency;
  Returned ((λ i, run_worker (bench_iteration (net i)) requestsPerGoroutine)
            <$> iterations concurrency).

(** The arithmetic mean of the samples, in milliseconds: the mean the
    specification names. *)
Definition exact_mean_ms (latencies : list Z) : Q :=
  (inject_Z (foldr Z.add 0%Z latencies)
   / inject_Z (1000000 * Z.of_nat (length latencies)))%Q.

(** What the code divides: the whole milliseconds in the sum of the
    samples, by the number of samples. *)
Definition cut_mean_ms (latencies : list Z) : Q :=
  (inject_Z (Z.quot (foldr Z.add 0%Z latencies) 1000000)
   / inject_Z (Z.of_nat (length latencies)))%Q.

(** What returning the mean is for a [float64]: the number returned is the
    mean up to one unit in the last of its 53 bits. *)
Definition returns_the_mean (latencies : list Z) : Prop :=
  ∃ q, float64_value (summarize latencies) = Some q
       ∧ (Qabs (q - exact_mean_ms latencies) * inject_Z (2 ^ 52)
          <= exact_mean_ms latencies)%Q.

(** The sample a request contributes if it succeeds, the message it should
    leave if it fails. *)
Definition sample_of (o : outcome) : option Z :=
  match o with Ok elapsed => Some elapsed | Failed _ => None end.

Definition failure_of (o : outcome) : option string :=
  match o with Ok _ => None | Failed err => Some err end.

(** What the specification asks for bad arguments: neither a panic, nor a
    stop of the program, nor a returned statistic. *)
Definition rejected {A} (r : result A) : Prop :=
  (∀ msg, r ≠ Panic msg) ∧ r ≠ OutOfMemory ∧ (∀ a, r ≠ Returned a).

(** What the specification says of the shares: every worker gets
    [floor(totalRequests / concurrency)] requests, whatever
    [totalRequests >= 0] and [concurrency >= 1]. *)
Definition partitions_every_total (rt : runtime) : Prop :=
  ∀ (net : network) (concurrency totalRequests : Z),
    (0 ≤ totalRequests ≤ GoInt.max_int)%Z →
    (1 ≤ concurrency ≤ GoInt.max_int)%Z →
    ∃ r, measureAverageLatency rt net concurrency totalRequests = Returned r
         ∧ length (workers r) = Z.to_nat concurrency
         ∧ Forall (λ w, calls w = iterations (totalRequests `div` concurrency))
             (workers r).

(** linux/amd64 and a Go release before 1.23, with 16 GiB that the
    allocator can get. *)
Definition amd64 : runtime := mkRuntime (2 ^ 48) 96 (2 ^ 34).

End LoadGen.

Import LoadGen.

Lemma iterations_length n : length (iterations n) = Z.to_nat n.
Proof. unfold iterations. by rewrite length_seq. Qed.

(** A worker of [measureAverageLatency] sends each of its requests once,
    puts one sample on the channel for each success, none for a failure,
    and reports nothing. *)
Lemma latency_worker_spec net l w :
  let w' := foldl (latency_iteration net) w l in
  calls w' = calls w ++ l
  ∧ sent w' = sent w ++ omap (λ j, sample_of (net j)) l
  ∧ errors w' = errors w.
Proof.
  revert w. induction l as [|j l IH]; intros w; simpl.
  - by rewrite !app_nil_r.
  - destruct (IH (latency_iteration net w j)) as (-> & -> & ->).
    unfold latency_iteration. destruct (net j); simpl;
      by rewrite <- ?app_assoc.
Qed.

(** A worker of [benchmarkServer] sends each of its requests once and
    reports each failure with [b.Errorf]. *)
Lemma bench_worker_spec net l w :
  let w' := foldl (bench_iteration net) w l in
  calls w' = calls w ++ l
  ∧ sent w' = sent w
  ∧ errors w' = errors w
      ++ omap (λ j, (λ e, "Request failed: " +:+ e) <$> failure_of (net j)) l.
Proof.
  revert w. induction l as [|j l IH]; intros w; simpl.
  - by rewrite !app_nil_r.
  - destruct (IH (bench_iteration net w j)) as (-> & -> & ->).
    unfold bench_iteration. destruct (net j); simpl;
      by rewrite <- ?app_assoc.
Qed.

Lemma div_nonneg (a b : Z) :
  (0 ≤ a ≤ GoInt.max_int)%Z → (1 ≤ b)%Z →
  GoInt.div a b = Some (a `div` b)%Z.
Proof.
  intros Ha Hb. unfold GoInt.div.
  assert ((b =? 0)%Z = false) as -> by lia.
  rewrite Z.quot_div_nonneg by lia.
  rewrite wrap_in_range; [done|].
  assert (0 ≤ a `div` b ≤ a)%Z.
  { split; [apply Z.div_pos; lia|]. apply Z.div_le_upper_bound; nia. }
  unfold GoInt.in_range, GoInt.min_int, GoInt.max_int in *. lia.
Qed.

Lemma concat_calls_length (f : nat → worker) (l : list nat) (n : nat) :
  (∀ i, length (calls (f i)) = n) →
  length (concat (calls <$> (f <$> l))) = (length l * n)%nat.
Proof.
  intros Hf. induction l as [|i l IH]; csimpl; [done|].
  rewrite length_app, IH, Hf. lia.
Qed.

Lemma run_worker_latency net n :
  calls (run_worker (latency_iteration net) n) = iterations n
  ∧ sent (run_worker (latency_iteration net) n)
    = omap (λ j, sample_of (net j)) (iterations n)
  ∧ errors (run_worker (latency_iteration net) n) = [].
Proof. apply (latency_worker_spec net (iterations n) (mkWorker [] [] [])). Qed.

Lemma run_worker_bench net n :
  calls (run_worker (bench_iteration net) n) = iterations n
  ∧ sent (run_worker (bench_iteration net) n) = []
  ∧ errors (run_worker (bench_iteration net) n)
    = omap (λ j, (λ e, "Request failed: " +:+ e) <$> failure_of (net j))
        (iterations n).
Proof. apply (bench_worker_spec net (iterations n) (mkWorker [] [] [])). Qed.

(** When [make(chan time.Duration, n)] gives a channel. *)
Lemma makechan_Returned rt n :
  makechan rt sizeof_Duration n = Returned ()
  ↔ (0 ≤ n)%Z ∧ (8 * n < 2 ^ 64)%Z ∧ (8 * n ≤ maxAlloc rt - hchanSize rt)%Z
    ∧ (hchanSize rt + 8 * n ≤ available rt)%Z.
Proof.
  unfold makechan, sizeof_Duration.
  destruct (Z.ltb_spec n 0); simpl; [split; [done|lia]|].
  destruct (Z.leb_spec (2 ^ 64) (8 * n)); simpl; [split; [done|lia]|].
  destruct (Z.ltb_spec (maxAlloc rt - hchanSize rt) (8 * n)); simpl;
    [split; [done|lia]|].
  destruct (Z.ltb_spec (available rt) (hchanSize rt + 8 * n)); simpl;
    [split; [done|lia]|].
  split; [lia|done].
Qed.

(** [measureAverageLatency], step by step. *)
Lemma measure_cases rt net concurrency totalRequests :
  measureAverageLatency rt net concurrency totalRequests
  = match makechan rt sizeof_Duration totalRequests with
    | Returned _ =>
        match GoInt.div totalRequests concurrency with
        | Some n =>
            let ws := (λ i, run_worker (latency_iteration (net i)) n)
                      <$> iterations concurrency in
            Returned (mkReport (summarize (concat (sent <$> ws))) ws)
        | None => Panic "runtime error: integer divide by zero"
        end
    | Panic msg => Panic msg
    | OutOfMemory => OutOfMemory
    end.
Proof.
  unfold measureAverageLatency, int_div.
  destruct (makechan rt sizeof_Duration totalRequests) as [[]|msg|]; [|done..].
  by destruct (GoInt.div totalRequests concurrency).
Qed.

Lemma bench_cases net concurrency N :
  benchmarkServer net concurrency N
  = match GoInt.div N concurrency with
    | Some n =>
        Returned ((λ i, run_worker (bench_iteration (net i)) n)
                  <$> iterations concurrency)
    | None => Panic "runtime error: integer divide by zero"
    end.
Proof.
  unfold benchmarkServer, int_div. by destruct (GoInt.div N concurrency).
Qed.

(** C6, as stated, fails for [measureAverageLatency], on every runtime:
    it makes a channel of capacity [totalRequests] before anything else,
    and for [totalRequests = 2^61] the size of the buffer overflows; the
    call panics and no worker is started. *)
Lemma huge_total_starts_no_worker : ¬ (∃ rt, partitions_every_total rt).
Proof.
  intros [rt H].
  destruct (H (λ _ _, Ok 0) 1%Z (2 ^ 61)%Z) as (r & Hr & _);
    [by vm_compute|by vm_compute|].
  rewrite measure_cases in Hr. vm_compute in Hr. discriminate Hr.
Qed.

(** C6, amended. For [totalRequests >= 0] and [concurrency >= 1]:
    [benchmarkServer] starts [concurrency] workers and every worker sends
    exactly [floor(totalRequests / concurrency)] requests, so that
    [concurrency * floor(totalRequests / concurrency)] requests are sent in
    all, the remainder of the division being sent by nobody; and so does
    [measureAverageLatency] when the channel of capacity [totalRequests]
    can be made. When it cannot (the buffer is larger than the allocator
    supports, or than the memory left), [measureAverageLatency] panics or
    is stopped before it starts a worker. *)
Theorem requests_partitioned rt net concurrency totalRequests :
  (0 ≤ totalRequests ≤ GoInt.max_int)%Z →
  (1 ≤ concurrency ≤ GoInt.max_int)%Z →
  (∃ ws,
     benchmarkServer net concurrency totalRequests = Returned ws
     ∧ length ws = Z.to_nat concurrency
     ∧ Forall (λ w, calls w = iterations (totalRequests `div` concurrency)) ws
     ∧ Z.of_nat (length (concat (calls <$> ws)))
       = (concurrency * (totalRequests `div` concurrency))%Z)
  ∧ match makechan rt sizeof_Duration totalRequests with
    | Returned _ =>
        ∃ r,
          measureAverageLatency rt net concurrency totalRequests = Returned r
          ∧ length (workers r) = Z.to_nat concurrency
          ∧ Forall (λ w, calls w
                         = iterations (totalRequests `div` concurrency))
              (workers r)
          ∧ Z.of_nat (length (concat (calls <$> workers r)))
            = (concurrency * (totalRequests `div` concurrency))%Z
    | Panic msg =>
        measureAverageLatency rt net concurrency totalRequests = Panic msg
    | OutOfMemory =>
        measureAverageLatency rt net concurrency totalRequests = OutOfMemory
    end
  ∧ (concurrency * (totalRequests `div` concurrency)
     = totalRequests - totalRequests `mod` concurrency)%Z.
Proof.
  intros Ht Hc. rewrite measure_cases, bench_cases, div_nonneg by lia.
  set (share := (totalRequests `div` concurrency)%Z).
  assert (0 ≤ share)%Z as Hshare by (apply Z.div_pos; lia).
  split; [|split].
  - eexists. split; [done|].
    rewrite !length_fmap, !iterations_length. split; [done|]. split.
    + apply Forall_forall. intros w (i & -> & _)%list_elem_of_fmap.
      apply run_worker_bench.
    + rewrite (concat_calls_length _ _ (Z.to_nat share)).
      * rewrite iterations_length. lia.
      * intros i. destruct (run_worker_bench (net i) share) as [-> _].
        apply iterations_length.
  - destruct (makechan rt sizeof_Duration totalRequests) as [[]|msg|];
      [|done..].
    eexists. split; [done|]. cbn [workers].
    rewrite !length_fmap, !iterations_length. split; [done|]. split.
    + apply Forall_forall. intros w (i & -> & _)%list_elem_of_fmap.
      apply run_worker_latency.
    + rewrite (concat_calls_length _ _ (Z.to_nat share)).
      * rewrite iterations_length. lia.
      * intros i. destruct (run_worker_latency (net i) share) as [-> _].
        apply iterations_length.
  - subst share. rewrite (Z.div_mod totalRequests concurrency) at 2 by lia. lia.
Qed.

Lemma requests_partitioned_witness :
  ∃ r ws,
    measureAverageLatency amd64 (λ _ _, Ok 1000000) 3 10 = Returned r
    ∧ benchmarkServer (λ _ _, Ok 1000000) 3 10 = Returned ws
    ∧ calls <$> workers r = [[0; 1; 2]; [0; 1; 2]; [0; 1; 2]]%nat
    ∧ calls <$> ws = [[0; 1; 2]; [0; 1; 2]; [0; 1; 2]]%nat.
Proof.
  destruct (requests_partitioned amd64 (λ _ _, Ok 1000000) 3 10)
    as ((ws & Hws & _) & Hm & _); [by vm_compute|by vm_compute|].
  assert (makechan amd64 sizeof_Duration 10 = Returned ()) as Hch
    by reflexivity.
  rewrite Hch in Hm. destruct Hm as (r & Hr & _).
  exists r, ws. split; [exact Hr|]. split; [exact Hws|].
  vm_compute in Hr. vm_compute in Hws.
  injection Hr as <-. injection Hws as <-. split; reflexivity.
Defined.

Lemma wrap_range z : GoInt.in_range (GoInt.wrap z).
Proof.
  unfold GoInt.in_range, GoInt.wrap, GoInt.min_int, GoInt.max_int.
  pose proof (Z.mod_pos_bound (z + 9223372036854775808) 18446744073709551616).
  lia.
Qed.

Lemma wrap_add_l a b : GoInt.wrap (GoInt.wrap a + b) = GoInt.wrap (a + b).
Proof.
  unfold GoInt.wrap. f_equal.
  replace ((a + 9223372036854775808) `mod` 18446744073709551616
           - 9223372036854775808 + b + 9223372036854775808)%Z
    with ((a + 9223372036854775808) `mod` 18446744073709551616 + b)%Z by lia.
  rewrite Zplus_mod_idemp_l. f_equal. lia.
Qed.

(** The loop over the channel adds the samples up and counts them, modulo
    [2^64]. *)
Lemma accumulate_sum l a c :
  foldl accumulate (GoInt.wrap a, GoInt.wrap c) l
  = (GoInt.wrap (a + foldr Z.add 0%Z l),
     GoInt.wrap (c + Z.of_nat (length l))).
Proof.
  revert a c. induction l as [|d l IH]; intros a c; simpl.
  - by rewrite !Z.add_0_r.
  - unfold accumulate at 2; simpl. rewrite !wrap_add_l, IH.
    f_equal; f_equal; lia.
Qed.


(** ** [float64] arithmetic on integers *)

Lemma digits2_bounds p :
  (2 ^ (Z.pos (digits2_pos p) - 1) ≤ Z.pos p < 2 ^ Z.pos (digits2_pos p))%Z.
Proof.
  induction p as [p IH|p IH|]; cbn [digits2_pos].
  - rewrite Pos2Z.inj_succ, (Pos2Z.inj_xI p).
    replace (Z.succ (Z.pos (digits2_pos p)) - 1)%Z
      with (Z.succ (Z.pos (digits2_pos p) - 1))%Z by lia.
    rewrite !Z.pow_succ_r by lia.
    generalize dependent (2 ^ (Z.pos (digits2_pos p) - 1))%Z.
    generalize dependent (2 ^ Z.pos (digits2_pos p))%Z. lia.
  - rewrite Pos2Z.inj_succ, (Pos2Z.inj_xO p).
    replace (Z.succ (Z.pos (digits2_pos p)) - 1)%Z
      with (Z.succ (Z.pos (digits2_pos p) - 1))%Z by lia.
    rewrite !Z.pow_succ_r by lia.
    generalize dependent (2 ^ (Z.pos (digits2_pos p) - 1))%Z.
    generalize dependent (2 ^ Z.pos (digits2_pos p))%Z. lia.
  - simpl. lia.
Qed.

Lemma digits2_unique p d :
  (2 ^ (d - 1) ≤ Z.pos p < 2 ^ d)%Z → (0 < d)%Z → Z.pos (digits2_pos p) = d.
Proof.
  intros [Hlo Hhi] Hd. pose proof (digits2_bounds p) as [Hlo' Hhi'].
  assert (Z.pos (digits2_pos p) - 1 < d)%Z.
  { apply (Z.pow_lt_mono_r_iff 2); lia. }
  assert (d - 1 < Z.pos (digits2_pos p))%Z.
  { apply (Z.pow_lt_mono_r_iff 2); lia. }
  lia.
Qed.

Lemma digits_53 p :
  (4503599627370496 ≤ Z.pos p < 9007199254740992)%Z →
  digits2_pos p = 53%positive.
Proof.
  intros H. pose proof (digits2_unique p 53) as Hd.
  change (2 ^ (53 - 1))%Z with 4503599627370496%Z in Hd.
  change (2 ^ 53)%Z with 9007199254740992%Z in Hd.
  specialize (Hd H ltac:(lia)). congruence.
Qed.

Lemma digits_54 p :
  (9007199254740992 ≤ Z.pos p < 18014398509481984)%Z →
  digits2_pos p = 54%positive.
Proof.
  intros H. pose proof (digits2_unique p 54) as Hd.
  change (2 ^ (54 - 1))%Z with 9007199254740992%Z in Hd.
  change (2 ^ 54)%Z with 18014398509481984%Z in Hd.
  specialize (Hd H ltac:(lia)). congruence.
Qed.

(** Where the remainder [r] of a division by [d] lies. *)
Lemma new_location_spec d r :
  (0 < d)%Z → (0 ≤ r < d)%Z →
  (new_location d r = loc_Exact ∧ r = 0%Z)
  ∨ (new_location d r = loc_Inexact Lt ∧ (0 < 2 * r < d)%Z)
  ∨ (new_location d r = loc_Inexact Eq ∧ (2 * r = d)%Z)
  ∨ (new_location d r = loc_Inexact Gt ∧ (d < 2 * r)%Z).
Proof.
  intros Hd Hr. unfold new_location.
  destruct (Z.even d) eqn:Ed;
    unfold new_location_even, new_location_odd;
    (destruct (Z.eqb_spec r 0) as [->|Hr0]; [by left|right]).
  - destruct (Z.compare_spec (2 * r) d); [right; left|left|right; right];
      split; (done || lia).
  - assert (2 * r ≠ d)%Z as Hne.
    { intros <-. rewrite Z.even_mul in Ed. done. }
    destruct (Z.compare_spec (2 * r + 1) d); [left|left|right; right];
      split; (done || lia).
Qed.

(** The last step of [binary_round_aux]: a mantissa of 53 bits, or [2^53]
    after a carry. *)
Lemma round_last m e :
  (4503599627370496 ≤ m ≤ 9007199254740992)%Z → (-200 ≤ e ≤ 2)%Z →
  ∃ M E,
    (let '(mrs, e'') := shr_fexp 53 1024 m e loc_Exact in
     match shr_m mrs with
     | 0%Z => S754_zero false
     | Z.pos m => if (e'' <=? 1024 - 53)%Z then S754_finite false m e''
                  else S754_infinity false
     | Z.neg _ => S754_nan
     end) = S754_finite false M E
    ∧ (e ≤ E ≤ e + 1)%Z ∧ (Z.pos M * 2 ^ (E - e) = m)%Z
    ∧ (4503599627370496 ≤ Z.pos M < 9007199254740992)%Z.
Proof.
  intros Hm He. destruct m as [|p|p]; try lia.
  unfold shr_fexp, fexp, emin. cbn [Zdigits2 shr_record_of_loc].
  destruct (decide (Z.pos p < 9007199254740992)%Z) as [Hlt|Hge].
  - rewrite (digits_53 p) by lia.
    replace (Z.max (53 + e - 53) (3 - 1024 - 53) - e)%Z with 0%Z by lia.
    cbn [shr shr_m].
    assert ((e <=? 1024 - 53)%Z = true) as -> by lia.
    exists p, e. split; [done|]. rewrite Z.sub_diag. lia.
  - assert (p = 9007199254740992%positive) as -> by lia.
    change (digits2_pos 9007199254740992) with 54%positive.
    replace (Z.max (54 + e - 53) (3 - 1024 - 53) - e)%Z with 1%Z by lia.
    cbn [shr SpecFloat.iter_pos shr_1 shr_m orb].
    assert ((e + 1 <=? 1024 - 53)%Z = true) as -> by lia.
    exists 4503599627370496%positive, (e + 1)%Z. split; [done|].
    replace (e + 1 - e)%Z with 1%Z by lia. lia.
Qed.

Lemma shr_record_of_loc_m m l : shr_m (shr_record_of_loc m l) = m.
Proof. by destruct l as [|[]]. Qed.

Lemma loc_of_shr_record_of_loc m l :
  loc_of_shr_record (shr_record_of_loc m l) = l.
Proof. by destruct l as [|[]]. Qed.

(** Rounding the quotient [q + r/d] (of 53 or 54 bits) to nearest even:
    the result is a normal number within [2^-53] of the quotient,
    relatively. *)
Lemma round_quotient q e d r :
  (4503599627370496 ≤ q < 18014398509481984)%Z → (-198 ≤ e ≤ 0)%Z →
  (0 < d)%Z → (0 ≤ r < d)%Z →
  ∃ M E,
    binary_round_aux 53 1024 false q e (new_location d r)
    = S754_finite false M E
    ∧ (e ≤ E ≤ e + 2)%Z
    ∧ (9007199254740992 * Z.abs (Z.pos M * 2 ^ (E - e) * d - (q * d + r))
       ≤ q * d)%Z.
Proof.
  intros Hq He Hd Hr. unfold binary_round_aux.
  pose proof (new_location_spec d r Hd Hr) as Hloc.
  destruct q as [|pq|pq]; try lia.
  destruct (decide (Z.pos pq < 9007199254740992)%Z) as [Hlt|Hge].
  - (* 53 bits: no shift before rounding *)
    unfold shr_fexp at 1. unfold fexp, emin. cbn [Zdigits2].
    rewrite (digits_53 pq) by lia.
    replace (Z.max (53 + e - 53) (3 - 1024 - 53) - e)%Z with 0%Z by lia.
    cbn [shr]. rewrite shr_record_of_loc_m, loc_of_shr_record_of_loc.
    set (q1 := round_nearest_even (Z.pos pq) (new_location d r)).
    assert ((q1 = Z.pos pq ∨ q1 = Z.pos pq + 1)%Z
            ∧ (2 * Z.abs (q1 * d - (Z.pos pq * d + r)) ≤ d)%Z) as [Hq1 Herr].
    { subst q1.
      destruct Hloc as [[-> ->]|[[-> ?]|[[-> ?]|[-> ?]]]];
        cbn [round_nearest_even]; try (split; [auto|nia]).
      destruct (Z.even (Z.pos pq)); split; auto; nia. }
    destruct (round_last q1 e) as (M & E & -> & HE & HM & _); [lia|lia|].
    exists M, E. split; [done|]. split; [lia|]. rewrite HM. nia.
  - (* 54 bits: one shift before rounding *)
    unfold shr_fexp at 1. unfold fexp, emin. cbn [Zdigits2].
    rewrite (digits_54 pq) by lia.
    replace (Z.max (54 + e - 53) (3 - 1024 - 53) - e)%Z with 1%Z by lia.
    cbn [shr SpecFloat.iter_pos].
    set (rec := shr_1 (shr_record_of_loc (Z.pos pq) (new_location d r))).
    set (p1 := round_nearest_even (shr_m rec) (loc_of_shr_record rec)).
    assert ((4503599627370496 ≤ p1 ≤ 9007199254740992)%Z
            ∧ (Z.abs (2 * p1 * d - (Z.pos pq * d + r)) ≤ d)%Z) as [Hp1 Herr].
    { subst p1 rec.
      destruct pq as [p|p|]; [| |lia].
      - destruct Hloc as [[-> ->]|[[-> ?]|[[-> ?]|[-> ?]]]];
          cbn [shr_record_of_loc shr_1 shr_m loc_of_shr_record orb
               round_nearest_even];
          rewrite ?(Pos2Z.inj_xI p) in *; try (split; lia).
        destruct (Z.even (Z.pos p)); split; lia.
      - destruct Hloc as [[-> ->]|[[-> ?]|[[-> ?]|[-> ?]]]];
          cbn [shr_record_of_loc shr_1 shr_m loc_of_shr_record orb
               round_nearest_even];
          rewrite ?(Pos2Z.inj_xO p) in *; split; lia. }
    destruct (round_last p1 (e + 1)) as (M & E & -> & HE & HM & _); [lia|lia|].
    exists M, E. split; [done|]. split; [lia|].
    replace (E - e)%Z with (Z.succ (E - (e + 1)))%Z by lia.
    rewrite Z.pow_succ_r by lia.
    replace (Z.pos M * (2 * 2 ^ (E - (e + 1))))%Z
      with (2 * (Z.pos M * 2 ^ (E - (e + 1))))%Z by lia.
    rewrite HM. nia.
Qed.

Lemma round_exact m e :
  (4503599627370496 ≤ Z.pos m < 9007199254740992)%Z → (-198 ≤ e ≤ 0)%Z →
  binary_round_aux 53 1024 false (Z.pos m) e loc_Exact = S754_finite false m e.
Proof.
  intros Hm He. unfold binary_round_aux, shr_fexp, fexp, emin.
  cbn [Zdigits2 shr_record_of_loc]. rewrite (digits_53 m) by lia.
  replace (Z.max (53 + e - 53) (3 - 1024 - 53) - e)%Z with 0%Z by lia.
  cbn [shr shr_m loc_of_shr_record round_nearest_even Zdigits2
       shr_record_of_loc].
  rewrite (digits_53 m) by lia.
  replace (Z.max (53 + e - 53) (3 - 1024 - 53) - e)%Z with 0%Z by lia.
  cbn [shr shr_m]. by assert ((e <=? 1024 - 53)%Z = true) as -> by lia.
Qed.

Lemma iter_xO p k : Z.pos (Pos.iter xO p k) = (Z.pos p * 2 ^ Z.pos k)%Z.
Proof.
  induction k as [|k IH] using Pos.peano_ind.
  - simpl. lia.
  - rewrite Pos.iter_succ, (Pos2Z.inj_xO (Pos.iter xO p k)), IH,
      Pos2Z.inj_succ, Z.pow_succ_r by lia. lia.
Qed.

(** An integer below [2^53] is a [float64]: the conversion is exact. *)
Lemma float64_of_int_exact a :
  (0 < a < 9007199254740992)%Z →
  ∃ m e, float64_of_int a = S754_finite false m e
         ∧ (4503599627370496 ≤ Z.pos m < 9007199254740992)%Z
         ∧ (-52 ≤ e ≤ 0)%Z
         ∧ Z.pos m = (a * 2 ^ (- e))%Z.
Proof.
  intros Ha. destruct a as [|p|p]; try lia.
  unfold float64_of_int, binary_normalize, binary_round, fexp, emin.
  pose proof (digits2_bounds p) as Hdg.
  set (dg := Z.pos (digits2_pos p)) in *.
  assert (1 ≤ dg ≤ 53)%Z as Hdg53.
  { split; [subst dg; lia|].
    destruct (decide (dg ≤ 53)%Z) as [|Hn]; [done|exfalso].
    assert (2 ^ 53 ≤ 2 ^ (dg - 1))%Z by (apply Z.pow_le_mono_r; lia).
    change (2 ^ 53)%Z with 9007199254740992%Z in *. lia. }
  replace (Z.max (dg + 0 - 53) (3 - 1024 - 53))%Z with (dg - 53)%Z by lia.
  unfold shl_align.
  destruct (dg - 53 - 0)%Z as [|k|k] eqn:Ek; try lia.
  - assert (dg = 53%Z) as Hd by lia. rewrite Hd in Hdg.
    change (2 ^ (53 - 1))%Z with 4503599627370496%Z in Hdg.
    change (2 ^ 53)%Z with 9007199254740992%Z in Hdg.
    rewrite round_exact by lia. exists p, 0%Z. split; [done|]. simpl. lia.
  - assert (Z.pos k = 53 - dg)%Z as Hk by lia.
    assert (2 ^ (dg - 1) * 2 ^ Z.pos k = 4503599627370496)%Z as Hlo.
    { rewrite <- Z.pow_add_r by lia.
      replace (dg - 1 + Z.pos k)%Z with 52%Z by lia. done. }
    assert (2 ^ dg * 2 ^ Z.pos k = 9007199254740992)%Z as Hhi.
    { rewrite <- Z.pow_add_r by lia.
      replace (dg + Z.pos k)%Z with 53%Z by lia. done. }
    assert (0 < 2 ^ Z.pos k)%Z as Hpos by (apply Z.pow_pos_nonneg; lia).
    pose proof (iter_xO p k) as Hm.
    rewrite round_exact by (rewrite ?Hm; nia || lia).
    exists (Pos.iter xO p k), (dg - 53)%Z. split; [done|].
    split; [rewrite Hm; nia|]. split; [lia|].
    rewrite Hm. by replace (- (dg - 53))%Z with (Z.pos k) by lia.
Qed.

(** Dividing two integers below [2^53] as [float64]s gives the quotient,
    rounded to 53 bits: a finite number [M * 2^E] within [2^-53] of the
    quotient, relatively. *)
Lemma float64_div_int a b :
  (0 < a < 9007199254740992)%Z → (0 < b < 9007199254740992)%Z →
  ∃ M E K,
    float64_div (float64_of_int a) (float64_of_int b) = S754_finite false M E
    ∧ (0 ≤ K)%Z ∧ (0 ≤ E + K)%Z
    ∧ (9007199254740992 * Z.abs (Z.pos M * 2 ^ (E + K) * b - a * 2 ^ K)
       ≤ a * 2 ^ K)%Z.
Proof.
  intros Ha Hb.
  destruct (float64_of_int_exact a Ha) as (ma & ea & -> & Hma & Hea & Ema).
  destruct (float64_of_int_exact b Hb) as (mb & eb & -> & Hmb & Heb & Emb).
  unfold float64_div, SFdiv, SFdiv_core_binary, fexp, emin.
  cbn [Zdigits2 xorb]. rewrite (digits_53 ma), (digits_53 mb) by lia.
  replace (Z.min (Z.max (53 + ea - (53 + eb) - 53) (3 - 1024 - 53)) (ea - eb))
    with (ea - eb - 53)%Z by lia.
  replace (ea - eb - (ea - eb - 53))%Z with 53%Z by lia.
  rewrite Z.shiftl_mul_pow2 by lia.
  change (2 ^ 53)%Z with 9007199254740992%Z.
  pose proof (Z_div_mod (Z.pos ma * 9007199254740992) (Z.pos mb) ltac:(lia))
    as Hdiv.
  destruct (Z.div_eucl (Z.pos ma * 9007199254740992) (Z.pos mb)) as [q r].
  destruct Hdiv as [Hqr Hr].
  assert (4503599627370496 ≤ q < 18014398509481984)%Z as Hq by nia.
  destruct (round_quotient q (ea - eb - 53) (Z.pos mb) r Hq)
    as (M & E & -> & HE & Herr); [lia|lia|lia|].
  set (K := (53 + eb - ea)%Z).
  exists M, E, K. split; [done|]. split; [lia|]. split; [lia|].
  replace (E - (ea - eb - 53))%Z with (E + K)%Z in Herr by lia.
  replace (q * Z.pos mb + r)%Z with (Z.pos ma * 9007199254740992)%Z
    in Herr by lia.
  assert (0 < 2 ^ (- ea))%Z as Hpa by (apply Z.pow_pos_nonneg; lia).
  assert (0 < 2 ^ (- eb))%Z as Hpb by (apply Z.pow_pos_nonneg; lia).
  assert (0 < 2 ^ K)%Z as HpK by (apply Z.pow_pos_nonneg; lia).
  assert (9007199254740992 * 2 ^ (- ea) = 2 ^ K * 2 ^ (- eb))%Z as Hpow.
  { change 9007199254740992%Z with (2 ^ 53)%Z.
    rewrite <- !Z.pow_add_r by lia. f_equal. lia. }
  assert (q * Z.pos mb ≤ Z.pos ma * 9007199254740992)%Z as Hle by lia.
  rewrite Ema, Emb in Herr, Hle.
  set (N := (Z.pos M * 2 ^ (E + K))%Z) in *.
  set (Pa := (2 ^ (- ea))%Z) in *. set (Pb := (2 ^ (- eb))%Z) in *.
  set (PK := (2 ^ K)%Z) in *.
  assert (N * (b * Pb) - a * Pa * 9007199254740992
          = Pb * (N * b - a * PK))%Z as Heq by nia.
  assert (a * Pa * 9007199254740992 = Pb * (a * PK))%Z as Heq2 by nia.
  rewrite Heq in Herr. rewrite Heq2 in Hle.
  rewrite Z.abs_mul, (Z.abs_eq Pb) in Herr by lia.
  assert (Pb * (9007199254740992 * Z.abs (N * b - a * PK)) ≤ Pb * (a * PK))%Z
    as Hfin by lia.
  by apply Z.mul_le_mono_pos_l in Hfin.
Qed.

Lemma fraction_close (N P a b : Z) :
  (0 < P)%Z → (0 < b)%Z → (0 ≤ a)%Z →
  (9007199254740992 * Z.abs (N * b - a * P) ≤ a * P)%Z →
  (Qabs (inject_Z N / inject_Z P - inject_Z a / inject_Z b)
   * inject_Z 9007199254740992
   <= inject_Z a / inject_Z b)%Q.
Proof.
  intros HP Hb Ha H.
  destruct P as [|p|p]; try lia. destruct b as [|pb|pb]; try lia.
  rewrite <- !Qmake_Qdiv.
  unfold Qle, Qabs, Qminus, Qplus, Qopp, Qmult, inject_Z.
  cbn [Qnum Qden]. rewrite !Pos2Z.inj_mul, !Z.mul_1_r.
  replace (N * Z.pos pb + - a * Z.pos p)%Z with (N * Z.pos pb - a * Z.pos p)%Z
    by lia.
  nia.
Qed.

Lemma float64_value_scaled (M : positive) (E K : Z) :
  (0 ≤ K)%Z → (0 ≤ E + K)%Z →
  (inject_Z (Z.pos M) * 2 ^ E
   == inject_Z (Z.pos M * 2 ^ (E + K)) / inject_Z (2 ^ K))%Q.
Proof.
  intros HK HEK.
  assert (¬ (2 == 0)%Q) as H2 by done.
  rewrite inject_Z_mult, !Zpower_Qpower by lia.
  change (inject_Z 2) with 2%Q.
  rewrite Qpower_plus by done.
  field; by apply Qpower_not_0.
Qed.

(** Dividing two integers below [2^53] as [float64]s gives a finite,
    positive number within [2^-53] of the quotient, relatively. *)
Lemma float64_div_rounds a b :
  (0 < a < 9007199254740992)%Z → (0 < b < 9007199254740992)%Z →
  ∃ q, float64_value (float64_div (float64_of_int a) (float64_of_int b))
       = Some q
       ∧ (0 < q)%Q
       ∧ (Qabs (q - inject_Z a / inject_Z b) * inject_Z 9007199254740992
          <= inject_Z a / inject_Z b)%Q.
Proof.
  intros Ha Hb.
  destruct (float64_div_int a b Ha Hb) as (M & E & K & -> & HK & HEK & Herr).
  eexists. split; [reflexivity|]. cbn [cond_Zopp]. split.
  - apply Qmult_lt_0_compat; [done|by apply Qpower_0_lt].
  - rewrite (float64_value_scaled M E K HK HEK).
    apply fraction_close; try lia; apply Z.pow_pos_nonneg; lia.
Qed.

(** ** What [summarize] returns *)

(** On a non-empty set of samples whose sum fits an [int64], the loop has
    the sum and the number of the samples, and the quotient is taken. *)
Lemma summarize_quotient latencies :
  latencies ≠ [] → GoInt.in_range (foldr Z.add 0%Z latencies) →
  (Z.of_nat (length latencies) ≤ GoInt.max_int)%Z →
  summarize latencies
  = float64_div (float64_of_int (Milliseconds (foldr Z.add 0%Z latencies)))
      (float64_of_int (Z.of_nat (length latencies))).
Proof.
  intros Hne Hsum Hlen. unfold summarize.
  change (0, 0)%Z with (GoInt.wrap 0, GoInt.wrap 0). rewrite accumulate_sum.
  cbn [fst snd]. rewrite !Z.add_0_l.
  rewrite (wrap_in_range (foldr Z.add 0%Z latencies)) by done.
  rewrite wrap_in_range
    by (unfold GoInt.in_range, GoInt.min_int, GoInt.max_int in *; lia).
  assert (Z.of_nat (length latencies) ≠ 0)%Z as Hn
    by (destruct latencies; simpl; [done|lia]).
  by assert ((Z.of_nat (length latencies) =? 0)%Z = false) as -> by lia.
Qed.

(** [Milliseconds] drops what is left of the sum below one millisecond. *)
Lemma milliseconds_truncates d :
  (0 ≤ d)%Z →
  (1000000 * Milliseconds d ≤ d < 1000000 * Milliseconds d + 1000000)%Z.
Proof.
  intros Hd. unfold Milliseconds. rewrite Z.quot_div_nonneg by lia.
  pose proof (Z.mul_div_le d 1000000 ltac:(lia)).
  pose proof (Z.mul_succ_div_gt d 1000000 ltac:(lia)). lia.
Qed.

(** The number returned is the cut mean, up to the rounding of the
    division: less than [2^-53] of it, relatively. *)
Lemma summarize_value latencies :
  latencies ≠ [] →
  (0 ≤ foldr Z.add 0 latencies ≤ GoInt.max_int)%Z →
  (Z.of_nat (length latencies) < 2 ^ 53)%Z →
  ∃ q, float64_value (summarize latencies) = Some q
       ∧ (0 <= q)%Q
       ∧ (Qabs (q - cut_mean_ms latencies) * inject_Z (2 ^ 53)
          <= cut_mean_ms latencies)%Q.
Proof.
  intros Hne Hsum Hlen.
  change (2 ^ 53)%Z with 9007199254740992%Z in *.
  rewrite summarize_quotient; [|done| |];
    [|unfold GoInt.in_range, GoInt.min_int, GoInt.max_int in *; lia..].
  unfold cut_mean_ms. fold (Milliseconds (foldr Z.add 0%Z latencies)).
  pose proof (milliseconds_truncates _ (proj1 Hsum)) as Hms.
  set (ms := Milliseconds (foldr Z.add 0%Z latencies)) in *.
  assert (0 < Z.of_nat (length latencies))%Z as Hn
    by (destruct latencies; simpl; [done|lia]).
  set (n := Z.of_nat (length latencies)) in *.
  destruct (decide (ms = 0%Z)) as [->|Hms0].
  - destruct (float64_of_int_exact n ltac:(lia)) as (m & e & -> & _).
    exists 0%Q. split; [done|]. split; [done|].
    unfold Qdiv. rewrite Qmult_0_l. done.
  - destruct (float64_div_rounds ms n) as (q & Hq & Hq0 & Hclose);
      [unfold GoInt.max_int in *; lia..|].
    exists q. split; [done|]. split; [by apply Qlt_le_weak|done].
Qed.

(** C7, as stated, fails: with one sample of [999999] nanoseconds the mean
    is [0.999999] millisecond and [summarize] returns [0]. *)
Lemma summarize_is_not_the_mean :
  ¬ (∀ latencies, latencies ≠ [] → returns_the_mean latencies).
Proof.
  intros H. destruct (H [999999%Z] ltac:(done)) as (q & Hq & Hle).
  vm_compute in Hq. injection Hq as <-.
  vm_compute in Hle. by apply Hle.
Qed.

(** C7, amended. On the empty set of samples [summarize] is [0]: the test
    [count == 0] returns before the division, which would give
    not-a-number. On a non-empty set of samples whose sum fits an [int64]
    it is the quotient, as [float64]s, of the whole milliseconds in the sum
    of the durations by the number of samples: for non-negative samples, a
    finite number within [2^-53] (relatively) of the cut mean, which is not
    the arithmetic mean. *)
Theorem summarize_is_cut_mean latencies :
  summarize [] = S754_zero false
  ∧ float64_div (float64_of_int (Milliseconds 0)) (float64_of_int 0) = S754_nan
  ∧ (latencies ≠ [] →
     GoInt.in_range (foldr Z.add 0%Z latencies) →
     (Z.of_nat (length latencies) ≤ GoInt.max_int)%Z →
     summarize latencies
     = float64_div
         (float64_of_int (Milliseconds (foldr Z.add 0%Z latencies)))
         (float64_of_int (Z.of_nat (length latencies))))
  ∧ (latencies ≠ [] →
     (0 ≤ foldr Z.add 0 latencies ≤ GoInt.max_int)%Z →
     (Z.of_nat (length latencies) < 2 ^ 53)%Z →
     ∃ q, float64_value (summarize latencies) = Some q
          ∧ (0 <= q)%Q
          ∧ (Qabs (q - cut_mean_ms latencies) * inject_Z (2 ^ 53)
             <= cut_mean_ms latencies)%Q).
Proof.
  split; [done|]. split; [done|]. split.
  - apply summarize_quotient.
  - apply summarize_value.
Qed.

(** Four samples of [0.4] millisecond: the mean is [0.4], the sum is [1.6]
    millisecond, cut to [1], and [summarize] returns [0.25]. *)
Lemma summarize_is_cut_mean_witness :
  summarize [400000; 400000; 400000; 400000]%Z
  = S754_finite false 4503599627370496 (-54)
  ∧ (inject_Z 4503599627370496 * 2 ^ (-54) == 1 # 4)%Q
  ∧ (cut_mean_ms [400000; 400000; 400000; 400000]%Z == 1 # 4)%Q
  ∧ (exact_mean_ms [400000; 400000; 400000; 400000]%Z == 2 # 5)%Q
  ∧ ∃ q, float64_value (summarize [400000; 400000; 400000; 400000]%Z) = Some q
         ∧ (0 <= q)%Q
         ∧ (Qabs (q - cut_mean_ms [400000; 400000; 400000; 400000]%Z)
            * inject_Z (2 ^ 53)
            <= cut_mean_ms [400000; 400000; 400000; 400000]%Z)%Q.
Proof.
  destruct (summarize_is_cut_mean [400000; 400000; 400000; 400000]%Z)
    as (_ & _ & Hquot & Hval).
  split; [|split; [by vm_compute|split; [by vm_compute|split; [by vm_compute|]]]].
  - rewrite Hquot; [by vm_compute|done|by vm_compute|by vm_compute].
  - apply Hval; [done|by vm_compute|by vm_compute].
Defined.

Lemma sum_perm (l l' : list Z) :
  l ≡ₚ l' → foldr Z.add 0%Z l = foldr Z.add 0%Z l'.
Proof. induction 1; simpl; lia. Qed.

(** The order in which the samples of the workers reach the channel does
    not matter. *)
Lemma summarize_perm l l' : l ≡ₚ l' → summarize l = summarize l'.
Proof.
  intros Hp. unfold summarize.
  change (0, 0)%Z with (GoInt.wrap 0, GoInt.wrap 0).
  by rewrite !accumulate_sum, (sum_perm _ _ Hp), (Permutation_length Hp).
Qed.

(** What [measureAverageLatency] does with each request, whatever its
    arguments: worker [i] sends its requests once each, in order; the
    successful ones, and only they, give a sample; nothing is reported for
    the others. *)
Lemma measure_workers rt net concurrency totalRequests r i w :
  measureAverageLatency rt net concurrency totalRequests = Returned r →
  workers r !! i = Some w →
  NoDup (calls w)
  ∧ sent w = omap (λ j, sample_of (net i j)) (calls w)
  ∧ errors w = []
  ∧ average r = summarize (concat (sent <$> workers r)).
Proof.
  rewrite measure_cases.
  destruct (makechan rt sizeof_Duration totalRequests) as [[]|msg|]; [|done..].
  destruct (GoInt.div totalRequests concurrency) as [n|]; [|done].
  intros [= <-]. simpl. intros Hw.
  apply list_lookup_fmap_Some in Hw as (i' & -> & Hi').
  unfold iterations in Hi'. apply lookup_seq in Hi' as [-> _]. simpl.
  destruct (run_worker_latency (net i) n) as (Hc & Hs & He).
  rewrite Hc at 1 2. split; [apply NoDup_seq|]. by rewrite <- Hs.
Qed.

(** One request, to a server that is not listening. *)
Definition server_down : network := λ _ _, Failed "connection refused".

(** C8, at the failing input: [measureAverageLatency] sends the request
    once, gets the error, keeps no sample and reports nothing (it returns
    [0]); [benchmarkServer], on the same input, reports the error. *)
Theorem failed_request_not_reported :
  measureAverageLatency amd64 server_down 1 1
    = Returned (mkReport (S754_zero false) [mkWorker [0%nat] [] []])
  ∧ benchmarkServer server_down 1 1
    = Returned [mkWorker [0%nat] [] ["Request failed: connection refused"]].
Proof. split; reflexivity. Qed.

Lemma concat_nil_all {A} (L : list (list A)) :
  Forall (λ l, l = []) L → concat L = [].
Proof. induction 1 as [|l L -> _ IH]; simpl; [done|by rewrite IH]. Qed.

(** C9, as stated, fails: the code never rejects its arguments. *)
Lemma bad_arguments_not_rejected :
  ¬ (∀ (rt : runtime) (net : network) (concurrency totalRequests : Z),
       (concurrency ≤ 0)%Z ∨ totalRequests = 0%Z →
       rejected (measureAverageLatency rt net concurrency totalRequests)).
Proof.
  intros H.
  destruct (H amd64 server_down (-1)%Z 100%Z ltac:(left; lia)) as (_ & _ & Hr).
  by apply (Hr (mkReport (S754_zero false) [])).
Qed.

(** What the code does with the kinds of bad arguments. *)
Lemma bad_arguments_behaviour :
  measureAverageLatency amd64 server_down 0 100
    = Panic "runtime error: integer divide by zero"
  ∧ benchmarkServer server_down 0 100
    = Panic "runtime error: integer divide by zero"
  ∧ measureAverageLatency amd64 server_down (-1) 100
    = Returned (mkReport (S754_zero false) [])
  ∧ measureAverageLatency amd64 server_down 2 0
    = Returned (mkReport (S754_zero false) [mkWorker [] [] []; mkWorker [] [] []])
  ∧ measureAverageLatency amd64 server_down 2 (-1)
    = Panic "makechan: size out of range"
  ∧ measureAverageLatency amd64 server_down 0 (-1)
    = Panic "makechan: size out of range"
  ∧ measureAverageLatency amd64 server_down (-1) (2 ^ 45)
    = Panic "makechan: size out of range"
  ∧ measureAverageLatency amd64 server_down (-1) (2 ^ 40) = OutOfMemory.
Proof. repeat split; reflexivity. Qed.

(** C9, amended. [measureAverageLatency] checks nothing. For
    [concurrency <= 0] or [totalRequests = 0]: it first makes the channel
    of capacity [totalRequests], and panics or is stopped there if that
    cannot be made; then, for [concurrency = 0], it panics in the division;
    otherwise it sends no request, reports no error and returns the
    statistic [0]. *)
Theorem bad_arguments_give_zero rt net concurrency totalRequests :
  (concurrency ≤ 0)%Z ∨ totalRequests = 0%Z →
  match makechan rt sizeof_Duration totalRequests with
  | Returned _ =>
      if decide (concurrency = 0%Z)
      then measureAverageLatency rt net concurrency totalRequests
           = Panic "runtime error: integer divide by zero"
      else ∃ ws, measureAverageLatency rt net concurrency totalRequests
                 = Returned (mkReport (S754_zero false) ws)
                 ∧ Forall (λ w, w = mkWorker [] [] []) ws
  | Panic msg =>
      measureAverageLatency rt net concurrency totalRequests = Panic msg
  | OutOfMemory =>
      measureAverageLatency rt net concurrency totalRequests = OutOfMemory
  end.
Proof.
  intros H. rewrite measure_cases.
  destruct (makechan rt sizeof_Duration totalRequests) as [[]|msg|]; [|done..].
  unfold GoInt.div. case_decide as Hc.
  { by assert ((concurrency =? 0)%Z = true) as -> by lia. }
  assert ((concurrency =? 0)%Z = false) as -> by lia.
  eexists. split.
  - f_equal. f_equal. destruct H as [Hneg| ->].
    + unfold iterations.
      by assert (Z.to_nat concurrency = 0%nat) as -> by lia.
    + rewrite Z.quot_0_l by lia. rewrite concat_nil_all; [done|].
      apply Forall_fmap, Forall_fmap, Forall_forall. by intros i _.
  - destruct H as [Hneg| ->].
    + unfold iterations.
      assert (Z.to_nat concurrency = 0%nat) as -> by lia. constructor.
    + rewrite Z.quot_0_l by lia. apply Forall_fmap, Forall_forall. by intros i _.
Qed.

Lemma bad_arguments_give_zero_witness :
  ∃ ws, measureAverageLatency amd64 server_down (-5) 100
          = Returned (mkReport (S754_zero false) ws)
        ∧ Forall (λ w, w = mkWorker [] [] []) ws.
Proof.
  apply (bad_arguments_give_zero amd64 server_down (-5) 100). left. lia.
Defined.

Lemma omap_length_le {A B} (f : A → option B) (l : list A) :
  (length (omap f l) ≤ length l)%nat.
Proof.
  induction l as [|a l IH]; csimpl; [done|].
  destruct (f a); simpl; lia.
Qed.

(** The channel of [measureAverageLatency] has room for every sample:
    no worker ever blocks on its send. *)
Lemma samples_fit_the_channel rt net concurrency totalRequests r :
  (0 ≤ totalRequests ≤ GoInt.max_int)%Z →
  (1 ≤ concurrency ≤ GoInt.max_int)%Z →
  measureAverageLatency rt net concurrency totalRequests = Returned r →
  (Z.of_nat (length (concat (sent <$> workers r))) ≤ totalRequests)%Z.
Proof.
  intros Ht Hc Hr.
  assert (length (concat (sent <$> workers r))
          ≤ length (concat (calls <$> workers r)))%nat as Hle.
  { assert (∀ i w, workers r !! i = Some w →
              (length (sent w) ≤ length (calls w))%nat) as Hw.
    { intros i w Hi.
      destruct (measure_workers _ _ _ _ _ _ _ Hr Hi) as (_ & -> & _).
      apply omap_length_le. }
    revert Hw. generalize (workers r). clear.
    intros l. induction l as [|w l IH]; intros Hw; csimpl; [done|].
    rewrite !length_app. pose proof (Hw 0%nat w eq_refl).
    specialize (IH (λ i, Hw (S i))). lia. }
  set (share := (totalRequests `div` concurrency)%Z).
  assert (0 ≤ share)%Z as Hshare by (apply Z.div_pos; lia).
  assert (Z.of_nat (length (concat (calls <$> workers r)))
          = concurrency * share)%Z as Hcalls.
  { rewrite measure_cases in Hr.
    destruct (makechan rt sizeof_Duration totalRequests) as [[]|msg|];
      [|done..].
    rewrite div_nonneg in Hr by lia. injection Hr as <-. cbn [workers].
    rewrite (concat_calls_length _ _ (Z.to_nat share)).
    - rewrite iterations_length. lia.
    - intros i. fold share.
      destruct (run_worker_latency (net i) share) as [-> _].
      apply iterations_length. }
  pose proof (Z.mul_div_le totalRequests concurrency ltac:(lia)).
  subst share. lia.
Qed.

(** * Further properties of the load harness *)

(** X16. When the channel of capacity [totalRequests] can be made and
    [concurrency >= 1], [measureAverageLatency] returns, and the samples
    its workers send are never more than the requests sent, which are
    never more than [totalRequests], the capacity of the channel
    [latencies]: no worker ever blocks on its send, so [wg.Wait()] is
    always reached. *)
Theorem channel_has_room rt net concurrency totalRequests :
  makechan rt sizeof_Duration totalRequests = Returned () →
  (1 ≤ concurrency ≤ GoInt.max_int)%Z →
  ∃ r, measureAverageLatency rt net concurrency totalRequests = Returned r
       ∧ (Z.of_nat (length (concat (sent <$> workers r))) ≤ totalRequests)%Z
       ∧ Forall (λ w, length (sent w) ≤ length (calls w)) (workers r).
Proof.
  intros Hch Hc.
  assert (0 ≤ totalRequests ≤ GoInt.max_int)%Z as Ht.
  { apply makechan_Returned in Hch as (? & Hlt & _).
    change (2 ^ 64)%Z with 18446744073709551616%Z in Hlt.
    unfold GoInt.max_int. lia. }
  assert (∃ r, measureAverageLatency rt net concurrency totalRequests = Returned r)
    as [r Hr].
  { rewrite measure_cases, Hch, div_nonneg by lia. eauto. }
  exists r. split; [done|]. split; [by eapply samples_fit_the_channel|].
  apply Forall_lookup. intros i w Hi.
  destruct (measure_workers _ _ _ _ _ _ _ Hr Hi) as (_ & -> & _).
  apply omap_length_le.
Qed.

Lemma channel_has_room_witness :
  ∃ r, measureAverageLatency amd64
         (λ _ j, if decide (j = 1) then Failed "timeout" else Ok 2000000)
         3 10 = Returned r
       ∧ (Z.of_nat (length (concat (sent <$> workers r))) ≤ 10)%Z
       ∧ Forall (λ w, length (sent w) ≤ length (calls w)) (workers r).
Proof.
  apply (channel_has_room amd64
           (λ _ j, if decide (j = 1) then Failed "timeout" else Ok 2000000)
           3 10); by vm_compute.
Defined.

(** X17. The workers run concurrently, so their samples reach the channel
    in an order that changes from run to run; the value
    [measureAverageLatency] returns does not depend on it: summarizing the
    samples in any order gives the returned average. *)
Theorem average_ignores_arrival_order rt net concurrency totalRequests r arrival :
  measureAverageLatency rt net concurrency totalRequests = Returned r →
  arrival ≡ₚ concat (sent <$> workers r) →
  summarize arrival = average r.
Proof.
  intros Hr Hp. rewrite (summarize_perm _ _ Hp).
  revert Hr. rewrite measure_cases.
  destruct (makechan rt sizeof_Duration totalRequests) as [[]|msg|]; [|done..].
  destruct (GoInt.div totalRequests concurrency); [|done].
  by intros [= <-].
Qed.

Lemma average_ignores_arrival_order_witness :
  summarize [2000000; 1000000; 2000000; 1000000]%Z
  = S754_finite false 6755399441055744 (-52).
Proof.
  apply (average_ignores_arrival_order amd64
           (λ i _, Ok (Z.of_nat (S i) * 1000000)) 2 4
           (mkReport (S754_finite false 6755399441055744 (-52))
              [mkWorker [0; 1] [1000000; 1000000]%Z [];
               mkWorker [0; 1] [2000000; 2000000]%Z []])).
  - vm_compute. reflexivity.
  - apply (bool_decide_unpack _). vm_compute. exact I.
Defined.

(** X18. What the returned average is worth. For a non-empty set of
    non-negative samples (whose sum fits an [int64]) [summarize] returns a
    finite, non-negative number: the cut mean (the whole milliseconds of
    the sum, divided by the number [n] of samples) up to the rounding of
    the division, less than [2^-53] of it; and the cut mean is at most the
    arithmetic mean of the samples and less than [1/n] millisecond below
    it. *)
Theorem average_is_cut_mean latencies :
  latencies ≠ [] → Forall (λ d, 0 ≤ d)%Z latencies →
  (foldr Z.add 0 latencies ≤ GoInt.max_int)%Z →
  (Z.of_nat (length latencies) < 2 ^ 53)%Z →
  ∃ q, float64_value (summarize latencies) = Some q
       ∧ (0 <= q)%Q
       ∧ (Qabs (q - cut_mean_ms latencies) * inject_Z (2 ^ 53)
          <= cut_mean_ms latencies)%Q
       ∧ (cut_mean_ms latencies <= exact_mean_ms latencies)%Q
       ∧ (exact_mean_ms latencies
          < cut_mean_ms latencies
            + 1 / inject_Z (Z.of_nat (length latencies)))%Q.
Proof.
  intros Hne Hpos Hsum Hlen.
  assert (0 ≤ foldr Z.add 0 latencies)%Z as H0.
  { clear -Hpos. induction Hpos; simpl; lia. }
  destruct (summarize_value latencies Hne ltac:(lia) Hlen)
    as (q & Hq & Hq0 & Hclose).
  exists q. split; [done|]. split; [done|]. split; [done|].
  pose proof (milliseconds_truncates _ H0) as [Hlo Hhi].
  unfold Milliseconds in Hlo, Hhi.
  unfold cut_mean_ms, exact_mean_ms.
  set (sum := foldr Z.add 0%Z latencies) in *.
  set (ms := (sum `quot` 1000000)%Z) in *.
  assert (0 ≤ ms)%Z as Hms by lia.
  destruct (length latencies) as [|n] eqn:En; [by destruct latencies|].
  rewrite Nat2Z.inj_succ, <- Z.add_1_r.
  destruct (Z.of_nat n + 1)%Z as [|p|p] eqn:Ep; try lia.
  unfold Qle, Qlt, Qdiv, Qmult, Qinv, Qplus, inject_Z. simpl.
  rewrite ?Z.mul_1_r, ?Pos2Z.inj_mul.
  split; nia.
Qed.

Lemma average_is_cut_mean_witness :
  ∃ q, float64_value (summarize [3000000; 5000000; 4500000]%Z) = Some q
       ∧ (0 <= q)%Q
       ∧ (Qabs (q - cut_mean_ms [3000000; 5000000; 4500000]%Z)
          * inject_Z (2 ^ 53)
          <= cut_mean_ms [3000000; 5000000; 4500000]%Z)%Q
       ∧ (cut_mean_ms [3000000; 5000000; 4500000]%Z
          <= exact_mean_ms [3000000; 5000000; 4500000]%Z)%Q
       ∧ (exact_mean_ms [3000000; 5000000; 4500000]%Z
          < cut_mean_ms [3000000; 5000000; 4500000]%Z
            + 1 / inject_Z (Z.of_nat 3))%Q.
Proof.
  apply (average_is_cut_mean [3000000; 5000000; 4500000]%Z).
  - discriminate.
  - repeat constructor; lia.
  - by vm_compute.
  - by vm_compute.
Defined.

(** X19. [benchmarkServer] sends each request of a worker once, in order,
    and calls [b.Errorf] once for each request that fails, with the message
    ["Request failed: <error>"], and for no other: the benchmark is marked
    as failed exactly when a request has failed. It keeps no latency
    sample. *)
Theorem benchmark_reports_each_failure net concurrency N ws i w :
  benchmarkServer net concurrency N = Returned ws →
  ws !! i = Some w →
  NoDup (calls w)
  ∧ sent w = []
  ∧ errors w = omap (λ j, (λ e, "Request failed: " +:+ e)
                            <$> failure_of (net i j)) (calls w)
  ∧ (errors w = [] ↔ Forall (λ j, failure_of (net i j) = None) (calls w)).
Proof.
  rewrite bench_cases.
  destruct (GoInt.div N concurrency) as [n|]; [|done].
  intros [= <-] Hw.
  apply list_lookup_fmap_Some in Hw as (i' & -> & Hi').
  unfold iterations in Hi'. apply lookup_seq in Hi' as [-> _]. simpl.
  destruct (run_worker_bench (net i) n) as (Hc & Hs & He).
  rewrite Hc, Hs, He. split; [apply NoDup_seq|]. split; [done|].
  split; [done|].
  generalize (iterations n). intros l. induction l as [|j l IH]; csimpl.
  - split; [constructor|done].
  - destruct (failure_of (net i j)) as [e|] eqn:Ef; simpl.
    + split; [done|]. intros Hall. apply Forall_cons in Hall as [? _]. congruence.
    + rewrite IH. split.
      * intros Hall. by constructor.
      * intros Hall. by apply Forall_cons in Hall as [_ ?].
Qed.

Lemma benchmark_reports_each_failure_witness :
  errors (mkWorker [0] [] ["Request failed: connection refused"])
  = omap (λ j, (λ e, "Request failed: " +:+ e)
                 <$> failure_of (server_down 0 j)) [0].
Proof.
  destruct (benchmark_reports_each_failure server_down 1 1
              [mkWorker [0] [] ["Request failed: connection refused"]] 0
              (mkWorker [0] [] ["Request failed: connection refused"]))
    as (_ & _ & H & _); [reflexivity|reflexivity|exact H].
Defined.
